(** * typed-cdp-sql: a shallow embedding of the SQL front end

    The repository has two halves.  The text path (src/index.ts,
    normalize.ts, utils.ts, parse-from.ts, parse-select.ts,
    parse-expressions.ts, sql-types.ts, resolve.ts, schema.ts) is written
    entirely as TypeScript conditional types over string-literal types; it
    is embedded here as functions over [string].  The builder path
    (builder/ast.ts, compiler.ts, expression-builder.ts,
    select-query-builder.ts, cdp.ts, abi-types.ts) is ordinary runtime
    code plus a few more conditional types.

    Characters are the 256 values of [ascii], read as UTF-16 code units
    below 256.  TypeScript's instantiation-depth limit is not modelled:
    every conditional type is a total function here. *)

From Stdlib Require Import Ascii String ZArith Lia DecimalString.
From Equations Require Import Equations.
From stdpp Require Import base gmap strings list.

Set Warnings "-register-all".

#[local] Arguments String.append !s1 s2 / : simpl nomatch.

(** ** Strings *)

Module Str.

Lemma app_nil_r (s : string) : s +:+ "" = s.
Proof. induction s as [|c s IH]; cbn; [done|by rewrite IH]. Qed.

Lemma app_assoc (a b c : string) : a +:+ b +:+ c = (a +:+ b) +:+ c.
Proof. induction a as [|x a IH]; cbn; [done|by rewrite IH]. Qed.

Lemma length_app (a b : string) :
  String.length (a +:+ b) = String.length a + String.length b.
Proof. induction a as [|x a IH]; cbn; [done|by rewrite IH]. Qed.

Lemma length_zero (s : string) : String.length s = 0 → s = "".
Proof. by destruct s. Qed.

Lemma app_cons (c : ascii) (a b : string) :
  String c a +:+ b = String c (a +:+ b).
Proof. done. Qed.

Lemma app_inv_tail (a b c : string) : a +:+ c = b +:+ c → a = b.
Proof.
  revert b; induction a as [|x a IH]; intros [|y b] H; cbn in H.
  - done.
  - apply (f_equal String.length) in H. cbn in H. rewrite length_app in H. lia.
  - apply (f_equal String.length) in H. cbn in H. rewrite length_app in H. lia.
  - injection H as -> H. f_equal. by apply IH.
Qed.

Lemma app_eq_nil (a b : string) : a +:+ b = "" → a = "" ∧ b = "".
Proof. by destruct a. Qed.

End Str.

(** The primitive matches from which every template-literal pattern of
    the source is built.  TypeScript infers the placeholders of a
    pattern from left to right: the source must start with the pattern's
    first text and end with its last one, and each text in between is
    looked for at its first occurrence after the previous match. *)

(** [S extends `<p>${infer R}`] *)
Fixpoint strip_prefix (p s : string) : option string :=
  match p, s with
  | "", _ => Some s
  | String a p', String b s' =>
      if Ascii.eqb a b then strip_prefix p' s' else None
  | String _ _, "" => None
  end.

(** [S extends `${infer R}<p>`] *)
Fixpoint strip_suffix (p s : string) : option string :=
  if String.eqb s p then Some ""
  else match s with
       | "" => None
       | String c s' => String c <$> strip_suffix p s'
       end.

(** [S extends `${infer A}<d>${infer B}`]: [A] stops at the first [d]. *)
Fixpoint cut (d s : string) : option (string * string) :=
  match strip_prefix d s with
  | Some r => Some ("", r)
  | None =>
      match s with
      | "" => None
      | String c s' =>
          match cut d s' with
          | Some (a, b) => Some (String c a, b)
          | None => None
          end
      end
  end.

(** [S extends `<pre>${infer X}<post>`] *)
Definition between (pre post s : string) : option string :=
  r ← strip_prefix pre s; strip_suffix post r.

(** [S extends `<pre>${infer A}<mid>${infer B}<post>`] *)
Definition split_at (pre mid post s : string) : option (string * string) :=
  r ← between pre post s; cut mid r.

(** [S extends `${string}<d>${string}`] *)
Definition contains (d s : string) : bool := bool_decide (is_Some (cut d s)).

(** [S extends `${infer R}${C}`] for a pattern [C] of one character: the
    text before the last character, and that character. *)
Fixpoint unsnoc (s : string) : option (string * ascii) :=
  match s with
  | "" => None
  | String c s' =>
      match unsnoc s' with
      | Some (r, l) => Some (String c r, l)
      | None => Some ("", c)
      end
  end.

(** Every code unit of [s] satisfies [P]. *)
Fixpoint all_chars (P : ascii → bool) (s : string) : bool :=
  match s with
  | "" => true
  | String c r => P c && all_chars P r
  end.

Definition inspect {A} (a : A) : {b | a = b} := exist _ a eq_refl.

Section MatchFacts.

Lemma strip_prefix_Some p s r : strip_prefix p s = Some r ↔ s = p +:+ r.
Proof.
  revert s; induction p as [|a p IH]; intros [|b s]; cbn.
  - split; congruence.
  - split; congruence.
  - split; [done|]. discriminate.
  - destruct (Ascii.eqb_spec a b) as [->|Hne].
    + rewrite IH. split; [by intros ->|]. by intros [= ->].
    + split; [done|]. intros [= ? _]. done.
Qed.

Lemma strip_prefix_app p r : strip_prefix p (p +:+ r) = Some r.
Proof. by apply strip_prefix_Some. Qed.

Lemma strip_suffix_Some p s r : strip_suffix p s = Some r ↔ s = r +:+ p.
Proof.
  revert r; induction s as [|c s IH]; intros r; cbn [strip_suffix].
  - destruct (String.eqb_spec "" p) as [<-|Hne].
    + split; [by intros [= <-]|]. by intros [-> _]%eq_sym%Str.app_eq_nil.
    + split; [done|]. intros [-> ->]%eq_sym%Str.app_eq_nil. done.
  - destruct (String.eqb_spec (String c s) p) as [<-|Hne].
    + split; [by intros [= <-]|]. intros H.
      destruct r as [|x r]; [done|]. exfalso.
      apply (f_equal String.length) in H. cbn in H.
      rewrite Str.length_app in H. cbn in H. lia.
    + split.
      * destruct (strip_suffix p s) as [r'|] eqn:E; [|done].
        intros [= <-]. by rewrite (proj1 (IH r') eq_refl) at 1.
      * destruct r as [|x r]; cbn; [by intros <-|].
        intros [= <- H]. apply IH in H as ->. done.
Qed.

Lemma strip_suffix_app p r : strip_suffix p (r +:+ p) = Some r.
Proof. by apply strip_suffix_Some. Qed.

Lemma cut_Some d s a b : cut d s = Some (a, b) → s = a +:+ d +:+ b.
Proof.
  revert a b; induction s as [|c s IH]; intros a b; cbn [cut].
  - destruct (strip_prefix d "") as [r|] eqn:E; [|done].
    intros [= <- <-]. by apply strip_prefix_Some in E.
  - destruct (strip_prefix d (String c s)) as [r|] eqn:E.
    + intros [= <- <-]. by apply strip_prefix_Some in E.
    + destruct (cut d s) as [[x y]|] eqn:E'; [|done].
      intros [= <- <-]. by rewrite (IH _ _ eq_refl).
Qed.

Lemma cut_None d s : cut d s = None → ∀ a b, s ≠ a +:+ d +:+ b.
Proof.
  induction s as [|c s IH]; cbn [cut].
  - destruct (strip_prefix d "") as [r|] eqn:E; [done|].
    intros _ a b H. symmetry in H.
    apply Str.app_eq_nil in H as [-> [-> ->]%Str.app_eq_nil]. done.
  - destruct (strip_prefix d (String c s)) as [r|] eqn:E; [done|].
    destruct (cut d s) as [[x y]|] eqn:E'; [done|].
    intros _ [|x a] b H; cbn in H.
    + apply strip_prefix_Some in H. congruence.
    + injection H as _ H. by eapply IH.
Qed.

Lemma cut_is_Some d s : is_Some (cut d s) ↔ ∃ a b, s = a +:+ d +:+ b.
Proof.
  split.
  - intros [[a b] H]. exists a, b. by apply cut_Some.
  - intros (a & b & ->). destruct (cut d _) eqn:E; [done|].
    by eapply cut_None in E.
Qed.

Lemma contains_true d s : contains d s = true ↔ ∃ a b, s = a +:+ d +:+ b.
Proof. unfold contains. rewrite bool_decide_eq_true. apply cut_is_Some. Qed.

Lemma contains_false d s : contains d s = false ↔ cut d s = None.
Proof.
  unfold contains. rewrite bool_decide_eq_false, <-eq_None_not_Some. done.
Qed.

Lemma cut_app_None d a b : cut d (a +:+ b) = None → cut d a = None ∧ cut d b = None.
Proof.
  intros H. split.
  - destruct (cut d a) as [[x y]|] eqn:E; [|done].
    apply cut_Some in E as ->. exfalso.
    eapply (cut_None _ _ H x (y +:+ b)). by rewrite <-!Str.app_assoc.
  - destruct (cut d b) as [[x y]|] eqn:E; [|done].
    apply cut_Some in E as ->. exfalso.
    eapply (cut_None _ _ H (a +:+ x) y). by rewrite <-!Str.app_assoc.
Qed.

Lemma cut_length d s a b :
  cut d s = Some (a, b) →
  String.length s = String.length a + String.length d + String.length b.
Proof. intros ->%cut_Some. rewrite !Str.length_app. lia. Qed.

Lemma unsnoc_app t l : unsnoc (t +:+ String l "") = Some (t, l).
Proof. induction t as [|z t IH]; cbn; [done|]. by rewrite IH. Qed.

Lemma unsnoc_Some s r c : unsnoc s = Some (r, c) ↔ s = r +:+ String c "".
Proof.
  split; [|intros ->; apply unsnoc_app].
  revert r; induction s as [|x s IH]; intros r; cbn; [done|].
  destruct (unsnoc s) as [[r' l]|] eqn:E.
  - intros [= <- <-]. by rewrite (IH r' eq_refl) at 1.
  - intros [= <- <-]. destruct s as [|y s]; [done|].
    cbn in E. by destruct (unsnoc s) as [[??]|].
Qed.

Lemma unsnoc_None s : unsnoc s = None ↔ s = "".
Proof.
  destruct s as [|x s]; cbn; [done|].
  by destruct (unsnoc s) as [[??]|].
Qed.

End MatchFacts.

(** ** utils.ts *)

Definition LF : ascii := "010"%char.
Definition CR : ascii := "013"%char.
Definition TAB : ascii := "009"%char.

(** [type WhitespaceChar = ' ' | '\n' | '\t' | '\r'] *)
Definition WhitespaceChar (c : ascii) : bool :=
  Ascii.eqb c " " || Ascii.eqb c LF || Ascii.eqb c TAB || Ascii.eqb c CR.

Fixpoint TrimStart (s : string) : string :=
  match s with
  | String c r => if WhitespaceChar c then TrimStart r else s
  | "" => s
  end.

Equations? TrimEnd (s : string) : string by wf (String.length s) lt :=
  TrimEnd s with inspect (unsnoc s) => {
    | exist _ (Some (r, c)) _ with WhitespaceChar c => {
        | true := TrimEnd r;
        | false := s };
    | exist _ None _ := s }.
Proof.
  apply unsnoc_Some in e as ->. rewrite Str.length_app. cbn. lia.
Qed.

Definition Trim (s : string) : string := TrimStart (TrimEnd s).

(** The weight that goes down at every rewriting step of
    [CollapseWhitespace]: a newline, carriage return or tab becomes a
    space (same length, one special character fewer), two spaces become
    one (one character fewer). *)
Fixpoint ws_weight (s : string) : nat :=
  match s with
  | "" => 0
  | String c r =>
      (if Ascii.eqb c LF || Ascii.eqb c CR || Ascii.eqb c TAB then 2 else 1)
      + ws_weight r
  end.

Lemma ws_weight_app a b : ws_weight (a +:+ b) = ws_weight a + ws_weight b.
Proof. induction a as [|c a IH]; cbn; [done|]. rewrite IH. lia. Qed.

Equations? CollapseWhitespace (s : string) : string by wf (ws_weight s) lt :=
  CollapseWhitespace s with inspect (cut (String LF "") s) => {
    | exist _ (Some (a, b)) _ := CollapseWhitespace (a +:+ " " +:+ b);
    | exist _ None _ with inspect (cut (String CR "") s) => {
        | exist _ (Some (a, b)) _ := CollapseWhitespace (a +:+ " " +:+ b);
        | exist _ None _ with inspect (cut (String TAB "") s) => {
            | exist _ (Some (a, b)) _ := CollapseWhitespace (a +:+ " " +:+ b);
            | exist _ None _ with inspect (cut "  " s) => {
                | exist _ (Some (a, b)) _ := CollapseWhitespace (a +:+ " " +:+ b);
                | exist _ None _ := s } } } }.
Proof.
  all: match goal with H : cut _ _ = Some _ |- _ => apply cut_Some in H as -> end.
  all: rewrite !ws_weight_app; cbn; lia.
Qed.

(** [SplitByComma<S, Depth, Current, Result>]; the tuple [Depth] of zeros
    is its length. *)
Fixpoint SplitByComma (s : string) (depth : nat) (current : string)
    (result : list string) : list string :=
  match s with
  | String c rest =>
      if Ascii.eqb c "(" || Ascii.eqb c "[" then
        SplitByComma rest (S depth) (current +:+ String c "") result
      else if Ascii.eqb c ")" || Ascii.eqb c "]" then
        SplitByComma rest (Nat.pred depth) (current +:+ String c "") result
      else if Ascii.eqb c "," then
        match depth with
        | 0 => SplitByComma rest 0 "" (result ++ [Trim current])
        | _ => SplitByComma rest depth (current +:+ String c "") result
        end
      else SplitByComma rest depth (current +:+ String c "") result
  | "" =>
      if String.eqb current "" then result else result ++ [Trim current]
  end.

Definition StripSemicolon (s : string) : string :=
  match strip_suffix ";" s with
  | Some r => Trim r
  | None => s
  end.

(** ** normalize.ts *)

(** The intrinsic [Lowercase] is [String.prototype.toLowerCase]; on code
    units below 256 it moves A-Z and the Latin-1 capitals down by 32. *)
Definition lower_char (c : ascii) : ascii :=
  let n := nat_of_ascii c in
  if Nat.leb 65 n && Nat.leb n 90 then ascii_of_nat (n + 32)
  else if Nat.leb 192 n && Nat.leb n 222 && negb (Nat.eqb n 215)
       then ascii_of_nat (n + 32)
  else c.

Fixpoint Lowercase (s : string) : string :=
  match s with
  | "" => ""
  | String c r => String (lower_char c) (Lowercase r)
  end.

Definition Normalize (s : string) : string :=
  StripSemicolon (Trim (CollapseWhitespace (Lowercase s))).

Example Normalize_scenario :
  Normalize (" SELECT   block_number" +:+ String LF "" +:+ String TAB "" +:+ "FROM base.blocks ; ")
  = "select block_number from base.blocks".
Proof. vm_compute. reflexivity. Qed.

(** Facts about [Trim] that the termination proofs below rely on. *)

(** [funelim] leaves an equation between the inspected value and its
    pattern; the proofs below only need the plain equation next to it. *)
Ltac drop_inspect :=
  repeat match goal with
         | H : _ = {| pr1 := _; pr2 := _ |} |- _ => clear H
         end.

Lemma TrimEnd_eq s :
  TrimEnd s = match unsnoc s with
              | Some (r, c) => if WhitespaceChar c then TrimEnd r else s
              | None => s
              end.
Proof.
  funelim (TrimEnd s); rewrite e; [done|..]; by rewrite Heq.
Qed.

Lemma TrimStart_suffix s : ∃ w, s = w +:+ TrimStart s.
Proof.
  induction s as [|c s [w IH]]; [by exists ""|]. cbn.
  destruct (WhitespaceChar c); [|by exists ""].
  exists (String c w). cbn. by rewrite <-IH.
Qed.

Lemma TrimEnd_prefix s : ∃ w, s = TrimEnd s +:+ w.
Proof.
  funelim (TrimEnd s); drop_inspect.
  - exists "". by rewrite Str.app_nil_r.
  - destruct H as [w Hw]. apply unsnoc_Some in e as ->.
    exists (w +:+ String c ""). rewrite Str.app_assoc. by rewrite <-Hw.
  - exists "". by rewrite Str.app_nil_r.
Qed.

Lemma Trim_infix s : ∃ u w, s = u +:+ Trim s +:+ w.
Proof.
  unfold Trim. destruct (TrimEnd_prefix s) as [w Hw].
  destruct (TrimStart_suffix (TrimEnd s)) as [u Hu].
  exists u, w. rewrite Str.app_assoc, <-Hu. done.
Qed.

Lemma Trim_length s : String.length (Trim s) ≤ String.length s.
Proof.
  destruct (Trim_infix s) as (u & w & H).
  rewrite H at 2. rewrite !Str.length_app. lia.
Qed.

(** ** parse-select.ts *)

(** [type SelectItem = { expr: string; alias: string }] *)
Record SelectItem := { expr : string; alias : string }.

Definition ExtractSelectList (s : string) : option string :=
  match split_at "select distinct " " from " "" s with
  | Some (cols, _) => Some (Trim cols)
  | None =>
      match split_at "select " " from " "" s with
      | Some (cols, _) => Some (Trim cols)
      | None => None
      end
  end.

Definition IsSelectStar (s : string) : bool := String.eqb (Trim s) "*".

Definition InferDefaultAlias (s : string) : string :=
  if contains "[" s then s
  else if contains "(" s then s
  else match cut "." s with
       | Some (_, col) => col
       | None => s
       end.

Equations? FindLastAs (prefix rest : string) : SelectItem
    by wf (String.length rest) lt :=
  FindLastAs prefix rest with inspect (cut " as " rest) => {
    | exist _ (Some (a, b)) _ with contains " as " b => {
        | true := FindLastAs (prefix +:+ " as " +:+ a) b;
        | false := {| expr := Trim (prefix +:+ " as " +:+ a); alias := Trim b |} };
    | exist _ None _ :=
        {| expr := Trim (prefix +:+ " as " +:+ rest);
           alias := InferDefaultAlias (Trim (prefix +:+ " as " +:+ rest)) |} }.
Proof.
  apply cut_length in e. cbn in e. lia.
Qed.

Definition ParseSingleItem (s : string) : SelectItem :=
  match cut " as " (Trim s) with
  | Some (e, al) =>
      if contains " as " al then FindLastAs (Trim e) al
      else {| expr := Trim e; alias := Trim al |}
  | None => {| expr := Trim s; alias := InferDefaultAlias (Trim s) |}
  end.

Definition ParseItemTuple (t : list string) : list SelectItem :=
  map ParseSingleItem t.

Definition ParseSelectItems (s : string) : list SelectItem :=
  ParseItemTuple (SplitByComma s 0 "" []).

Example ParseSelectItems_cast_and_map :
  ParseSelectItems "cast(value as uint64) as val, parameters['a,b'], t.block_number"
  = [ {| expr := "cast(value as uint64)"; alias := "val" |};
      {| expr := "parameters['a,b']"; alias := "parameters['a,b']" |};
      {| expr := "t.block_number"; alias := "block_number" |} ].
Proof. vm_compute. reflexivity. Qed.

(** ** sql-types.ts *)

(** The TypeScript types that the resolver can produce. *)
Inductive TsType : Type :=
  | TUnknown                      (* unknown *)
  | TNever                        (* never: the empty union *)
  | TNumericString                (* `${number}` *)
  | THexString                    (* `0x${string}` *)
  | TString                       (* string *)
  | TNumber                       (* number *)
  | TBoolean                      (* boolean *)
  | TNull                         (* null *)
  | TArray (elem : TsType)        (* Array<elem> *)
  | TRecord (value : TsType)      (* Record<string, value> *)
  | TUnion (l r : TsType).        (* l | r *)

Global Instance TsType_eq_dec : EqDecision TsType.
Proof. solve_decision. Defined.

(** The members of a union, with nested unions flattened. *)
Fixpoint union_members (t : TsType) : list TsType :=
  match t with
  | TUnion l r => union_members l ++ union_members r
  | TNever => []
  | _ => [t]
  end.

Fixpoint union_of (members : list TsType) : TsType :=
  match members with
  | [] => TNever
  | [m] => m
  | m :: rest => TUnion m (union_of rest)
  end.

(** [l | r]: [unknown] absorbs every other member, [never] adds none, and
    a member occurs once.  Template-literal members are not absorbed by
    [string]: a union is kept as the source writes it. *)
Definition ts_union (l r : TsType) : TsType :=
  let members := remove_dups (union_members l ++ union_members r) in
  if bool_decide (TUnknown ∈ members) then TUnknown else union_of members.

(** [boolean | `${number}` | string] *)
Definition TVariant : TsType := TUnion TBoolean (TUnion TNumericString TString).

Lemma between_length pre post s x :
  between pre post s = Some x →
  String.length s = String.length pre + String.length x + String.length post.
Proof.
  unfold between. destruct (strip_prefix pre s) as [r|] eqn:E; [|done]. cbn.
  intros ->%strip_suffix_Some. apply strip_prefix_Some in E as ->.
  rewrite !Str.length_app. lia.
Qed.

(** One unfolding of the conditional type [MapSqlType<T>], its branches in
    the order of the source: either a finished type, or the inner text on
    which the type recurses. *)
Inductive SqlTypeCase : Type :=
  | IsType (ty : TsType)
  | IsNullable (inner : string)       (* MapSqlType<Trim<Inner>> | null *)
  | IsArray (inner : string)          (* Array<MapSqlType<Trim<Inner>>> *)
  | IsMap (rest : string).            (* ParseMapType<Trim<Rest>> *)

Definition MapSqlType_case (t : string) : SqlTypeCase :=
  if String.eqb t "uint64" then IsType TNumericString
  else if String.eqb t "uint256" then IsType TNumericString
  else if String.eqb t "int256" then IsType TNumericString
  else if String.eqb t "hex" then IsType THexString
  else if String.eqb t "string" then IsType TString
  else match between "nullable(" ")" t with
  | Some inner => IsNullable inner
  | None =>
  if String.eqb t "datetime" then IsType TString
  else if bool_decide (is_Some (strip_prefix "datetime64" t)) then IsType TString
  else if String.eqb t "bool" then IsType TBoolean
  else if String.eqb t "int8" then IsType TNumber
  else if String.eqb t "uint32" then IsType TNumber
  else if bool_decide (is_Some (strip_prefix "enum8" t)) then IsType TNumber
  else match between "array(" ")" t with
  | Some inner => IsArray inner
  | None =>
  match between "map(" ")" t with
  | Some rest => IsMap rest
  | None =>
  if bool_decide (is_Some (between "variant(" ")" t)) then IsType TVariant
  else IsType TUnknown
  end end end.

(** [ParseMapType<S>]: the value type is what follows the first [", "]. *)
Definition ParseMapType_value (s : string) : option string :=
  snd <$> cut ", " s.

Lemma MapSqlType_case_length t :
  match MapSqlType_case t with
  | IsType _ => True
  | IsNullable x | IsArray x | IsMap x => String.length x < String.length t
  end.
Proof.
  unfold MapSqlType_case.
  repeat match goal with
         | |- context [if ?b then _ else _] => destruct b; [done|]
         | |- context [between ?p ?q ?x] =>
             let E := fresh "E" in
             destruct (between p q x) eqn:E;
             [apply between_length in E; cbn in E; cbn; lia|]
         end.
  done.
Qed.

Equations? MapSqlType (t : string) : TsType by wf (String.length t) lt :=
  MapSqlType t with inspect (MapSqlType_case t) => {
    | exist _ (IsType ty) _ := ty;
    | exist _ (IsNullable inner) _ := ts_union (MapSqlType (Trim inner)) TNull;
    | exist _ (IsArray inner) _ := TArray (MapSqlType (Trim inner));
    | exist _ (IsMap rest) _ with inspect (ParseMapType_value (Trim rest)) => {
        | exist _ (Some v) _ := TRecord (MapSqlType (Trim v));
        | exist _ None _ := TRecord TUnknown } }.
Proof.
  all: pose proof (MapSqlType_case_length t) as Hl;
    match goal with E : MapSqlType_case _ = _ |- _ => rewrite E in Hl end.
  - pose proof (Trim_length inner). lia.
  - pose proof (Trim_length inner). lia.
  - pose proof (Trim_length rest). pose proof (Trim_length v).
    unfold ParseMapType_value in *.
    destruct (cut ", " (Trim rest)) as [[k v']|] eqn:E; [|done].
    apply cut_length in E. cbn in *. simplify_eq. lia.
Qed.

Example MapSqlType_map_variant :
  MapSqlType "map(string, variant(bool, int256, string, uint256))" = TRecord TVariant.
Proof. vm_compute. reflexivity. Qed.

Example MapSqlType_nullable_array :
  MapSqlType "array(nullable( hex ))" = TArray (TUnion THexString TNull).
Proof. vm_compute. reflexivity. Qed.

(** ** schema.ts *)

(** A schema maps a column name to its SQL type descriptor.  The
    descriptor is a string-literal type, and after a join a union of such
    literals: it is the set of its literals. *)
Abbreviation Schema := (gmap string (gset string)).

Definition schema_of (cols : list (string * string)) : Schema :=
  list_to_map ((λ '(k, t), (k, {[ t ]})) <$> cols).

Definition BlocksSchema : Schema := schema_of
  [ ("block_number", "uint64"); ("block_hash", "Hex"); ("parent_hash", "Hex");
    ("timestamp", "DateTime"); ("miner", "Hex"); ("nonce", "uint64");
    ("sha3_uncles", "Hex"); ("transactions_root", "Hex"); ("state_root", "Hex");
    ("receipts_root", "Hex"); ("logs_bloom", "Hex"); ("gas_limit", "uint64");
    ("gas_used", "uint64"); ("base_fee_per_gas", "uint64");
    ("total_difficulty", "String"); ("size", "uint64"); ("extra_data", "Hex");
    ("mix_hash", "Hex"); ("withdrawals_root", "Hex");
    ("parent_beacon_block_root", "Hex"); ("blob_gas_used", "uint64");
    ("excess_blob_gas", "uint64"); ("transaction_count", "uint64");
    ("action", "Int8") ].

Definition EventsSchema : Schema := schema_of
  [ ("block_number", "uint64"); ("block_hash", "Hex");
    ("timestamp", "DateTime64(9)"); ("transaction_hash", "Hex");
    ("transaction_to", "Hex"); ("transaction_from", "Hex");
    ("transaction_index", "uint64"); ("log_index", "uint64"); ("address", "Hex");
    ("topics", "Array(Hex)"); ("event_name", "String");
    ("event_signature", "String");
    ("parameters", "Map(String, Variant(Bool, Int256, String, uint256))");
    ("parameter_types", "Map(String, String)"); ("action", "Int8") ].

Definition TransactionsSchema : Schema := schema_of
  [ ("block_number", "uint64"); ("block_hash", "Hex"); ("transaction_hash", "Hex");
    ("transaction_index", "uint64"); ("from_address", "Hex"); ("to_address", "Hex");
    ("value", "String"); ("gas", "uint64"); ("gas_price", "uint64");
    ("input", "Hex"); ("nonce", "uint64"); ("type", "uint64");
    ("max_fee_per_gas", "uint64"); ("max_priority_fee_per_gas", "uint64");
    ("chain_id", "uint64"); ("v", "Hex"); ("r", "Hex"); ("s", "Hex");
    ("is_system_tx", "Bool"); ("max_fee_per_blob_gas", "String");
    ("blob_versioned_hashes", "Array(Hex)"); ("timestamp", "DateTime64(9)");
    ("action", "Int8") ].

Definition EncodedLogsSchema : Schema := schema_of
  [ ("block_number", "uint64"); ("block_hash", "Hex");
    ("block_timestamp", "DateTime64(9)"); ("transaction_hash", "Hex");
    ("transaction_to", "Hex"); ("transaction_from", "Hex");
    ("log_index", "uint32"); ("address", "Hex"); ("topics", "Array(Hex)");
    ("action", "Int8") ].

Definition TransfersSchema : Schema := schema_of
  [ ("block_number", "uint64"); ("block_timestamp", "DateTime64(9)");
    ("transaction_to", "Hex"); ("transaction_from", "Hex");
    ("log_index", "uint32"); ("token_address", "Hex"); ("from_address", "Hex");
    ("to_address", "Hex"); ("value", "uint256"); ("action", "Int8") ].

(** [interface TableSchemas]: table name to schema. *)
Definition TableSchemas : gmap string Schema :=
  list_to_map
    [ ("base.blocks", BlocksSchema); ("base.events", EventsSchema);
      ("base.transactions", TransactionsSchema);
      ("base.encoded_logs", EncodedLogsSchema);
      ("base.transfers", TransfersSchema);
      ("blocks", BlocksSchema); ("events", EventsSchema);
      ("transactions", TransactionsSchema);
      ("encoded_logs", EncodedLogsSchema); ("transfers", TransfersSchema) ].

(** ** parse-expressions.ts *)

Definition DQ : ascii := "034"%char.

(** [MapSqlType<Lowercase<Schema[K] & string>>]: a conditional type
    distributes over the union of literals. *)
Definition MapColumnType (u : gset string) : TsType :=
  foldr ts_union TNever ((λ t, MapSqlType (Lowercase t)) <$> elements u).

(** [X extends Record<string, infer V> ? V : unknown]; the check is not
    distributive, so every member of a union has to be a record. *)
Fixpoint record_value (t : TsType) : option TsType :=
  match t with
  | TRecord v => Some v
  | TUnion l r =>
      match record_value l, record_value r with
      | Some x, Some y => Some (ts_union x y)
      | _, _ => None
      end
  | TNever => Some TUnknown
  | _ => None
  end.

Definition MapValueOf (schema : Schema) (col : string) : TsType :=
  match schema !! col with
  | Some u => default TUnknown (record_value (MapColumnType u))
  | None => TUnknown
  end.

(** One unfolding of [ResolveExpression<Expr, Schema>]: a finished type,
    or the shorter text the type recurses on. *)
Inductive ResolveCase : Type :=
  | Resolved (ty : TsType)
  | Recurse (next : string).

Definition ResolveExpression_case (e : string) (schema : Schema) : ResolveCase :=
  match schema !! e with
  | Some u => Resolved (MapColumnType u)
  | None =>
  match cut "." e with
  | Some (_, rest) => Recurse rest
  | None =>
  match split_at "" "['" "']" e with
  | Some (col, _) => Resolved (MapValueOf schema col)
  | None =>
  match split_at "" (String "[" (String DQ "")) (String DQ "]") e with
  | Some (col, _) => Resolved (MapValueOf schema col)
  | None =>
  match between "cast(" ")" e with
  | Some inner =>
      match cut " as " inner with
      | Some (_, target) => Resolved (MapSqlType (Trim target))
      | None => Resolved TUnknown
      end
  | None =>
  if bool_decide (is_Some (between "count(" ")" e)) then Resolved TNumericString
  else if bool_decide (is_Some (between "sum(" ")" e)) then Resolved TNumericString
  else if bool_decide (is_Some (between "avg(" ")" e)) then Resolved TNumber
  else match between "min(" ")" e with
  | Some inner => Recurse (Trim inner)
  | None =>
  match between "max(" ")" e with
  | Some inner => Recurse (Trim inner)
  | None => Resolved TUnknown
  end end end end end end end.

Lemma ResolveExpression_case_length e schema next :
  ResolveExpression_case e schema = Recurse next →
  String.length next < String.length e.
Proof.
  unfold ResolveExpression_case.
  repeat match goal with
         | |- context [if ?b then _ else _] => destruct b; [done|]
         | |- context [match ?x with _ => _ end] =>
             let E := fresh "E" in destruct x eqn:E
         | p : _ * _ |- _ => destruct p
         end; try done.
  all: intros [= <-].
  - apply cut_length in E0. cbn in E0. lia.
  - apply between_length in E4. pose proof (Trim_length s). cbn in E4. lia.
  - apply between_length in E5. pose proof (Trim_length s). cbn in E5. lia.
Qed.

Equations? ResolveExpression (e : string) (schema : Schema) : TsType
    by wf (String.length e) lt :=
  ResolveExpression e schema with inspect (ResolveExpression_case e schema) => {
    | exist _ (Resolved ty) _ := ty;
    | exist _ (Recurse next) _ := ResolveExpression next schema }.
Proof. by eapply ResolveExpression_case_length. Qed.

(** ** resolve.ts *)

(** The row type of a query: the permissive fallback, the intersection of
    one single-key object per select item (in item order, before
    [Prettify] flattens it), or the mapped type over a schema. *)
Inductive RowType : Type :=
  | RecordStringUnknown
  | Intersection (members : list (string * TsType))
  | Mapped (props : gmap string TsType).

Definition ResolveRowUnion (items : list SelectItem) (schema : Schema)
    : list (string * TsType) :=
  (λ it, (alias it, ResolveExpression (expr it) schema)) <$> items.

Definition ResolveRow (items : list SelectItem) (schema : Schema) : RowType :=
  Intersection (ResolveRowUnion items schema).

Definition FullRow (schema : Schema) : RowType :=
  Mapped (MapColumnType <$> schema).

(** [MergeSchemas<A, B>]: a mapped type over [keyof A | keyof B]. *)
Definition MergeSchemas (A B : Schema) : Schema :=
  merge (λ a b,
    match a, b with
    | Some x, Some y => Some (x ∪ y)
    | Some x, None => Some x
    | None, Some y => Some y
    | None, None => None
    end) A B.

Example ResolveExpression_qualified_map :
  ResolveExpression "e.parameters['from']" EventsSchema = TVariant.
Proof. vm_compute. reflexivity. Qed.

Example ResolveExpression_min :
  ResolveExpression "min( gas_price )" TransactionsSchema = TNumericString.
Proof. vm_compute. reflexivity. Qed.

(** ** parse-from.ts *)

(** [StripAlias]: keep what precedes the first space. *)
Definition StripAlias (s : string) : string :=
  match cut " " s with
  | Some (table, _) => table
  | None => s
  end.

(** The clause keywords of [StripAfterKeyword], in the order in which the
    source tries them. *)
Definition clause_keywords : list string :=
  [ " where "; " group "; " order "; " limit "; " having "; " union ";
    " join "; " inner "; " left "; " right "; " full "; " cross " ].

Fixpoint StripAfterKeyword_go (kws : list string) (s : string) : string :=
  match kws with
  | kw :: kws' =>
      match cut kw s with
      | Some (t, _) => StripAlias (Trim t)
      | None => StripAfterKeyword_go kws' s
      end
  | [] => StripAlias (Trim s)
  end.

Definition StripAfterKeyword (s : string) : string :=
  StripAfterKeyword_go clause_keywords s.

(** [ExtractTableName<S>]; [None] is [never]. *)
Definition ExtractTableName (s : string) : option string :=
  match cut " from " s with
  | Some (_, rest) => Some (StripAfterKeyword (Trim rest))
  | None => None
  end.

Definition ExtractJoinedTableName (s : string) : option string :=
  match cut " join " s with
  | Some (_, rest) =>
      match cut " on " rest with
      | Some (table, _) => Some (StripAlias (Trim table))
      | None => Some (StripAfterKeyword (Trim rest))
      end
  | None => None
  end.

Definition HasJoin (s : string) : bool := contains " join " s.

(** ** index.ts *)

(** [ResolveSchema<S, TableName>], given [TableSchemas[TableName]]. *)
Definition ResolveSchema (s : string) (table : Schema) : Schema :=
  if HasJoin s then
    match ExtractJoinedTableName s ≫= (TableSchemas !!.) with
    | Some joined => MergeSchemas table joined
    | None => table
    end
  else table.

Definition InferRow (s : string) : RowType :=
  match ExtractTableName s with
  | None => RecordStringUnknown
  | Some name =>
      match TableSchemas !! name with
      | Some table =>
          let schema := ResolveSchema s table in
          match ExtractSelectList s with
          | None => RecordStringUnknown
          | Some list =>
              if IsSelectStar list then FullRow schema
              else ResolveRow (ParseSelectItems list) schema
          end
      | None => RecordStringUnknown
      end
  end.

(** [TypedQuery<SQL> = { result: Array<InferRow<Normalize<SQL>>> }] *)
Record TypedQueryResult := { result : RowType }.

Definition TypedQuery (sql : string) : TypedQueryResult :=
  {| result := InferRow (Normalize sql) |}.

Example TypedQuery_scenario_1 :
  TypedQuery "SELECT block_number FROM base.blocks"
  = {| result := Intersection [("block_number", TNumericString)] |}.
Proof. vm_compute. reflexivity. Qed.

Example TypedQuery_scenario_3 :
  TypedQuery ("SELECT b.block_number, t.transaction_hash FROM base.blocks b "
              +:+ "JOIN base.transactions t ON b.block_number = t.block_number")
  = {| result := Intersection [("block_number", TNumericString);
                               ("transaction_hash", THexString)] |}.
Proof. vm_compute. reflexivity. Qed.

Example TypedQuery_scenario_4 :
  TypedQuery "SELECT col FROM unknown_table" = {| result := RecordStringUnknown |}.
Proof. vm_compute. reflexivity. Qed.

Example TypedQuery_cast :
  TypedQuery "SELECT CAST(value AS uint64) AS val FROM base.transfers"
  = {| result := Intersection [("val", TNumericString)] |}.
Proof. vm_compute. reflexivity. Qed.

(** ** builder/abi-types.ts *)

(** [interface AbiParameter]; [AbiEventParameter] only adds the flag
    [indexed], which no type below reads. *)
Inductive AbiParameter : Type :=
  | AbiParam (type : string) (name : option string)
             (components : option (list AbiParameter)).

Definition param_type (p : AbiParameter) : string :=
  match p with AbiParam t _ _ => t end.
Definition param_name (p : AbiParameter) : option string :=
  match p with AbiParam _ n _ => n end.
Definition param_components (p : AbiParameter) : option (list AbiParameter) :=
  match p with AbiParam _ _ c => c end.

(** [interface AbiEvent] *)
Record AbiEvent := { event_name : string; event_inputs : list AbiParameter }.

(** [type AbiItem]: an event, or an item of another kind. *)
Inductive AbiItem : Type :=
  | AbiItemEvent (e : AbiEvent)
  | AbiItemOther (kind : string).

Abbreviation Abi := (list AbiItem).

(** The loop of [JoinParamTypes<Params, Result>] over an already chosen
    formatting of one parameter. *)
Fixpoint JoinWith (fmt : AbiParameter → string) (params : list AbiParameter)
    (res : string) : string :=
  match params with
  | head :: tail =>
      if String.eqb res "" then JoinWith fmt tail (fmt head)
      else JoinWith fmt tail (res +:+ "," +:+ fmt head)
  | [] => res
  end.

Fixpoint FormatParamType (p : AbiParameter) : string :=
  match p with
  | AbiParam ty _ comps =>
      match strip_prefix "tuple" ty, comps with
      | Some arr, Some c =>
          "(" +:+
          (fix join (params : list AbiParameter) (res : string) : string :=
             match params with
             | head :: tail =>
                 if String.eqb res "" then join tail (FormatParamType head)
                 else join tail (res +:+ "," +:+ FormatParamType head)
             | [] => res
             end) c ""
          +:+ ")" +:+ arr
      | _, _ => ty
      end
  end.

Definition JoinParamTypes (params : list AbiParameter) (res : string) : string :=
  JoinWith FormatParamType params res.

Definition CdpEventSignature (e : AbiEvent) : string :=
  event_name e +:+ "(" +:+ JoinParamTypes (event_inputs e) "" +:+ ")".

Definition SolidityTypeToCdp (t : string) : TsType :=
  if String.eqb t "address" then THexString
  else if String.eqb t "bool" then TBoolean
  else if bool_decide (is_Some (strip_prefix "uint" t)) then TNumericString
  else if bool_decide (is_Some (strip_prefix "int" t)) then TNumericString
  else if String.eqb t "string" then TString
  else if bool_decide (is_Some (strip_prefix "bytes" t)) then THexString
  else TString.

(** [Extract<A[number], { type: 'event' }>] *)
Definition ExtractEvents (abi : Abi) : list AbiEvent :=
  omap (λ item, match item with AbiItemEvent e => Some e | _ => None end) abi.

(** [FindEventBySignature<A, Sig>] distributes over the events: the
    result is the union of the events whose signature is [Sig], here the
    list of them; the empty list is [never]. *)
Definition FindEventBySignature (abi : Abi) (sig : string) : list AbiEvent :=
  filter (λ e, CdpEventSignature e = sig) (ExtractEvents abi).

Fixpoint FindParamByName (params : list AbiParameter) (key : string)
    : option AbiParameter :=
  match params with
  | head :: tail =>
      if bool_decide (param_name head = Some key) then Some head
      else FindParamByName tail key
  | [] => None
  end.

(** [EventParamType<A, Sig, Key>]; [FindParamByName] and
    [SolidityTypeToCdp] distribute over the matched events. *)
Definition EventParamType (abi : Abi) (sig key : string) : TsType :=
  match FindEventBySignature abi sig with
  | [] => TVariant
  | matched =>
      match omap (λ e, FindParamByName (event_inputs e) key) matched with
      | [] => TVariant
      | found => foldr ts_union TNever (SolidityTypeToCdp ∘ param_type <$> found)
      end
  end.

(** [T extends Record<string, infer V> ? V : unknown] over a type
    parameter [T]: distributive. *)
Fixpoint MapValueType (t : TsType) : TsType :=
  match t with
  | TRecord v => v
  | TUnion l r => ts_union (MapValueType l) (MapValueType r)
  | TNever => TNever
  | _ => TUnknown
  end.

(** [ResolveMapType<BaseType, A, Sig, Key>].  [sig = None] is the
    unnarrowed [Sig = string]; [abi = []] is the default [readonly []]. *)
Definition ResolveMapType (base : TsType) (abi : Abi) (sig : option string)
    (key : string) : TsType :=
  match sig with
  | None => MapValueType base
  | Some sg =>
      match abi with
      | [] => MapValueType base
      | _ => EventParamType abi sg key
      end
  end.

(** [AllCdpEventSignatures<A>]: the events are inferred as one union
    [E]; [E['name']] and [JoinParamTypes<E['inputs']>] are then unions of
    their own (the second by distribution), and the template literal
    ranges over every pair of a name and a parameter list. *)
Definition AllCdpEventSignatures (abi : Abi) : list string :=
  name ← event_name <$> ExtractEvents abi;
  params ← (λ e, JoinParamTypes (event_inputs e) "") <$> ExtractEvents abi;
  [name +:+ "(" +:+ params +:+ ")"].

(** The type of [base.events.parameters] in the builder's [CdpDatabase]. *)
Definition ParametersType : TsType :=
  MapSqlType (Lowercase "Map(String, Variant(Bool, Int256, String, uint256))").

Definition erc20_Transfer : AbiEvent :=
  {| event_name := "Transfer";
     event_inputs := [ AbiParam "address" (Some "from") None;
                       AbiParam "address" (Some "to") None;
                       AbiParam "uint256" (Some "value") None ] |}.

Example CdpEventSignature_Transfer :
  CdpEventSignature erc20_Transfer = "Transfer(address,address,uint256)".
Proof. vm_compute. reflexivity. Qed.

Example CdpEventSignature_tuple :
  CdpEventSignature
    {| event_name := "E";
       event_inputs := [ AbiParam "address" (Some "a") None;
                         AbiParam "tuple[]" (Some "t")
                           (Some [AbiParam "uint256" None None;
                                  AbiParam "bool" None None]) ] |}
  = "E(address,(uint256,bool)[])".
Proof. vm_compute. reflexivity. Qed.

Example ResolveMapType_scenario_6 :
  ResolveMapType ParametersType [AbiItemEvent erc20_Transfer]
    (Some "Transfer(address,address,uint256)") "from" = THexString.
Proof. vm_compute. reflexivity. Qed.

(** ** builder/ast.ts *)

(** [ValueNode.value : string | number | boolean | null].  Numbers are the
    integers (row limits, 1-based array indices, integer literals), of a
    size that JavaScript prints in plain decimal digits. *)
Inductive JsValue : Type :=
  | JsString (s : string)
  | JsNumber (n : Z)
  | JsBoolean (b : bool)
  | JsNull.

Inductive JoinType : Type := INNER | LEFT | RIGHT | FULL | CROSS.
Inductive Direction : Type := ASC | DESC.

Record TableNode := { table_name : string; table_alias : option string }.

(** The tagged union [AstNode].  The five structural kinds that other
    nodes refer to by their own interface are types of their own. *)
Inductive AstNode : Type :=
  | ColumnNode (table : option string) (name : string)
  | StarNode (table : option string)
  | ValueNode (value : JsValue)
  | RawNode (sql : string)
  | MapAccessNode (column : AstNode) (key : string)
  | ArrayIndexNode (array : AstNode) (index : Z)
  | FunctionCallNode (name : string) (args : list AstNode)
  | CastNode (expr : AstNode) (targetType : string) (doubleColon : bool)
  | BinaryOpNode (left_ : AstNode) (op : string) (right_ : AstNode)
  | AndNode (conditions : list AstNode)
  | OrNode (conditions : list AstNode)
  | NotNode (expr : AstNode)
  | BetweenNode (expr low high : AstNode)
  | InNode (expr : AstNode) (values : list AstNode) (negated : bool)
  | IsNullNode (expr : AstNode) (negated : bool)
  | ParensNode (expr : AstNode)
  | AliasNode (expr : AstNode) (alias : string)
  | OfTable (t : TableNode)
  | OfJoin (j : JoinNode)
  | OfOrderByItem (o : OrderByItemNode)
  | OfCte (c : CteNode)
  | OfSelectQuery (q : SelectQueryNode)
with JoinNode : Type :=
  | MkJoin (type : JoinType) (table : TableNode) (on : option AstNode)
with OrderByItemNode : Type :=
  | MkOrderByItem (expr : AstNode) (direction : option Direction)
with CteNode : Type :=
  | MkCte (name : string) (query : SelectQueryNode)
with SelectQueryNode : Type :=
  | MkSelectQuery (ctes : list CteNode) (distinct : bool)
      (selections : list AstNode) (from : TableNode) (joins : list JoinNode)
      (where_ : list AstNode) (groupBy : list AstNode) (having : list AstNode)
      (orderBy : list OrderByItemNode) (limit : option Z).

Definition q_ctes (q : SelectQueryNode) : list CteNode :=
  match q with MkSelectQuery c _ _ _ _ _ _ _ _ _ => c end.
Definition q_distinct (q : SelectQueryNode) : bool :=
  match q with MkSelectQuery _ d _ _ _ _ _ _ _ _ => d end.
Definition q_selections (q : SelectQueryNode) : list AstNode :=
  match q with MkSelectQuery _ _ s _ _ _ _ _ _ _ => s end.
Definition q_from (q : SelectQueryNode) : TableNode :=
  match q with MkSelectQuery _ _ _ f _ _ _ _ _ _ => f end.
Definition q_joins (q : SelectQueryNode) : list JoinNode :=
  match q with MkSelectQuery _ _ _ _ j _ _ _ _ _ => j end.
Definition q_where (q : SelectQueryNode) : list AstNode :=
  match q with MkSelectQuery _ _ _ _ _ w _ _ _ _ => w end.
Definition q_groupBy (q : SelectQueryNode) : list AstNode :=
  match q with MkSelectQuery _ _ _ _ _ _ g _ _ _ => g end.
Definition q_having (q : SelectQueryNode) : list AstNode :=
  match q with MkSelectQuery _ _ _ _ _ _ _ h _ _ => h end.
Definition q_orderBy (q : SelectQueryNode) : list OrderByItemNode :=
  match q with MkSelectQuery _ _ _ _ _ _ _ _ o _ => o end.
Definition q_limit (q : SelectQueryNode) : option Z :=
  match q with MkSelectQuery _ _ _ _ _ _ _ _ _ l => l end.

Definition cte_name (c : CteNode) : string :=
  match c with MkCte n _ => n end.
Definition cte_query (c : CteNode) : SelectQueryNode :=
  match c with MkCte _ q => q end.

(** ** builder/compiler.ts *)

(** [String(n)] and [`${n}`] for an integer. *)
Definition string_of_Z (n : Z) : string := NilZero.string_of_int (Z.to_int n).

(** An optional string in a condition: [undefined] and [''] are falsy. *)
Definition truthy (o : option string) : option string :=
  match o with
  | Some s => if String.eqb s "" then None else Some s
  | None => None
  end.

Definition JoinType_text (t : JoinType) : string :=
  match t with
  | INNER => "INNER" | LEFT => "LEFT" | RIGHT => "RIGHT"
  | FULL => "FULL" | CROSS => "CROSS"
  end.

Definition Direction_text (d : Direction) : string :=
  match d with ASC => "ASC" | DESC => "DESC" end.

Definition compileColumn (table : option string) (name : string) : string :=
  match truthy table with
  | Some t => t +:+ "." +:+ name
  | None => name
  end.

Definition compileValue (v : JsValue) : string :=
  match v with
  | JsNull => "NULL"
  | JsString s => "'" +:+ s +:+ "'"
  | JsBoolean b => if b then "true" else "false"
  | JsNumber n => string_of_Z n
  end.

Definition compileTable (node : TableNode) : string :=
  match truthy (table_alias node) with
  | Some a => table_name node +:+ " AS " +:+ a
  | None => table_name node
  end.

Fixpoint compileNode (node : AstNode) : string :=
  match node with
  | ColumnNode table name => compileColumn table name
  | StarNode table =>
      match truthy table with Some t => t +:+ ".*" | None => "*" end
  | ValueNode v => compileValue v
  | RawNode sql => sql
  | MapAccessNode column key => compileNode column +:+ "['" +:+ key +:+ "']"
  | ArrayIndexNode array index =>
      compileNode array +:+ "[" +:+ string_of_Z index +:+ "]"
  | FunctionCallNode name args =>
      if String.eqb name "countDistinct"
      then "count(DISTINCT " +:+ String.concat ", " (List.map compileNode args) +:+ ")"
      else name +:+ "(" +:+ String.concat ", " (List.map compileNode args) +:+ ")"
  | CastNode expr targetType doubleColon =>
      if doubleColon then compileNode expr +:+ "::" +:+ targetType
      else "CAST(" +:+ compileNode expr +:+ " AS " +:+ targetType +:+ ")"
  | BinaryOpNode left_ op right_ =>
      compileNode left_ +:+ " " +:+ op +:+ " " +:+ compileNode right_
  | AndNode conditions => String.concat " AND " (List.map compileNode conditions)
  | OrNode conditions =>
      "(" +:+ String.concat " OR " (List.map compileNode conditions) +:+ ")"
  | NotNode expr => "NOT " +:+ compileNode expr
  | BetweenNode expr low high =>
      compileNode expr +:+ " BETWEEN " +:+ compileNode low
        +:+ " AND " +:+ compileNode high
  | InNode expr values negated =>
      compileNode expr +:+ " " +:+ (if negated then "NOT IN" else "IN")
        +:+ " (" +:+ String.concat ", " (List.map compileNode values) +:+ ")"
  | IsNullNode expr negated =>
      compileNode expr +:+ " IS " +:+ (if negated then "NOT " else "") +:+ "NULL"
  | ParensNode expr => "(" +:+ compileNode expr +:+ ")"
  | AliasNode expr alias => compileNode expr +:+ " AS " +:+ alias
  | OfTable t => compileTable t
  | OfSelectQuery q => "(" +:+ compileQuery q +:+ ")"
  | OfOrderByItem o => compileOrderByItem o
  | OfCte c => compileCte c
  | OfJoin j => compileJoin j
  end
with compileJoin (node : JoinNode) : string :=
  match node with
  | MkJoin type table on =>
      JoinType_text type +:+ " JOIN " +:+ compileTable table +:+
        match on with
        | Some cond => " ON " +:+ compileNode cond
        | None => ""
        end
  end
with compileOrderByItem (node : OrderByItemNode) : string :=
  match node with
  | MkOrderByItem expr direction =>
      compileNode expr +:+
        match direction with
        | Some d => " " +:+ Direction_text d
        | None => ""
        end
  end
with compileCte (node : CteNode) : string :=
  match node with
  | MkCte name query => name +:+ " AS (" +:+ compileQuery query +:+ ")"
  end
with compileQuery (node : SelectQueryNode) : string :=
  match node with
  | MkSelectQuery ctes distinct selections from joins where_ groupBy having
      orderBy limit =>
      let parts := [] in
      let parts :=
        match ctes with
        | [] => parts
        | _ => parts ++ ["WITH " +:+ String.concat ", " (List.map compileCte ctes)]
        end in
      let parts :=
        parts ++ [(if distinct then "SELECT DISTINCT" else "SELECT") +:+ " "
                  +:+ String.concat ", " (List.map compileNode selections)] in
      let parts := parts ++ ["FROM " +:+ compileTable from] in
      let parts := parts ++ List.map compileJoin joins in
      let parts :=
        match where_ with
        | [] => parts
        | _ => parts ++ ["WHERE " +:+ String.concat " AND " (List.map compileNode where_)]
        end in
      let parts :=
        match groupBy with
        | [] => parts
        | _ => parts ++ ["GROUP BY " +:+ String.concat ", " (List.map compileNode groupBy)]
        end in
      let parts :=
        match having with
        | [] => parts
        | _ => parts ++ ["HAVING " +:+ String.concat " AND " (List.map compileNode having)]
        end in
      let parts :=
        match orderBy with
        | [] => parts
        | _ => parts ++ ["ORDER BY " +:+
                           String.concat ", " (List.map compileOrderByItem orderBy)]
        end in
      let parts :=
        match limit with
        | Some n => parts ++ ["LIMIT " +:+ string_of_Z n]
        | None => parts
        end in
      String.concat " " parts
  end.

(** ** Regular expressions of the builder

    The two regular expressions of the builder are sequences of
    single-character classes under [+], [+?] and [*].  They are run the
    way a backtracking matcher runs them: a quantifier hands what it
    consumed and the rest of the input to its continuation, a greedy one
    trying the longest match first and a lazy one the shortest. *)

Section Regex.
Context {R : Type}.

Fixpoint re_star_greedy (P : ascii → bool) (s acc : string)
    (k : string → string → option R) : option R :=
  match s with
  | String c r =>
      if P c then
        match re_star_greedy P r (acc +:+ String c "") k with
        | Some x => Some x
        | None => k acc s
        end
      else k acc s
  | "" => k acc s
  end.

Definition re_plus_greedy (P : ascii → bool) (s : string)
    (k : string → string → option R) : option R :=
  match s with
  | String c r => if P c then re_star_greedy P r (String c "") k else None
  | "" => None
  end.

Fixpoint re_star_lazy (P : ascii → bool) (s acc : string)
    (k : string → string → option R) : option R :=
  match k acc s with
  | Some x => Some x
  | None =>
      match s with
      | String c r => if P c then re_star_lazy P r (acc +:+ String c "") k else None
      | "" => None
      end
  end.

Definition re_plus_lazy (P : ascii → bool) (s : string)
    (k : string → string → option R) : option R :=
  match s with
  | String c r => if P c then re_star_lazy P r (String c "") k else None
  | "" => None
  end.

(** A literal under the flag [i]. *)
Fixpoint re_literal_i (lit s : string) (k : string → option R) : option R :=
  match lit, s with
  | "", _ => k s
  | String l lit', String c r =>
      if Ascii.eqb (lower_char l) (lower_char c) then re_literal_i lit' r k
      else None
  | String _ _, "" => None
  end.
End Regex.

(** [\s]: white space and line terminators below 256. *)
Definition js_space (c : ascii) : bool :=
  let n := nat_of_ascii c in
  Nat.eqb n 9 || Nat.eqb n 10 || Nat.eqb n 11 || Nat.eqb n 12 || Nat.eqb n 13
  || Nat.eqb n 32 || Nat.eqb n 160.

(** [.]: anything but a line terminator. *)
Definition js_dot (c : ascii) : bool :=
  negb (Ascii.eqb c LF || Ascii.eqb c CR).

Fixpoint drop_while (P : ascii → bool) (s : string) : string :=
  match s with
  | String c r => if P c then drop_while P r else s
  | "" => ""
  end.

Fixpoint drop_end_while (P : ascii → bool) (s : string) : string :=
  match s with
  | String c r =>
      match drop_end_while P r with
      | "" => if P c then "" else String c ""
      | r' => String c r'
      end
  | "" => ""
  end.

(** [String.prototype.trim] *)
Definition js_trim (s : string) : string :=
  drop_while js_space (drop_end_while js_space s).

(** [str.match(/^(.+?)\s+as\s+(.+)$/i)]: the two groups. *)
Definition match_as (str : string) : option (string * string) :=
  re_plus_lazy js_dot str (λ g1 r1,
    re_plus_greedy js_space r1 (λ _ r2,
      re_literal_i "as" r2 (λ r3,
        re_plus_greedy js_space r3 (λ _ r4,
          re_plus_greedy js_dot r4 (λ g2 r5,
            if String.eqb r5 "" then Some (g1, g2) else None))))).

(** [/^[a-zA-Z_][a-zA-Z0-9_.]*$/.test(value)] *)
Definition ident_start (c : ascii) : bool :=
  let n := nat_of_ascii c in
  (Nat.leb 97 n && Nat.leb n 122) || (Nat.leb 65 n && Nat.leb n 90) || Nat.eqb n 95.

Definition ident_char (c : ascii) : bool :=
  let n := nat_of_ascii c in
  ident_start c || (Nat.leb 48 n && Nat.leb n 57) || Nat.eqb n 46.

Definition test_identifier (value : string) : bool :=
  match value with
  | String c r => ident_start c && all_chars ident_char r
  | "" => false
  end.

(** [value.split('.')] *)
Fixpoint split_dot (s : string) : list string :=
  match s with
  | "" => [""]
  | String c r =>
      if Ascii.eqb c "." then "" :: split_dot r
      else match split_dot r with
           | h :: t => String c h :: t
           | [] => [String c ""]
           end
  end.

(** ** builder/types.ts, builder/expression-builder.ts *)

(** [class Expr<T>]: the node; the phantom type is not part of the value. *)
Record Expr := { expr_node : AstNode }.

(** [class AliasedExpr<T, A>]; its node is an [AliasNode]. *)
Record AliasedExpr := { aliased_node : AstNode; aliased_alias : string }.

(** [Expr.as(alias)] *)
Definition Expr_as (e : Expr) (alias : string) : AliasedExpr :=
  {| aliased_node := AliasNode (expr_node e) alias; aliased_alias := alias |}.

(** An argument of type [Expr<any> | string | number | boolean | null]. *)
Inductive ExprArg : Type :=
  | ArgExpr (e : Expr)
  | ArgString (s : string)
  | ArgNumber (n : Z)
  | ArgBoolean (b : bool)
  | ArgNull.

Definition toNode (value : ExprArg) : AstNode :=
  match value with
  | ArgExpr e => expr_node e
  | ArgString s =>
      if test_identifier s then
        match split_dot s with
        | [p0; p1] => ColumnNode (Some p0) p1
        | _ => ColumnNode None s
        end
      else if String.eqb s "*" then StarNode None
      else ValueNode (JsString s)
  | ArgNumber n => ValueNode (JsNumber n)
  | ArgBoolean b => ValueNode (JsBoolean b)
  | ArgNull => ValueNode JsNull
  end.

Module ExpressionBuilder.

Definition col (name : string) : Expr := {| expr_node := ColumnNode None name |}.

Definition col2 (table name : string) : Expr :=
  {| expr_node := ColumnNode (Some table) name |}.

Definition map (column key : string) : Expr :=
  {| expr_node := MapAccessNode (ColumnNode None column) key |}.

Definition fn (name : string) (args : list ExprArg) : Expr :=
  {| expr_node := FunctionCallNode name (toNode <$> args) |}.

(** [count(expr?)]: a missing argument and the empty string are falsy. *)
Definition count (e : option ExprArg) : Expr :=
  {| expr_node :=
       FunctionCallNode "count"
         [match e with
          | None | Some (ArgString "") => StarNode None
          | Some a => toNode a
          end] |}.

Definition cast (e : Expr) (targetType : string) : Expr :=
  {| expr_node := CastNode (expr_node e) targetType false |}.

Definition castAs (e : Expr) (targetType : string) : Expr :=
  {| expr_node := CastNode (expr_node e) targetType true |}.

Definition val (value : JsValue) : Expr := {| expr_node := ValueNode value |}.


Definition and (conditions : list Expr) : Expr :=
  {| expr_node := AndNode (expr_node <$> conditions) |}.

Definition or (conditions : list Expr) : Expr :=
  {| expr_node := OrNode (expr_node <$> conditions) |}.

Definition not (e : Expr) : Expr := {| expr_node := NotNode (expr_node e) |}.

Definition eq (l : Expr) (r : ExprArg) : Expr :=
  {| expr_node := BinaryOpNode (expr_node l) "=" (toNode r) |}.

Definition neq (l : Expr) (r : ExprArg) : Expr :=
  {| expr_node := BinaryOpNode (expr_node l) "!=" (toNode r) |}.

Definition gt (l : Expr) (r : ExprArg) : Expr :=
  {| expr_node := BinaryOpNode (expr_node l) ">" (toNode r) |}.

Definition gte (l : Expr) (r : ExprArg) : Expr :=
  {| expr_node := BinaryOpNode (expr_node l) ">=" (toNode r) |}.

Definition lt (l : Expr) (r : ExprArg) : Expr :=
  {| expr_node := BinaryOpNode (expr_node l) "<" (toNode r) |}.

Definition lte (l : Expr) (r : ExprArg) : Expr :=
  {| expr_node := BinaryOpNode (expr_node l) "<=" (toNode r) |}.

Definition isNull (e : Expr) : Expr :=
  {| expr_node := IsNullNode (expr_node e) false |}.

Definition isNotNull (e : Expr) : Expr :=
  {| expr_node := IsNullNode (expr_node e) true |}.

Definition between (e : Expr) (low high : ExprArg) : Expr :=
  {| expr_node := BetweenNode (expr_node e) (toNode low) (toNode high) |}.

Definition inList (e : Expr) (values : list ExprArg) : Expr :=
  {| expr_node := InNode (expr_node e) (toNode <$> values) false |}.

Definition notInList (e : Expr) (values : list ExprArg) : Expr :=
  {| expr_node := InNode (expr_node e) (toNode <$> values) true |}.

(** The aggregate, mathematical, string, conversion and date helpers: each
    wraps its arguments in a [FunctionCall] node under the name that
    ClickHouse gives the function. *)

Definition sum (e : ExprArg) : Expr :=
  {| expr_node := FunctionCallNode "sum" [toNode e] |}.
Definition avg (e : ExprArg) : Expr :=
  {| expr_node := FunctionCallNode "avg" [toNode e] |}.
Definition min (e : Expr) : Expr :=
  {| expr_node := FunctionCallNode "min" [expr_node e] |}.
Definition max (e : Expr) : Expr :=
  {| expr_node := FunctionCallNode "max" [expr_node e] |}.
Definition argMax (v ordering : Expr) : Expr :=
  {| expr_node := FunctionCallNode "argMax" [expr_node v; expr_node ordering] |}.
Definition argMin (v ordering : Expr) : Expr :=
  {| expr_node := FunctionCallNode "argMin" [expr_node v; expr_node ordering] |}.
Definition countDistinct (e : ExprArg) : Expr :=
  {| expr_node := FunctionCallNode "countDistinct" [toNode e] |}.
Definition any (e : Expr) : Expr :=
  {| expr_node := FunctionCallNode "any" [expr_node e] |}.
Definition groupArray (e : Expr) : Expr :=
  {| expr_node := FunctionCallNode "groupArray" [expr_node e] |}.

Definition divide (l r : Expr) : Expr :=
  {| expr_node := FunctionCallNode "divide" [expr_node l; expr_node r] |}.
Definition multiply (l r : Expr) : Expr :=
  {| expr_node := FunctionCallNode "multiply" [expr_node l; expr_node r] |}.
Definition plus (l r : Expr) : Expr :=
  {| expr_node := FunctionCallNode "plus" [expr_node l; expr_node r] |}.
Definition minus (l r : Expr) : Expr :=
  {| expr_node := FunctionCallNode "minus" [expr_node l; expr_node r] |}.
Definition modulo (l r : Expr) : Expr :=
  {| expr_node := FunctionCallNode "modulo" [expr_node l; expr_node r] |}.
Definition abs (e : Expr) : Expr :=
  {| expr_node := FunctionCallNode "abs" [expr_node e] |}.

Definition lower (e : Expr) : Expr :=
  {| expr_node := FunctionCallNode "lower" [expr_node e] |}.
Definition upper (e : Expr) : Expr :=
  {| expr_node := FunctionCallNode "upper" [expr_node e] |}.
Definition concat (args : list Expr) : Expr :=
  {| expr_node := FunctionCallNode "concat" (expr_node <$> args) |}.

(** [substring(expr, offset, length?)]: the length is pushed when it is
    not [undefined]. *)
Definition substring (e : Expr) (offset : ExprArg) (length : option ExprArg) : Expr :=
  {| expr_node :=
       FunctionCallNode "substring"
         ([expr_node e; toNode offset] ++
          match length with Some l => [toNode l] | None => [] end) |}.

Definition trimStr (e : Expr) : Expr :=
  {| expr_node := FunctionCallNode "trim" [expr_node e] |}.
Definition strLength (e : Expr) : Expr :=
  {| expr_node := FunctionCallNode "length" [expr_node e] |}.
Definition replaceAll (haystack : Expr) (needle replacement : ExprArg) : Expr :=
  {| expr_node :=
       FunctionCallNode "replaceAll"
         [expr_node haystack; toNode needle; toNode replacement] |}.
Definition splitByChar (separator : ExprArg) (str : Expr) : Expr :=
  {| expr_node := FunctionCallNode "splitByChar" [toNode separator; expr_node str] |}.
Definition hex (e : Expr) : Expr :=
  {| expr_node := FunctionCallNode "hex" [expr_node e] |}.

Definition toUInt256 (e : Expr) : Expr :=
  {| expr_node := FunctionCallNode "toUInt256" [expr_node e] |}.
Definition toUInt64 (e : Expr) : Expr :=
  {| expr_node := FunctionCallNode "toUInt64" [expr_node e] |}.
Definition toInt256 (e : Expr) : Expr :=
  {| expr_node := FunctionCallNode "toInt256" [expr_node e] |}.
Definition toStr (e : Expr) : Expr :=
  {| expr_node := FunctionCallNode "toString" [expr_node e] |}.

Definition toStartOfHour (e : Expr) : Expr :=
  {| expr_node := FunctionCallNode "toStartOfHour" [expr_node e] |}.
Definition toStartOfDay (e : Expr) : Expr :=
  {| expr_node := FunctionCallNode "toStartOfDay" [expr_node e] |}.
Definition toStartOfMonth (e : Expr) : Expr :=
  {| expr_node := FunctionCallNode "toStartOfMonth" [expr_node e] |}.
Definition toDate (e : Expr) : Expr :=
  {| expr_node := FunctionCallNode "toDate" [expr_node e] |}.
Definition toDateTime (e : Expr) : Expr :=
  {| expr_node := FunctionCallNode "toDateTime" [expr_node e] |}.
Definition now : Expr :=
  {| expr_node := FunctionCallNode "now" [] |}.

(** ['second' | 'minute' | 'hour' | 'day' | 'week' | 'month' | 'year'] *)
Inductive DateUnit : Type :=
  | Second | Minute | Hour | Day | Week | Month | Year.

Definition DateUnit_text (u : DateUnit) : string :=
  match u with
  | Second => "second" | Minute => "minute" | Hour => "hour" | Day => "day"
  | Week => "week" | Month => "month" | Year => "year"
  end.

(** [dateDiff(unit, start, end)]: the unit is a string value. *)
Definition dateDiff (unit : DateUnit) (start_ end_ : Expr) : Expr :=
  {| expr_node :=
       FunctionCallNode "dateDiff"
         [ValueNode (JsString (DateUnit_text unit)); expr_node start_;
          expr_node end_] |}.

(** [index(expr, n)]: [expr[n]] *)
Definition index (e : Expr) (n : Z) : Expr :=
  {| expr_node := ArrayIndexNode (expr_node e) n |}.

End ExpressionBuilder.

(** ** builder/select-query-builder.ts *)

Definition parseTableRef (str : string) : string * string :=
  match match_as str with
  | Some (g1, g2) => (js_trim g1, js_trim g2)
  | None => (js_trim str, js_trim str)
  end.

(** What a successful match tells about the input: the first group is a
    proper prefix.  [parseColumnRef] recurses on it. *)

Lemma re_star_lazy_inv {R} P s acc (k : string → string → option R) x :
  re_star_lazy P s acc k = Some x →
  ∃ a r, s = a +:+ r ∧ k (acc +:+ a) r = Some x.
Proof.
  revert acc; induction s as [|c s IH]; intros acc; cbn [re_star_lazy].
  - destruct (k acc "") eqn:E; [|done]. intros [= <-].
    exists "", "". split; [done|]. by rewrite Str.app_nil_r.
  - destruct (k acc (String c s)) eqn:E.
    + intros [= <-]. exists "", (String c s). split; [done|].
      by rewrite Str.app_nil_r.
    + destruct (P c); [|done]. intros (a & r & -> & Hk)%IH.
      exists (String c a), r. split; [done|].
      by rewrite <-Str.app_assoc in Hk.
Qed.

Lemma re_star_greedy_inv {R} P s acc (k : string → string → option R) x :
  re_star_greedy P s acc k = Some x →
  ∃ a r, s = a +:+ r ∧ k (acc +:+ a) r = Some x.
Proof.
  revert acc; induction s as [|c s IH]; intros acc; cbn [re_star_greedy].
  - intros Hk. exists "", "". split; [done|]. by rewrite Str.app_nil_r.
  - assert (k acc (String c s) = Some x →
            ∃ a r, String c s = a +:+ r ∧ k (acc +:+ a) r = Some x) as Hstop.
    { intros Hk. exists "", (String c s). split; [done|].
      by rewrite Str.app_nil_r. }
    destruct (P c); [|done].
    destruct (re_star_greedy P s (acc +:+ String c "") k) as [y|] eqn:E;
      [|done].
    intros [= <-]. apply IH in E as (a & r & -> & Hk).
    exists (String c a), r. split; [done|].
    by rewrite <-Str.app_assoc in Hk.
Qed.

Lemma re_plus_inv {R} P s (k : string → string → option R) x :
  re_plus_lazy P s k = Some x ∨ re_plus_greedy P s k = Some x →
  ∃ a r, s = a +:+ r ∧ a ≠ "" ∧ k a r = Some x.
Proof.
  destruct s as [|c s]; cbn [re_plus_lazy re_plus_greedy]; [by intros []|].
  destruct (P c); [|by intros []].
  intros [(a & r & -> & Hk)%re_star_lazy_inv
         |(a & r & -> & Hk)%re_star_greedy_inv];
    by exists (String c a), r.
Qed.

Lemma match_as_length (str g1 g2 : string) :
  match_as str = Some (g1, g2) → String.length g1 < String.length str.
Proof.
  unfold match_as.
  intros (a & r1 & -> & _ & H)%(λ H, re_plus_inv _ _ _ _ (or_introl H)).
  apply (λ H, re_plus_inv _ _ _ _ (or_intror H)) in H
    as (a2 & r2 & -> & Ha2 & H).
  assert (a = g1) as ->.
  { clear Ha2. revert H. generalize "as". intros lit. revert r2.
    induction lit as [|l lit IH]; intros r2; cbn [re_literal_i].
    - intros (? & ? & _ & _ & H)%(λ H, re_plus_inv _ _ _ _ (or_intror H)).
      apply (λ H, re_plus_inv _ _ _ _ (or_intror H)) in H
        as (? & ? & _ & _ & H).
      destruct (String.eqb _ ""); by simplify_eq.
    - destruct r2 as [|c r2]; [done|].
      destruct (Ascii.eqb _ _); [apply IH|done]. }
  rewrite !Str.length_app. destruct a2; [done|]. cbn. lia.
Qed.

Lemma drop_while_length P s : String.length (drop_while P s) ≤ String.length s.
Proof.
  induction s as [|c s IH]; cbn; [done|]. destruct (P c); cbn; lia.
Qed.

Lemma drop_end_while_length P s :
  String.length (drop_end_while P s) ≤ String.length s.
Proof.
  induction s as [|c s IH]; cbn; [done|].
  destruct (drop_end_while P s); [destruct (P c)|]; cbn in *; lia.
Qed.

Lemma js_trim_length s : String.length (js_trim s) ≤ String.length s.
Proof.
  unfold js_trim. etrans; [apply drop_while_length|apply drop_end_while_length].
Qed.

(** [parseColumnRef]: ["col"], ["table.col"], and either with [as alias]. *)
Equations? parseColumnRef (str : string) : AstNode
    by wf (String.length str) lt :=
  parseColumnRef str with inspect (match_as str) => {
    | exist _ (Some (g1, g2)) _ :=
        AliasNode (parseColumnRef (js_trim g1)) (js_trim g2);
    | exist _ None _ with cut "." str => {
        | Some (String c t, name) := ColumnNode (Some (String c t)) name;
        | _ := ColumnNode None str } }.
Proof.
  apply match_as_length in e. pose proof (js_trim_length g1). lia.
Qed.

Definition createSelectNode (table : string) : SelectQueryNode :=
  let '(name, alias) := parseTableRef table in
  MkSelectQuery [] false []
    {| table_name := name;
       table_alias := if String.eqb alias name then None else Some alias |}
    [] [] [] [] [] None.

(** [{ ...node, ctes }] *)
Definition with_ctes (q : SelectQueryNode) (ctes : list CteNode) : SelectQueryNode :=
  match q with
  | MkSelectQuery _ d s f j w g h o l => MkSelectQuery ctes d s f j w g h o l
  end.

(** [class SelectQueryBuilder]: the private [#node], read by [$node]. *)
Record SelectQueryBuilder := { node : SelectQueryNode }.

(** The argument of [select]: a column string, a list of them, an aliased
    expression, or the list that a callback returns. *)
Inductive SelectArg : Type :=
  | SelectColumn (column : string)
  | SelectColumns (columns : list string)
  | SelectAliased (e : AliasedExpr)
  | SelectCallback (exprs : list AliasedExpr).

(** The argument of [where] and [having]: column, operator and value, or
    the expression that a callback returns. *)
Inductive ConditionArg : Type :=
  | ConditionColumn (column op : string) (value : JsValue)
  | ConditionCallback (e : Expr).

(** The argument of [groupBy]. *)
Inductive GroupByArg : Type :=
  | GroupByColumn (column : string)
  | GroupByColumns (columns : list string)
  | GroupByCallback (exprs : list Expr).

Module SelectQueryBuilder.

Definition select (b : SelectQueryBuilder) (arg : SelectArg) : SelectQueryBuilder :=
  let newSelections :=
    match arg with
    | SelectCallback exprs => aliased_node <$> exprs
    | SelectAliased e => [aliased_node e]
    | SelectColumns columns => parseColumnRef <$> columns
    | SelectColumn column => [parseColumnRef column]
    end in
  match node b with
  | MkSelectQuery c d s f j w g h o l =>
      {| node := MkSelectQuery c d (s ++ newSelections) f j w g h o l |}
  end.

Definition selectAll (b : SelectQueryBuilder) : SelectQueryBuilder :=
  match node b with
  | MkSelectQuery c d _ f j w g h o l =>
      {| node := MkSelectQuery c d [StarNode None] f j w g h o l |}
  end.

Definition distinct (b : SelectQueryBuilder) : SelectQueryBuilder :=
  match node b with
  | MkSelectQuery c _ s f j w g h o l =>
      {| node := MkSelectQuery c true s f j w g h o l |}
  end.

Definition condition_node (arg : ConditionArg) : AstNode :=
  match arg with
  | ConditionCallback e => expr_node e
  | ConditionColumn column op value =>
      BinaryOpNode (parseColumnRef column) op (ValueNode value)
  end.

Definition where_ (b : SelectQueryBuilder) (arg : ConditionArg)
    : SelectQueryBuilder :=
  match node b with
  | MkSelectQuery c d s f j w g h o l =>
      {| node := MkSelectQuery c d s f j (w ++ [condition_node arg]) g h o l |}
  end.

Definition addJoin (b : SelectQueryBuilder) (type : JoinType)
    (tableStr leftCol op rightCol : string) : SelectQueryBuilder :=
  let '(name, alias) := parseTableRef tableStr in
  let joinNode :=
    MkJoin type
      {| table_name := name;
         table_alias := if String.eqb alias name then None else Some alias |}
      (Some (BinaryOpNode (parseColumnRef leftCol) op (parseColumnRef rightCol))) in
  match node b with
  | MkSelectQuery c d s f j w g h o l =>
      {| node := MkSelectQuery c d s f (j ++ [joinNode]) w g h o l |}
  end.

Definition innerJoin b := addJoin b INNER.
Definition leftJoin b := addJoin b LEFT.
Definition rightJoin b := addJoin b RIGHT.
Definition fullJoin b := addJoin b FULL.

Definition groupBy (b : SelectQueryBuilder) (arg : GroupByArg)
    : SelectQueryBuilder :=
  let nodes :=
    match arg with
    | GroupByCallback exprs => expr_node <$> exprs
    | GroupByColumns columns => parseColumnRef <$> columns
    | GroupByColumn column => [parseColumnRef column]
    end in
  match node b with
  | MkSelectQuery c d s f j w g h o l =>
      {| node := MkSelectQuery c d s f j w (g ++ nodes) h o l |}
  end.

Definition having (b : SelectQueryBuilder) (arg : ConditionArg)
    : SelectQueryBuilder :=
  match node b with
  | MkSelectQuery c d s f j w g h o l =>
      {| node := MkSelectQuery c d s f j w g (h ++ [condition_node arg]) o l |}
  end.

(** [direction?.toUpperCase()]: the four spellings are the two
    directions. *)
Definition orderBy (b : SelectQueryBuilder) (column : string)
    (direction : option Direction) : SelectQueryBuilder :=
  let item := MkOrderByItem (parseColumnRef column) direction in
  match node b with
  | MkSelectQuery c d s f j w g h o l =>
      {| node := MkSelectQuery c d s f j w g h (o ++ [item]) l |}
  end.

Definition limit (b : SelectQueryBuilder) (count : Z) : SelectQueryBuilder :=
  match node b with
  | MkSelectQuery c d s f j w g h o _ =>
      {| node := MkSelectQuery c d s f j w g h o (Some count) |}
  end.

(** [compile().sql] *)
Definition compile (b : SelectQueryBuilder) : string := compileQuery (node b).

End SelectQueryBuilder.

(** ** builder/cdp.ts *)

(** [class CdpQueryCreator]: the private [#ctes]. *)
Record CdpQueryCreator := { creator_ctes : list CteNode }.

Module CdpQueryCreator.

Definition selectFrom (this : CdpQueryCreator) (table : string)
    : SelectQueryBuilder :=
  {| node := with_ctes (createSelectNode table) (creator_ctes this) |}.

Definition selectFromAliased (this : CdpQueryCreator) (table alias : string)
    : SelectQueryBuilder :=
  {| node := with_ctes (createSelectNode (table +:+ " as " +:+ alias))
               (creator_ctes this) |}.

Definition with_ (this : CdpQueryCreator) (name : string)
    (callback : CdpQueryCreator → SelectQueryBuilder) : CdpQueryCreator :=
  let innerQb := {| creator_ctes := [] |} in
  let builder := callback innerQb in
  let cteNode := MkCte name (with_ctes (node builder) []) in
  {| creator_ctes := creator_ctes this ++ [cteNode] |}.

End CdpQueryCreator.

(** [export const cdp = new CdpQueryCreator()] *)
Definition cdp : CdpQueryCreator := {| creator_ctes := [] |}.

(** [makeCdpQueryCreator({ abi })]: the interface description only narrows
    the phantom type; the creator is a fresh one. *)
Definition makeCdpQueryCreator (abi : Abi) : CdpQueryCreator :=
  {| creator_ctes := [] |}.

Example compile_cte_test :
  SelectQueryBuilder.compile
    (SelectQueryBuilder.selectAll
       (CdpQueryCreator.selectFrom
          (CdpQueryCreator.with_ cdp "recent" (λ qb,
             SelectQueryBuilder.limit
               (SelectQueryBuilder.selectAll
                  (CdpQueryCreator.selectFrom qb "base.blocks")) 10))
          "recent"))
  = "WITH recent AS (SELECT * FROM base.blocks LIMIT 10) SELECT * FROM recent".
Proof. vm_compute. reflexivity. Qed.

Example compile_where_or_test :
  SelectQueryBuilder.compile
    (SelectQueryBuilder.where_
       (SelectQueryBuilder.selectAll
          (CdpQueryCreator.selectFromAliased cdp "base.events" "e"))
       (ConditionCallback (ExpressionBuilder.or
          [ExpressionBuilder.eq (ExpressionBuilder.col "address") (ArgString "0x1234");
           ExpressionBuilder.eq (ExpressionBuilder.col "address") (ArgString "0x5678")])))
  = "SELECT * FROM base.events AS e WHERE (address = '0x1234' OR address = '0x5678')".
Proof. vm_compute. reflexivity. Qed.

(** ** builder/schema.ts *)

(** The runtime schema objects: column name to SQL type descriptor. *)
Definition blocksSchema : gmap string string := list_to_map
  [ ("block_number", "uint64"); ("block_hash", "Hex"); ("parent_hash", "Hex");
    ("timestamp", "DateTime"); ("miner", "Hex"); ("nonce", "uint64");
    ("sha3_uncles", "Hex"); ("transactions_root", "Hex"); ("state_root", "Hex");
    ("receipts_root", "Hex"); ("logs_bloom", "Hex"); ("gas_limit", "uint64");
    ("gas_used", "uint64"); ("base_fee_per_gas", "uint64");
    ("total_difficulty", "String"); ("size", "uint64"); ("extra_data", "Hex");
    ("mix_hash", "Hex"); ("withdrawals_root", "Hex");
    ("parent_beacon_block_root", "Hex"); ("blob_gas_used", "uint64");
    ("excess_blob_gas", "uint64"); ("transaction_count", "uint64");
    ("action", "Int8") ].

Definition eventsSchema : gmap string string := list_to_map
  [ ("block_number", "uint64"); ("block_hash", "Hex");
    ("timestamp", "DateTime64(9)"); ("transaction_hash", "Hex");
    ("transaction_to", "Hex"); ("transaction_from", "Hex");
    ("transaction_index", "uint64"); ("log_index", "uint64"); ("address", "Hex");
    ("topics", "Array(Hex)"); ("event_name", "String");
    ("event_signature", "String");
    ("parameters", "Map(String, Variant(Bool, Int256, String, uint256))");
    ("parameter_types", "Map(String, String)"); ("action", "Int8") ].

Definition transactionsSchema : gmap string string := list_to_map
  [ ("block_number", "uint64"); ("block_hash", "Hex"); ("transaction_hash", "Hex");
    ("transaction_index", "uint64"); ("from_address", "Hex"); ("to_address", "Hex");
    ("value", "String"); ("gas", "uint64"); ("gas_price", "uint64");
    ("input", "Hex"); ("nonce", "uint64"); ("type", "uint64");
    ("max_fee_per_gas", "uint64"); ("max_priority_fee_per_gas", "uint64");
    ("chain_id", "uint64"); ("v", "Hex"); ("r", "Hex"); ("s", "Hex");
    ("is_system_tx", "Bool"); ("max_fee_per_blob_gas", "String");
    ("blob_versioned_hashes", "Array(Hex)"); ("timestamp", "DateTime64(9)");
    ("action", "Int8") ].

Definition encodedLogsSchema : gmap string string := list_to_map
  [ ("block_number", "uint64"); ("block_hash", "Hex");
    ("block_timestamp", "DateTime64(9)"); ("transaction_hash", "Hex");
    ("transaction_to", "Hex"); ("transaction_from", "Hex");
    ("log_index", "uint32"); ("address", "Hex"); ("topics", "Array(Hex)");
    ("action", "Int8") ].

Definition transfersSchema : gmap string string := list_to_map
  [ ("block_number", "uint64"); ("block_timestamp", "DateTime64(9)");
    ("transaction_to", "Hex"); ("transaction_from", "Hex");
    ("log_index", "uint32"); ("token_address", "Hex"); ("from_address", "Hex");
    ("to_address", "Hex"); ("value", "uint256"); ("action", "Int8") ].

(** [cdpSchemas]: table name to schema object. *)
Definition cdpSchemas : gmap string (gmap string string) := list_to_map
  [ ("base.blocks", blocksSchema); ("base.events", eventsSchema);
    ("base.transactions", transactionsSchema);
    ("base.encoded_logs", encodedLogsSchema);
    ("base.transfers", transfersSchema);
    ("blocks", blocksSchema); ("events", eventsSchema);
    ("transactions", transactionsSchema);
    ("encoded_logs", encodedLogsSchema); ("transfers", transfersSchema) ].

(** A row type: property name to the type of the property.  Property
    modifiers are not part of it: [as const] makes the properties of the
    schema objects [readonly] and the homomorphic [MapSchema] keeps that,
    which a lookup of a property type does not see. *)
Abbreviation Row := (gmap string TsType).

(** A database type: table name to row type. *)
Abbreviation Database := (gmap string Row).

(** [MapSchema<S> = { [K in keyof S]: MapSqlType<Lowercase<S[K] & string>> }] *)
Definition MapSchema (S : gmap string string) : Row :=
  (λ t, MapSqlType (Lowercase t)) <$> S.

(** [CdpDatabase = { [K in keyof typeof cdpSchemas]: MapSchema<...> }] *)
Definition CdpDatabase : Database := MapSchema <$> cdpSchemas.

(** [CdpTableName = keyof CdpDatabase] *)
Definition CdpTableName : gset string := dom CdpDatabase.

(** ** builder/types.ts: the types of selections *)

(** [CastType<T> = MapSqlType<Lowercase<T>>] *)
Definition CastType (T : string) : TsType := MapSqlType (Lowercase T).

(** [ParseTableAlias<S>] *)
Definition ParseTableAlias (S : string) : string * string :=
  match cut " as " S with
  | Some (table, alias) => (table, alias)
  | None => (S, S)
  end.

(** [Nullable<T> = { [K in keyof T]: T[K] | null }] *)
Definition Nullable (T : Row) : Row := (λ t, ts_union t TNull) <$> T.

(** The tables in scope [TB], a union of keys of [DB], as the list of its
    members. *)

(** [AnyColumn<DB, TB>]: the column names of the tables in scope. *)
Definition AnyColumn (DB : Database) (TB : list string) : gset string :=
  ⋃ ((λ T, dom (default ∅ (DB !! T))) <$> TB).

(** [{ [T in TB]: K extends keyof DB[T] ? DB[T][K] : never }[TB]] *)
Definition MergedColumn (DB : Database) (TB : list string) (K : string) : TsType :=
  foldr ts_union TNever (omap (λ T, DB !! T ≫= (.!! K)) TB).

(** [MergedColumns<DB, TB>] *)
Definition MergedColumns (DB : Database) (TB : list string) : Row :=
  list_to_map ((λ K, (K, MergedColumn DB TB K)) <$> elements (AnyColumn DB TB)).

(** [SelectionResult<DB, TB, S>]: an object type of one property, or the
    empty object type; here the list of its properties. *)
Definition SelectionResult (DB : Database) (TB : list string) (S : string)
    : list (string * TsType) :=
  match cut " as " S with
  | Some (Col, Alias) =>
      match MergedColumns DB TB !! Col with
      | Some ty => [(Alias, ty)]
      | None => [(Alias, TUnknown)]
      end
  | None =>
      match cut "." S with
      | Some (T, Col) =>
          if bool_decide (T ∈ TB) then
            match DB !! T ≫= (.!! Col) with
            | Some ty => [(Col, ty)]
            | None => []
            end
          else []
      | None =>
          match MergedColumns DB TB !! S with
          | Some ty => [(S, ty)]
          | None => []
          end
      end
  end.

(** [SelectionsResult<DB, TB, S>]: the intersection of the results of the
    strings of the tuple [S], as the list of its members. *)
Definition SelectionsResult (DB : Database) (TB : list string) (S : list string)
    : list (string * TsType) :=
  S ≫= SelectionResult DB TB.

(** ** Normalization (normalize.ts, utils.ts) *)

Lemma all_chars_app P a b :
  all_chars P (a +:+ b) = all_chars P a && all_chars P b.
Proof. induction a as [|c a IH]; cbn; [done|]. by rewrite IH, andb_assoc. Qed.

(** What the three passes of [Normalize] establish. *)
Definition lowered (s : string) : Prop :=
  all_chars (λ c, Ascii.eqb (lower_char c) c) s = true.

Definition collapsed (s : string) : Prop :=
  cut (String LF "") s = None ∧ cut (String CR "") s = None ∧
  cut (String TAB "") s = None ∧ cut "  " s = None.

Definition trimmed (s : string) : Prop :=
  TrimStart s = s ∧ TrimEnd s = s.

Lemma CollapseWhitespace_eq s :
  CollapseWhitespace s =
    match cut (String LF "") s with
    | Some (a, b) => CollapseWhitespace (a +:+ " " +:+ b)
    | None =>
    match cut (String CR "") s with
    | Some (a, b) => CollapseWhitespace (a +:+ " " +:+ b)
    | None =>
    match cut (String TAB "") s with
    | Some (a, b) => CollapseWhitespace (a +:+ " " +:+ b)
    | None =>
    match cut "  " s with
    | Some (a, b) => CollapseWhitespace (a +:+ " " +:+ b)
    | None => s
    end end end end.
Proof.
  funelim (CollapseWhitespace s);
    repeat match goal with H : cut _ s = _ |- _ => rewrite H end;
    done.
Qed.

Lemma lower_char_idemp c : lower_char (lower_char c) = lower_char c.
Proof. by destruct c as [[] [] [] [] [] [] [] []]. Qed.

Lemma lowered_Lowercase s : lowered (Lowercase s).
Proof.
  unfold lowered. induction s as [|c s IH]; cbn; [done|].
  rewrite IH, lower_char_idemp, Ascii.eqb_refl. done.
Qed.

Lemma Lowercase_lowered s : lowered s → Lowercase s = s.
Proof.
  unfold lowered. induction s as [|c s IH]; cbn; [done|].
  intros [Hc Hs]%andb_true_iff. apply Ascii.eqb_eq in Hc.
  by rewrite Hc, IH.
Qed.

Lemma lowered_app a b : lowered (a +:+ b) ↔ lowered a ∧ lowered b.
Proof. unfold lowered. rewrite all_chars_app. apply andb_true_iff. Qed.

Lemma lowered_CollapseWhitespace s : lowered s → lowered (CollapseWhitespace s).
Proof.
  funelim (CollapseWhitespace s); try done.
  all: intros Hs; apply H.
  all: match goal with E : cut _ _ = Some _ |- _ =>
         rewrite (cut_Some _ _ _ _ E) in Hs end.
  all: apply lowered_app in Hs as [Ha [_ Hb]%lowered_app].
  all: apply lowered_app; split; [done|]; by apply lowered_app.
Qed.

Lemma collapsed_CollapseWhitespace s : collapsed (CollapseWhitespace s).
Proof. funelim (CollapseWhitespace s); try done. Qed.

Lemma CollapseWhitespace_collapsed s : collapsed s → CollapseWhitespace s = s.
Proof.
  intros (H1 & H2 & H3 & H4).
  by rewrite CollapseWhitespace_eq, H1, H2, H3, H4.
Qed.

Lemma collapsed_app a b : collapsed (a +:+ b) → collapsed a ∧ collapsed b.
Proof.
  intros (H1 & H2 & H3 & H4).
  apply cut_app_None in H1 as [??], H2 as [??], H3 as [??], H4 as [??].
  by repeat split.
Qed.

Lemma TrimStart_idemp s : TrimStart (TrimStart s) = TrimStart s.
Proof.
  induction s as [|c s IH]; cbn; [done|].
  destruct (WhitespaceChar c) eqn:E; [done|]. cbn. by rewrite E.
Qed.

Lemma TrimEnd_length s : String.length (TrimEnd s) ≤ String.length s.
Proof.
  destruct (TrimEnd_prefix s) as [w H]. rewrite H at 2.
  rewrite Str.length_app. lia.
Qed.

Lemma TrimEnd_fixed s :
  TrimEnd s = s ↔
  match unsnoc s with Some (_, c) => WhitespaceChar c = false | None => True end.
Proof.
  rewrite TrimEnd_eq. destruct (unsnoc s) as [[r c]|] eqn:E; [|done].
  destruct (WhitespaceChar c); [|done]. split; [|done].
  intros H. pose proof (TrimEnd_length r) as Hl. rewrite H in Hl.
  apply unsnoc_Some in E as ->. rewrite Str.length_app in Hl. cbn in Hl. lia.
Qed.

Lemma TrimEnd_idemp s : TrimEnd (TrimEnd s) = TrimEnd s.
Proof.
  funelim (TrimEnd s); drop_inspect; [| done |].
  - apply TrimEnd_fixed. by rewrite e.
  - apply TrimEnd_fixed. by rewrite e.
Qed.

Lemma TrimEnd_TrimStart t : TrimEnd t = t → TrimEnd (TrimStart t) = TrimStart t.
Proof.
  rewrite !TrimEnd_fixed. intros Ht.
  destruct (unsnoc (TrimStart t)) as [[r c]|] eqn:E; [|done].
  apply unsnoc_Some in E. destruct (TrimStart_suffix t) as [w Hw].
  rewrite E, Str.app_assoc in Hw.
  by rewrite Hw, unsnoc_app in Ht.
Qed.

Lemma trimmed_Trim s : trimmed (Trim s).
Proof.
  split; unfold Trim.
  - apply TrimStart_idemp.
  - apply TrimEnd_TrimStart, TrimEnd_idemp.
Qed.

Lemma Trim_trimmed s : trimmed s → Trim s = s.
Proof. intros [H1 H2]. unfold Trim. by rewrite H2. Qed.

(** The shape of a normalized string before the semicolon is looked at. *)
Definition normal (s : string) : Prop := lowered s ∧ collapsed s ∧ trimmed s.

Lemma lowered_infix u m w : lowered (u +:+ m +:+ w) → lowered m.
Proof. by intros [_ [? _]%lowered_app]%lowered_app. Qed.

Lemma collapsed_infix u m w : collapsed (u +:+ m +:+ w) → collapsed m.
Proof. by intros [_ [? _]%collapsed_app]%collapsed_app. Qed.

Lemma normal_Trim s : lowered s → collapsed s → normal (Trim s).
Proof.
  intros Hl Hc. destruct (Trim_infix s) as (u & w & H).
  rewrite H in Hl, Hc. split; [|split].
  - by eapply lowered_infix.
  - by eapply collapsed_infix.
  - apply trimmed_Trim.
Qed.

Lemma normal_StripSemicolon s : normal s → normal (StripSemicolon s).
Proof.
  intros (Hl & Hc & Ht). unfold StripSemicolon.
  destruct (strip_suffix ";" s) as [r|] eqn:E; [|done].
  apply strip_suffix_Some in E as ->.
  apply lowered_app in Hl as [Hl _]. apply collapsed_app in Hc as [Hc _].
  by apply normal_Trim.
Qed.

Lemma normal_Normalize s : normal (Normalize s).
Proof.
  apply normal_StripSemicolon, normal_Trim.
  - apply lowered_CollapseWhitespace, lowered_Lowercase.
  - apply collapsed_CollapseWhitespace.
Qed.

Lemma Normalize_normal s : normal s → Normalize s = StripSemicolon s.
Proof.
  intros (Hl & Hc & Ht). unfold Normalize.
  by rewrite Lowercase_lowered, CollapseWhitespace_collapsed, Trim_trimmed.
Qed.

Lemma StripSemicolon_fixed s :
  StripSemicolon s = s ↔ strip_suffix ";" s = None.
Proof.
  unfold StripSemicolon. destruct (strip_suffix ";" s) as [r|] eqn:E; [|done].
  split; [|done]. intros H. pose proof (Trim_length r) as Hl.
  rewrite H in Hl. apply strip_suffix_Some in E as ->.
  rewrite Str.length_app in Hl. cbn in Hl. lia.
Qed.

(** C8, as stated: normalizing twice is normalizing once.  It fails on an
    input with two trailing semicolons: [StripSemicolon] removes one
    semicolon per pass, so the first pass leaves ["a;"] and the second
    one ["a"]. *)
Lemma Normalize_not_idempotent :
  ¬ (∀ s, Normalize (Normalize s) = Normalize s).
Proof. intros H. specialize (H "a;;"). vm_compute in H. discriminate. Qed.

(** C8, amended: a second normalization changes nothing exactly when the
    first one did not leave a semicolon at the end of the text. *)
Theorem Normalize_idempotent_iff (s : string) :
  Normalize (Normalize s) = Normalize s ↔ strip_suffix ";" (Normalize s) = None.
Proof.
  rewrite (Normalize_normal (Normalize s)) by apply normal_Normalize.
  apply StripSemicolon_fixed.
Qed.

(** ** Select items (parse-select.ts) *)

Lemma cut_single_first (c : ascii) (q col : string) :
  cut (String c "") q = None →
  cut (String c "") (q +:+ String c col) = Some (q, col).
Proof.
  induction q as [|x q IH]; cbn [String.append cut strip_prefix].
  - by rewrite Ascii.eqb_refl.
  - destruct (Ascii.eqb c x); [done|].
    destruct (cut (String c "") q) as [[??]|] eqn:E; [done|].
    intros _. by rewrite IH.
Qed.

(** C6 on the code: a cast that carries no alias of its own is split at
    the [as] inside its parentheses, and the type name with the closing
    parenthesis becomes the alias. *)
Lemma ParseSingleItem_unaliased_cast :
  ParseSingleItem "cast(value as uint64)"
    = {| expr := "cast(value"; alias := "uint64)" |} ∧
  result (TypedQuery "SELECT CAST(value AS uint64) FROM base.transfers")
    = Intersection [("uint64)", TUnknown)].
Proof. vm_compute. split; reflexivity. Qed.

(** With an alias after the cast, the last [as] is the one chosen. *)
Lemma ParseSingleItem_aliased_cast :
  ParseSingleItem "cast(value as uint64) as val"
  = {| expr := "cast(value as uint64)"; alias := "val" |}.
Proof. vm_compute. reflexivity. Qed.

(** The default alias in the words of the specification: a leading
    qualifier is stripped if there is one; otherwise the text is its own
    alias, kept verbatim when it has a bracket or a parenthesis, and as
    the bare column name when it has none. *)
Definition InferDefaultAlias_spec (s : string) : string :=
  match cut "." s with
  | Some (_, col) => col
  | None => s
  end.

(** C7, as stated, fails on a qualified map access: the code looks for a
    bracket first and keeps the whole text. *)
Lemma InferDefaultAlias_qualified_map :
  cut " as " (Trim "e.parameters['from']") = None ∧
  alias (ParseSingleItem "e.parameters['from']") = "e.parameters['from']" ∧
  InferDefaultAlias_spec (Trim "e.parameters['from']") = "parameters['from']" ∧
  alias (ParseSingleItem "e.parameters['from']")
    ≠ InferDefaultAlias_spec (Trim "e.parameters['from']").
Proof. vm_compute. repeat split; discriminate. Qed.

(** C7, amended: for an item without [ as ], an expression with a bracket
    or a parenthesis is its own alias, qualified or not; otherwise the text
    up to the first dot is dropped; otherwise the column is its own
    alias. *)
Theorem ParseSingleItem_default_alias (s : string) :
  cut " as " (Trim s) = None →
  expr (ParseSingleItem s) = Trim s ∧
  (contains "[" (Trim s) = true ∨ contains "(" (Trim s) = true →
     alias (ParseSingleItem s) = Trim s) ∧
  (contains "[" (Trim s) = false → contains "(" (Trim s) = false →
     (∀ q col, Trim s = q +:+ "." +:+ col → contains "." q = false →
        alias (ParseSingleItem s) = col) ∧
     (contains "." (Trim s) = false → alias (ParseSingleItem s) = Trim s)).
Proof.
  intros Hno. unfold ParseSingleItem. rewrite Hno. cbn [expr alias].
  unfold InferDefaultAlias. split; [done|]. split.
  - intros [-> | H]; [done|]. rewrite H. by destruct (contains "[" _).
  - intros -> ->. split.
    + intros q col -> Hq%contains_false.
      change (q +:+ "." +:+ col) with (q +:+ String "."%char col).
      by rewrite (cut_single_first "." q col Hq).
    + by intros ->%contains_false.
Qed.

Lemma ParseSingleItem_default_alias_witness :
  (expr (ParseSingleItem " t.block_number ") = "t.block_number" ∧
   alias (ParseSingleItem " t.block_number ") = "block_number") ∧
  alias (ParseSingleItem "e.parameters['from']") = "e.parameters['from']".
Proof.
  split.
  - destruct (ParseSingleItem_default_alias " t.block_number ")
      as (He & _ & Hq); [vm_compute; reflexivity|].
    split; [exact He|].
    destruct Hq as [Hq _]; [vm_compute; reflexivity..|].
    apply (Hq "t" "block_number"); vm_compute; reflexivity.
  - destruct (ParseSingleItem_default_alias "e.parameters['from']")
      as (_ & Hb & _); [vm_compute; reflexivity|].
    rewrite Hb; [vm_compute; reflexivity|].
    left. vm_compute. reflexivity.
Defined.

(** ** Schemas, expressions and rows (resolve.ts, parse-expressions.ts,
       index.ts) *)

Lemma MergeSchemas_lookup (A B : Schema) (k : string) :
  MergeSchemas A B !! k =
    match A !! k, B !! k with
    | Some x, Some y => Some (x ∪ y)
    | Some x, None => Some x
    | None, Some y => Some y
    | None, None => None
    end.
Proof.
  unfold MergeSchemas. rewrite lookup_merge.
  by destruct (A !! k), (B !! k).
Qed.

(** C3: the merged schema has the columns of either schema; a column of
    one schema keeps its type, a column of both gets the union of the two
    types; merging [A] with [B] and [B] with [A] give the same
    (name, type) pairs. *)
Theorem MergeSchemas_join (A B : Schema) :
  dom (MergeSchemas A B) = dom A ∪ dom B ∧
  (∀ k x, A !! k = Some x → B !! k = None → MergeSchemas A B !! k = Some x) ∧
  (∀ k y, A !! k = None → B !! k = Some y → MergeSchemas A B !! k = Some y) ∧
  (∀ k x y, A !! k = Some x → B !! k = Some y →
     MergeSchemas A B !! k = Some (x ∪ y)) ∧
  (∀ k t, MergeSchemas A B !! k = Some t ↔ MergeSchemas B A !! k = Some t) ∧
  MergeSchemas A B = MergeSchemas B A.
Proof.
  assert (MergeSchemas A B = MergeSchemas B A) as Hcomm.
  { apply map_eq. intros k. rewrite !MergeSchemas_lookup.
    destruct (A !! k), (B !! k); try done. f_equal. apply (comm_L (∪)). }
  split; [|split; [|split; [|split; [|split]]]].
  - apply set_eq. intros k. rewrite elem_of_union, !elem_of_dom.
    rewrite MergeSchemas_lookup.
    destruct (A !! k), (B !! k); split; eauto;
      intros H; repeat destruct H as [H|H]; by apply is_Some_None in H.
  - intros k x Ha Hb. by rewrite MergeSchemas_lookup, Ha, Hb.
  - intros k y Ha Hb. by rewrite MergeSchemas_lookup, Ha, Hb.
  - intros k x y Ha Hb. by rewrite MergeSchemas_lookup, Ha, Hb.
  - intros k t. by rewrite Hcomm.
  - done.
Qed.

Lemma MergeSchemas_join_witness :
  MergeSchemas EventsSchema EncodedLogsSchema !! "log_index"
    = Some ({[ "uint64" ]} ∪ {[ "uint32" ]}) ∧
  MergeSchemas EventsSchema EncodedLogsSchema !! "event_name" = Some {[ "String" ]} ∧
  MergeSchemas EventsSchema EncodedLogsSchema
    = MergeSchemas EncodedLogsSchema EventsSchema.
Proof.
  destruct (MergeSchemas_join EventsSchema EncodedLogsSchema)
    as (_ & Hl & _ & Hb & _ & Hc).
  split; [|split].
  - apply Hb; vm_compute; reflexivity.
  - apply Hl; vm_compute; reflexivity.
  - exact Hc.
Defined.

Lemma ResolveExpression_eq (e : string) (schema : Schema) :
  ResolveExpression e schema =
    match ResolveExpression_case e schema with
    | Resolved ty => ty
    | Recurse next => ResolveExpression next schema
    end.
Proof.
  funelim (ResolveExpression e schema);
    match goal with E : ResolveExpression_case _ _ = _ |- _ => by rewrite E end.
Qed.

Lemma between_Some pre post s x :
  between pre post s = Some x → s = pre +:+ x +:+ post.
Proof.
  unfold between. destruct (strip_prefix pre s) as [r|] eqn:E; [|done]. cbn.
  intros ->%strip_suffix_Some. by apply strip_prefix_Some in E.
Qed.

Lemma split_at_Some pre mid post s a b :
  split_at pre mid post s = Some (a, b) → s = pre +:+ (a +:+ mid +:+ b) +:+ post.
Proof.
  unfold split_at. destruct (between pre post s) as [r|] eqn:E; [|done]. cbn.
  intros ->%cut_Some. by apply between_Some in E.
Qed.

(** A text that does not end in [c] does not end in a text ending in [c]. *)
Lemma strip_suffix_last_None (c : ascii) (p s : string) :
  strip_suffix (String c "") s = None →
  strip_suffix (p +:+ String c "") s = None.
Proof.
  intros H. destruct (strip_suffix (p +:+ _) s) as [r|] eqn:E; [|done].
  apply strip_suffix_Some in E. rewrite Str.app_assoc in E.
  apply strip_suffix_Some in E. congruence.
Qed.

Lemma between_last_None (c : ascii) (s pre post : string) :
  strip_suffix (String c "") s = None →
  (∃ p, post = p +:+ String c "") →
  between pre post s = None.
Proof.
  intros H [p ->]. destruct (between _ _ s) as [r|] eqn:E; [|done].
  apply between_Some in E. rewrite !Str.app_assoc in E.
  apply strip_suffix_Some in E. congruence.
Qed.


Lemma cut_at_start (d t : string) : cut d (d +:+ t) = Some ("", t).
Proof.
  pose proof (strip_prefix_app d t) as H.
  destruct (d +:+ t); cbn [cut]; by rewrite H.
Qed.

Lemma cut_after_clean_prefix (c : ascii) (d e t : string) :
  cut (String c "") e = None →
  cut (String c d) (e +:+ String c (d +:+ t)) = Some (e, t).
Proof.
  induction e as [|x e IH]; intros He.
  - exact (cut_at_start (String c d) t).
  - cbn [cut strip_prefix] in He. cbn [String.append cut strip_prefix].
    destruct (Ascii.eqb c x); [done|].
    destruct (cut (String c "") e) as [[??]|]; [done|]. by rewrite IH.
Qed.

Lemma strip_suffix_other_last (c1 c2 : ascii) (p y : string) :
  c1 ≠ c2 → strip_suffix (p +:+ String c1 "") (y +:+ String c2 "") = None.
Proof.
  intros Hne. destruct (strip_suffix _ _) as [r|] eqn:E; [|done].
  apply strip_suffix_Some in E. rewrite Str.app_assoc in E.
  apply (f_equal unsnoc) in E. rewrite !unsnoc_app in E. congruence.
Qed.







(** ** Event parameters (builder/abi-types.ts) *)

Lemma FormatParamType_eq (p : AbiParameter) :
  FormatParamType p =
    match strip_prefix "tuple" (param_type p), param_components p with
    | Some arr, Some c => "(" +:+ JoinParamTypes c "" +:+ ")" +:+ arr
    | _, _ => param_type p
    end.
Proof.
  destruct p as [ty n comps]. cbn [FormatParamType param_type param_components].
  destruct (strip_prefix "tuple" ty) as [arr|]; [|done].
  destruct comps as [c|]; [|done]. do 2 f_equal.
  unfold JoinParamTypes.
  match goal with |- ?f c ?e = JoinWith _ c ?e =>
    enough (∀ res, f c res = JoinWith FormatParamType c res) as H by apply H
  end.
  induction c as [|h t IH]; intros res; [done|].
  cbn [JoinWith]. destruct (String.eqb res ""); apply IH.
Qed.

Lemma concat_cons_app (sep x y : string) (l : list string) :
  String.concat sep ((x +:+ sep +:+ y) :: l) = String.concat sep (x :: y :: l).
Proof.
  destruct l as [|z l]; cbn [String.concat]; [done|].
  by rewrite <-!Str.app_assoc.
Qed.

Lemma JoinWith_concat fmt (params : list AbiParameter) (res : string) :
  res ≠ "" → Forall (λ p, fmt p ≠ "") params →
  JoinWith fmt params res = String.concat "," (res :: (fmt <$> params)).
Proof.
  intros Hres Hall. revert res Hres.
  induction Hall as [|h t Hh _ IH]; intros res Hres; [done|].
  cbn [JoinWith fmap list_fmap]. apply String.eqb_neq in Hres as Hb.
  rewrite Hb, IH, concat_cons_app; [done|].
  destruct res; [done|]. discriminate.
Qed.

(** The canonical signature is [name(type1,type2,...)]. *)
Lemma CdpEventSignature_format (e : AbiEvent) :
  Forall (λ p, FormatParamType p ≠ "") (event_inputs e) →
  CdpEventSignature e =
    event_name e +:+ "(" +:+
      String.concat "," (FormatParamType <$> event_inputs e) +:+ ")".
Proof.
  unfold CdpEventSignature, JoinParamTypes. intros Hall.
  assert (JoinWith FormatParamType (event_inputs e) ""
          = String.concat "," (FormatParamType <$> event_inputs e)) as ->;
    [|done].
  destruct Hall as [|h t Hh Ht]; [done|].
  cbn [JoinWith fmap list_fmap String.eqb]. by apply JoinWith_concat.
Qed.

Lemma elem_of_FindEventBySignature (abi : Abi) (sig : string) (e : AbiEvent) :
  e ∈ FindEventBySignature abi sig ↔
  AbiItemEvent e ∈ abi ∧ CdpEventSignature e = sig.
Proof.
  unfold FindEventBySignature, ExtractEvents.
  rewrite list_elem_of_filter, list_elem_of_omap. split.
  - intros [Hs (item & Hin & Hitem)]. destruct item; simplify_eq. done.
  - intros [Hin Hs]. split; [done|]. by exists (AbiItemEvent e).
Qed.

Lemma SolidityTypeToCdp_table :
  SolidityTypeToCdp "address" = THexString ∧
  SolidityTypeToCdp "bool" = TBoolean ∧
  (∀ r, SolidityTypeToCdp ("uint" +:+ r) = TNumericString) ∧
  (∀ r, SolidityTypeToCdp ("int" +:+ r) = TNumericString) ∧
  SolidityTypeToCdp "string" = TString ∧
  (∀ r, SolidityTypeToCdp ("bytes" +:+ r) = THexString) ∧
  (∀ t, t ≠ "address" → t ≠ "bool" →
        (∀ r, t ≠ "uint" +:+ r) → (∀ r, t ≠ "int" +:+ r) →
        (∀ r, t ≠ "bytes" +:+ r) → SolidityTypeToCdp t = TString).
Proof.
  repeat split; try done.
  intros t Ha Hb Hu Hi Hy. unfold SolidityTypeToCdp.
  apply String.eqb_neq in Ha as ->, Hb as ->.
  assert (∀ p, (∀ r, t ≠ p +:+ r) → strip_prefix p t = None) as Hp.
  { intros p H. destruct (strip_prefix p t) as [r|] eqn:E; [|done].
    apply strip_prefix_Some in E. by destruct (H r). }
  rewrite (Hp _ Hu), (Hp _ Hi), (Hp _ Hy). cbn.
  by destruct (String.eqb t "string").
Qed.

Lemma SolidityTypeToCdp_union (t : string) :
  ts_union (SolidityTypeToCdp t) TNever = SolidityTypeToCdp t.
Proof.
  unfold SolidityTypeToCdp.
  repeat match goal with |- context [if ?b then _ else _] => destruct b end;
    done.
Qed.

(** C4: resolution of a key of the [parameters] map, whose value type is
    the variant.  Without a narrowed signature the result is the variant,
    whatever the interfaces; with one, it is the variant when no event of
    the interfaces has that signature or no matched event has a parameter
    of that name, and the image of the declared Solidity type when the
    one matched event has it (the union of the images when several events
    share the signature). *)
Theorem ResolveMapType_parameters
    (base : TsType) (abi : Abi) (sig key : string) :
  MapValueType base = TVariant →
  ResolveMapType base abi None key = TVariant ∧
  (∀ e, e ∈ FindEventBySignature abi sig ↔
        AbiItemEvent e ∈ abi ∧ CdpEventSignature e = sig) ∧
  (∀ e, Forall (λ p, FormatParamType p ≠ "") (event_inputs e) →
        CdpEventSignature e =
          event_name e +:+ "(" +:+
            String.concat "," (FormatParamType <$> event_inputs e) +:+ ")") ∧
  (FindEventBySignature abi sig = [] →
     ResolveMapType base abi (Some sig) key = TVariant) ∧
  ((∀ e, e ∈ FindEventBySignature abi sig →
         FindParamByName (event_inputs e) key = None) →
     ResolveMapType base abi (Some sig) key = TVariant) ∧
  (∀ e p, FindEventBySignature abi sig = [e] →
          FindParamByName (event_inputs e) key = Some p →
          ResolveMapType base abi (Some sig) key
            = SolidityTypeToCdp (param_type p)) ∧
  (∀ p found,
     omap (λ e, FindParamByName (event_inputs e) key)
          (FindEventBySignature abi sig) = p :: found →
     ResolveMapType base abi (Some sig) key
       = foldr ts_union TNever (SolidityTypeToCdp ∘ param_type <$> p :: found)) ∧
  SolidityTypeToCdp "address" = THexString ∧
  SolidityTypeToCdp "bool" = TBoolean ∧
  (∀ r, SolidityTypeToCdp ("uint" +:+ r) = TNumericString) ∧
  (∀ r, SolidityTypeToCdp ("int" +:+ r) = TNumericString) ∧
  SolidityTypeToCdp "string" = TString ∧
  (∀ r, SolidityTypeToCdp ("bytes" +:+ r) = THexString) ∧
  (∀ t, t ≠ "address" → t ≠ "bool" →
        (∀ r, t ≠ "uint" +:+ r) → (∀ r, t ≠ "int" +:+ r) →
        (∀ r, t ≠ "bytes" +:+ r) → SolidityTypeToCdp t = TString).
Proof.
  intros Hbase.
  assert ((∀ e, e ∈ FindEventBySignature abi sig →
              FindParamByName (event_inputs e) key = None) →
          ResolveMapType base abi (Some sig) key = TVariant) as Hnone.
  { intros H. unfold ResolveMapType. destruct abi as [|i abi]; [done|].
    unfold EventParamType.
    destruct (FindEventBySignature (i :: abi) sig) as [|e0 l] eqn:E; [done|].
    assert (omap (λ e, FindParamByName (event_inputs e) key) (e0 :: l) = []) as ->;
      [|done].
    rewrite <-E in *. clear E.
    induction (FindEventBySignature (i :: abi) sig) as [|e l' IH]; [done|].
    cbn. rewrite (H e) by apply list_elem_of_here.
    apply IH. intros e' He'. apply H. by apply list_elem_of_further. }
  split; [done|]. split; [apply elem_of_FindEventBySignature|].
  split; [apply CdpEventSignature_format|].
  split; [|split; [done|split; [|split]]].
  - intros E. apply Hnone. intros e. rewrite E. by intros ?%elem_of_nil.
  - intros e p E Hp. unfold ResolveMapType.
    destruct abi as [|i abi]; [done|]. unfold EventParamType. rewrite E.
    cbn. rewrite Hp. cbn. apply SolidityTypeToCdp_union.
  - intros p found E. unfold ResolveMapType.
    destruct abi as [|i abi]; [done|]. unfold EventParamType.
    destruct (FindEventBySignature (i :: abi) sig); [done|]. by rewrite E.
  - apply SolidityTypeToCdp_table.
Qed.

Lemma ResolveMapType_parameters_witness :
  ResolveMapType ParametersType [AbiItemEvent erc20_Transfer] None "from" = TVariant ∧
  ResolveMapType ParametersType [AbiItemEvent erc20_Transfer]
    (Some "Approval(address,address,uint256)") "from" = TVariant ∧
  ResolveMapType ParametersType [AbiItemEvent erc20_Transfer]
    (Some "Transfer(address,address,uint256)") "amount" = TVariant ∧
  ResolveMapType ParametersType [AbiItemEvent erc20_Transfer]
    (Some "Transfer(address,address,uint256)") "value" = TNumericString.
Proof.
  assert (MapValueType ParametersType = TVariant) as Hbase
    by (vm_compute; reflexivity).
  split; [|split; [|split]].
  - exact (proj1 (ResolveMapType_parameters ParametersType
                    [AbiItemEvent erc20_Transfer] "" "from" Hbase)).
  - destruct (ResolveMapType_parameters ParametersType
                [AbiItemEvent erc20_Transfer]
                "Approval(address,address,uint256)" "from" Hbase)
      as (_ & _ & _ & H & _).
    apply H. vm_compute. reflexivity.
  - destruct (ResolveMapType_parameters ParametersType
                [AbiItemEvent erc20_Transfer]
                "Transfer(address,address,uint256)" "amount" Hbase)
      as (_ & _ & _ & _ & H & _).
    apply H. intros e He. assert (e = erc20_Transfer) as ->.
    { vm_compute in He. by apply list_elem_of_singleton in He. }
    vm_compute. reflexivity.
  - destruct (ResolveMapType_parameters ParametersType
                [AbiItemEvent erc20_Transfer]
                "Transfer(address,address,uint256)" "value" Hbase)
      as (_ & _ & _ & _ & _ & H & _).
    rewrite (H erc20_Transfer (AbiParam "uint256" (Some "value") None));
      vm_compute; reflexivity.
Defined.

(** ** The compiler (builder/compiler.ts) *)

(** Every part preceded by one space. *)
Fixpoint spaced (parts : list string) : string :=
  match parts with
  | [] => ""
  | p :: rest => " " +:+ p +:+ spaced rest
  end.

Lemma spaced_app (a b : list string) : spaced (a ++ b) = spaced a +:+ spaced b.
Proof.
  induction a as [|p a IH]; cbn [spaced app]; [done|].
  by rewrite IH, <-!Str.app_assoc.
Qed.

Lemma concat_spaced (p : string) (rest : list string) :
  String.concat " " (p :: rest) = p +:+ spaced rest.
Proof.
  revert p; induction rest as [|q rest IH]; intros p.
  - cbn. by rewrite Str.app_nil_r.
  - change (String.concat " " (p :: q :: rest))
      with (p +:+ " " +:+ String.concat " " (q :: rest)).
    by rewrite IH.
Qed.

(** The clause [kw item, item, ...], absent when there is no item. *)
Definition clause (kw sep : string) (items : list string) : list string :=
  match items with
  | [] => []
  | _ => [kw +:+ String.concat sep items]
  end.

(** The parts pushed by [compileQuery], clause by clause. *)
Lemma compileQuery_parts (q : SelectQueryNode) :
  compileQuery q =
    String.concat " "
      (clause "WITH " ", " (List.map compileCte (q_ctes q)) ++
       [(if q_distinct q then "SELECT DISTINCT" else "SELECT") +:+ " " +:+
          String.concat ", " (List.map compileNode (q_selections q))] ++
       ["FROM " +:+ compileTable (q_from q)] ++
       List.map compileJoin (q_joins q) ++
       clause "WHERE " " AND " (List.map compileNode (q_where q)) ++
       clause "GROUP BY " ", " (List.map compileNode (q_groupBy q)) ++
       clause "HAVING " " AND " (List.map compileNode (q_having q)) ++
       clause "ORDER BY " ", " (List.map compileOrderByItem (q_orderBy q)) ++
       match q_limit q with Some n => ["LIMIT " +:+ string_of_Z n] | None => [] end).
Proof.
  destruct q as [ctes distinct selections from joins where_ groupBy having
                 orderBy limit].
  cbn [compileQuery q_ctes q_distinct q_selections q_from q_joins q_where
       q_groupBy q_having q_orderBy q_limit].
  f_equal.
  destruct ctes, where_, groupBy, having, orderBy, limit;
    cbn [clause List.map app]; rewrite ?app_nil_r, <-?app_assoc; reflexivity.
Qed.

Definition join_table (j : JoinNode) : TableNode :=
  match j with MkJoin _ t _ => t end.

(** A node is well formed when an alias that is present is not empty. *)
Definition well_formed_table (t : TableNode) : Prop := table_alias t ≠ Some "".

Definition well_formed_query (q : SelectQueryNode) : Prop :=
  well_formed_table (q_from q) ∧
  Forall (λ j, well_formed_table (join_table j)) (q_joins q).

(** The serialization rules in the words of the specification. *)

(** [<table>[ AS <alias>]] *)
Definition table_text (t : TableNode) : string :=
  table_name t +:+
  match table_alias t with Some a => " AS " +:+ a | None => "" end.

(** [<TYPE> JOIN <table>[ AS <alias>][ ON <condition>]] *)
Definition join_text (j : JoinNode) : string :=
  match j with
  | MkJoin type table on =>
      JoinType_text type +:+ " JOIN " +:+ table_text table +:+
      match on with Some c => " ON " +:+ compileNode c | None => "" end
  end.

(** [<name> AS (<subquery>)] *)
Definition cte_text (c : CteNode) : string :=
  cte_name c +:+ " AS (" +:+ compileQuery (cte_query c) +:+ ")".

(** [<e>[ ASC|DESC]] *)
Definition order_text (o : OrderByItemNode) : string :=
  match o with
  | MkOrderByItem e d =>
      compileNode e +:+
      match d with Some ASC => " ASC" | Some DESC => " DESC" | None => "" end
  end.

(** An optional clause after the [FROM] clause. *)
Definition optional_clause (kw sep : string) (items : list string) : string :=
  match items with
  | [] => ""
  | _ => " " +:+ kw +:+ String.concat sep items
  end.

Definition query_layout (q : SelectQueryNode) : string :=
  match q_ctes q with
  | [] => ""
  | cs => "WITH " +:+ String.concat ", " (List.map cte_text cs) +:+ " "
  end +:+
  "SELECT " +:+ (if q_distinct q then "DISTINCT " else "") +:+
  String.concat ", " (List.map compileNode (q_selections q)) +:+
  " FROM " +:+ table_text (q_from q) +:+
  spaced (List.map join_text (q_joins q)) +:+
  optional_clause "WHERE " " AND " (List.map compileNode (q_where q)) +:+
  optional_clause "GROUP BY " ", " (List.map compileNode (q_groupBy q)) +:+
  optional_clause "HAVING " " AND " (List.map compileNode (q_having q)) +:+
  optional_clause "ORDER BY " ", " (List.map order_text (q_orderBy q)) +:+
  match q_limit q with Some n => " LIMIT " +:+ string_of_Z n | None => "" end.

Lemma compileTable_text (t : TableNode) :
  well_formed_table t → compileTable t = table_text t.
Proof.
  unfold well_formed_table, compileTable, table_text, truthy.
  destruct (table_alias t) as [a|]; [|by rewrite Str.app_nil_r].
  intros H. destruct (String.eqb_spec a ""); [congruence|done].
Qed.

Lemma compileJoin_text (j : JoinNode) :
  well_formed_table (join_table j) → compileJoin j = join_text j.
Proof.
  destruct j as [ty t on]. cbn [join_table compileJoin join_text].
  intros H. by rewrite compileTable_text.
Qed.

Lemma compileCte_text (c : CteNode) : compileCte c = cte_text c.
Proof. by destruct c. Qed.

Lemma compileOrderByItem_text (o : OrderByItemNode) :
  compileOrderByItem o = order_text o.
Proof. by destruct o as [e [[]|]]. Qed.

Lemma spaced_clause (kw sep : string) (items : list string) :
  spaced (clause kw sep items) = optional_clause kw sep items.
Proof.
  destruct items; cbn [clause spaced optional_clause]; [done|].
  by rewrite Str.app_nil_r.
Qed.

(** C2: the clauses come out in the order WITH, SELECT, FROM, JOIN...,
    WHERE, GROUP BY, HAVING, ORDER BY, LIMIT, each in the form the
    specification gives it; an [And] node is its conditions joined by
    [ AND ], an [Or] node its conditions joined by [ OR ] in
    parentheses. *)
Theorem compileQuery_clause_order (q : SelectQueryNode) :
  well_formed_query q →
  compileQuery q = query_layout q ∧
  (∀ cs, compileNode (AndNode cs) = String.concat " AND " (List.map compileNode cs)) ∧
  (∀ cs, compileNode (OrNode cs)
         = "(" +:+ String.concat " OR " (List.map compileNode cs) +:+ ")").
Proof.
  intros [Hfrom Hjoins]. split; [|by split].
  rewrite compileQuery_parts. unfold query_layout.
  assert (List.map compileJoin (q_joins q) = List.map join_text (q_joins q)) as ->.
  { induction Hjoins as [|j l Hj _ IH]; [done|].
    cbn [List.map]. f_equal; [by apply compileJoin_text|done]. }
  assert (List.map compileCte (q_ctes q) = List.map cte_text (q_ctes q)) as ->.
  { induction (q_ctes q) as [|c l IH]; [done|].
    cbn [List.map]. by rewrite compileCte_text, IH. }
  assert (List.map compileOrderByItem (q_orderBy q) = List.map order_text (q_orderBy q))
    as ->.
  { induction (q_orderBy q) as [|o l IH]; [done|].
    cbn [List.map]. by rewrite compileOrderByItem_text, IH. }
  rewrite (compileTable_text _ Hfrom).
  set (tail :=
    ["FROM " +:+ table_text (q_from q)] ++ (List.map join_text (q_joins q)) ++
    clause "WHERE " " AND " (List.map compileNode (q_where q)) ++
    clause "GROUP BY " ", " (List.map compileNode (q_groupBy q)) ++
    clause "HAVING " " AND " (List.map compileNode (q_having q)) ++
    clause "ORDER BY " ", " (List.map order_text (q_orderBy q)) ++
    match q_limit q with Some n => ["LIMIT " +:+ string_of_Z n] | None => [] end).
  assert (spaced tail =
    " FROM " +:+ table_text (q_from q) +:+
    spaced (List.map join_text (q_joins q)) +:+
    optional_clause "WHERE " " AND " (List.map compileNode (q_where q)) +:+
    optional_clause "GROUP BY " ", " (List.map compileNode (q_groupBy q)) +:+
    optional_clause "HAVING " " AND " (List.map compileNode (q_having q)) +:+
    optional_clause "ORDER BY " ", " (List.map order_text (q_orderBy q)) +:+
    match q_limit q with Some n => " LIMIT " +:+ string_of_Z n | None => "" end)
    as Htail.
  { unfold tail. rewrite !spaced_app, !spaced_clause. cbn [spaced].
    rewrite Str.app_nil_r, <-!Str.app_assoc.
    change (" " +:+ "FROM " +:+ ?x) with (" FROM " +:+ x). do 7 f_equal.
    destruct (q_limit q); cbn [spaced]; by rewrite ?Str.app_nil_r. }
  clearbody tail.
  destruct (q_ctes q) as [|c cs]; cbn [clause app List.map].
  - rewrite concat_spaced, Htail.
    destruct (q_distinct q); cbn; by rewrite <-?Str.app_assoc.
  - rewrite concat_spaced. cbn [spaced]. rewrite Htail.
    destruct (q_distinct q); cbn; by rewrite <-?Str.app_assoc.
Qed.

Lemma compileQuery_clause_order_witness :
  compileQuery
    (MkSelectQuery
       [MkCte "recent"
          (MkSelectQuery [] false [StarNode None]
             {| table_name := "base.blocks"; table_alias := None |}
             [] [] [] [] [] (Some 10%Z))]
       true [ColumnNode (Some "r") "miner"; FunctionCallNode "count" [StarNode None]]
       {| table_name := "recent"; table_alias := Some "r" |}
       [MkJoin LEFT {| table_name := "base.events"; table_alias := Some "e" |}
          (Some (BinaryOpNode (ColumnNode (Some "r") "block_number") "="
                   (ColumnNode (Some "e") "block_number")))]
       [BinaryOpNode (ColumnNode None "gas_used") ">" (ValueNode (JsNumber 0));
        OrNode [IsNullNode (ColumnNode None "miner") false;
                AndNode [NotNode (RawNode "x"); RawNode "y"]]]
       [ColumnNode (Some "r") "miner"]
       [BinaryOpNode (FunctionCallNode "count" [StarNode None]) ">"
          (ValueNode (JsNumber 1))]
       [MkOrderByItem (ColumnNode (Some "r") "miner") (Some DESC)]
       (Some 5%Z))
  = "WITH recent AS (SELECT * FROM base.blocks LIMIT 10) " +:+
    "SELECT DISTINCT r.miner, count(*) FROM recent AS r " +:+
    "LEFT JOIN base.events AS e ON r.block_number = e.block_number " +:+
    "WHERE gas_used > 0 AND (miner IS NULL OR NOT x AND y) " +:+
    "GROUP BY r.miner HAVING count(*) > 1 ORDER BY r.miner DESC LIMIT 5".
Proof.
  match goal with |- compileQuery ?q = _ =>
    rewrite (proj1 (compileQuery_clause_order q
      ltac:(split; [discriminate|repeat constructor; discriminate])))
  end.
  vm_compute. reflexivity.
Defined.

(** ** String arguments of the expression builder
       (builder/expression-builder.ts) *)

Fixpoint count_dots (s : string) : nat :=
  match s with
  | "" => 0
  | String c r => (if Ascii.eqb c "." then 1 else 0) + count_dots r
  end.

Lemma split_dot_length (s : string) : length (split_dot s) = S (count_dots s).
Proof.
  induction s as [|c r IH]; cbn [split_dot count_dots]; [done|].
  destruct (Ascii.eqb c "."); cbn [length]; [by rewrite IH|].
  destruct (split_dot r); cbn in *; lia.
Qed.

Lemma split_dot_concat (s : string) : String.concat "." (split_dot s) = s.
Proof.
  induction s as [|c r IH]; cbn [split_dot]; [done|].
  destruct (Ascii.eqb_spec c ".") as [->|Hne].
  - pose proof (split_dot_length r) as Hl.
    destruct (split_dot r) as [|h t]; [done|].
    change (String.concat "." ("" :: h :: t))
      with ("" +:+ "." +:+ String.concat "." (h :: t)).
    by rewrite IH.
  - pose proof (split_dot_length r) as Hl.
    destruct (split_dot r) as [|h t]; [done|].
    destruct t as [|h' t]; cbn [String.concat] in *; by rewrite <-IH.
Qed.

Lemma ident_start_not_dot (c : ascii) : ident_start c = true → Ascii.eqb c "." = false.
Proof. by destruct c as [[] [] [] [] [] [] [] []]. Qed.

Lemma toNode_identifier (s : string) :
  test_identifier s = true →
  (count_dots s = 1 →
     ∃ table name, s = table +:+ "." +:+ name ∧ table ≠ "" ∧
       toNode (ArgString s) = ColumnNode (Some table) name) ∧
  (count_dots s ≠ 1 → toNode (ArgString s) = ColumnNode None s) ∧
  compileNode (toNode (ArgString s)) = s.
Proof.
  intros Hid. cbn [toNode]. rewrite Hid.
  pose proof (split_dot_length s) as Hl.
  pose proof (split_dot_concat s) as Hc.
  assert (∀ p0 p1, split_dot s = [p0; p1] → p0 ≠ "") as Hp0.
  { destruct s as [|c r]; [done|]. cbn in Hid.
    apply andb_true_iff in Hid as [Hs%ident_start_not_dot _].
    cbn [split_dot]. rewrite Hs. intros p0 p1.
    destruct (split_dot r); intros [= <- _]; done. }
  destruct (split_dot s) as [|p0 [|p1 [|p2 t]]]; cbn [length] in Hl.
  - lia.
  - split; [lia|]. split; [done|]. cbn. by destruct (String.eqb s "").
  - specialize (Hp0 p0 p1 eq_refl). cbn [String.concat] in Hc.
    split; [|split; [lia|]].
    + intros _. by exists p0, p1.
    + cbn [compileNode]. unfold compileColumn, truthy.
      apply String.eqb_neq in Hp0. by rewrite Hp0.
  - split; [lia|]. split; [done|]. done.
Qed.

(** C9, as stated, fails on the string of one asterisk: it is not an
    identifier, and it compiles to a bare star, not to a quoted literal.
    A string with two dots is a column without a table. *)
Lemma toNode_star_unquoted :
  test_identifier "*" = false ∧
  compileNode (expr_node (ExpressionBuilder.eq (ExpressionBuilder.col "event_name")
                            (ArgString "*")))
    = "event_name = *" ∧
  compileNode (expr_node (ExpressionBuilder.eq (ExpressionBuilder.col "event_name")
                            (ArgString "*")))
    ≠ "event_name = '*'" ∧
  toNode (ArgString "a.b.c") = ColumnNode None "a.b.c".
Proof. vm_compute. repeat split; discriminate. Qed.

(** C9, amended: in the comparison and membership helpers a string that
    has the syntax of an identifier becomes a column, qualified by its
    table when it has exactly one dot and unqualified under its whole
    text otherwise, and compiles to itself; the string of one asterisk
    becomes a star and compiles to itself; every other string becomes a
    value and compiles between single quotes. *)
Theorem toNode_string_argument (s : string) :
  (test_identifier s = true →
     (count_dots s = 1 →
        ∃ table name, s = table +:+ "." +:+ name ∧ table ≠ "" ∧
          toNode (ArgString s) = ColumnNode (Some table) name) ∧
     (count_dots s ≠ 1 → toNode (ArgString s) = ColumnNode None s) ∧
     compileNode (toNode (ArgString s)) = s) ∧
  (s = "*" →
     toNode (ArgString s) = StarNode None ∧
     compileNode (toNode (ArgString s)) = "*") ∧
  (test_identifier s = false → s ≠ "*" →
     toNode (ArgString s) = ValueNode (JsString s) ∧
     compileNode (toNode (ArgString s)) = "'" +:+ s +:+ "'") ∧
  (∀ l r,
     let c x := compileNode (expr_node x) in
     c (ExpressionBuilder.eq l r) = c l +:+ " = " +:+ compileNode (toNode r) ∧
     c (ExpressionBuilder.neq l r) = c l +:+ " != " +:+ compileNode (toNode r) ∧
     c (ExpressionBuilder.gt l r) = c l +:+ " > " +:+ compileNode (toNode r) ∧
     c (ExpressionBuilder.gte l r) = c l +:+ " >= " +:+ compileNode (toNode r) ∧
     c (ExpressionBuilder.lt l r) = c l +:+ " < " +:+ compileNode (toNode r) ∧
     c (ExpressionBuilder.lte l r) = c l +:+ " <= " +:+ compileNode (toNode r)) ∧
  (∀ e low high,
     compileNode (expr_node (ExpressionBuilder.between e low high))
     = compileNode (expr_node e) +:+ " BETWEEN " +:+ compileNode (toNode low)
         +:+ " AND " +:+ compileNode (toNode high)) ∧
  (∀ e values,
     compileNode (expr_node (ExpressionBuilder.inList e values))
     = compileNode (expr_node e) +:+ " IN (" +:+
         String.concat ", " (List.map (λ v, compileNode (toNode v)) values) +:+ ")" ∧
     compileNode (expr_node (ExpressionBuilder.notInList e values))
     = compileNode (expr_node e) +:+ " NOT IN (" +:+
         String.concat ", " (List.map (λ v, compileNode (toNode v)) values) +:+ ")").
Proof.
  split; [apply toNode_identifier|].
  split; [by intros ->|].
  split.
  { intros Hid Hs. cbn [toNode]. rewrite Hid.
    apply String.eqb_neq in Hs. by rewrite Hs. }
  split; [by intros l r; repeat split|].
  split; [done|].
  intros e values.
  assert (List.map compileNode (toNode <$> values)
          = List.map (λ v, compileNode (toNode v)) values) as Hmap.
  { induction values as [|v vs IH]; [done|]. cbn. by rewrite <-IH. }
  cbn [ExpressionBuilder.inList ExpressionBuilder.notInList expr_node compileNode].
  rewrite Hmap. done.
Qed.

Lemma toNode_string_argument_witness :
  compileNode (expr_node (ExpressionBuilder.eq (ExpressionBuilder.col "event_name")
                            (ArgString "transfer")))
    = "event_name = transfer" ∧
  toNode (ArgString "e.address") = ColumnNode (Some "e") "address" ∧
  compileNode (toNode (ArgString "0x1234")) = "'0x1234'".
Proof.
  destruct (toNode_string_argument "transfer") as (Hid & _ & _ & Hcmp & _).
  destruct (toNode_string_argument "e.address") as (Hq & _).
  destruct (toNode_string_argument "0x1234") as (_ & _ & Hv & _).
  split; [|split].
  - rewrite (proj1 (Hcmp _ _)).
    destruct Hid as (_ & _ & ->); [vm_compute; reflexivity|].
    vm_compute. reflexivity.
  - destruct Hq as (Hq & _); [vm_compute; reflexivity|].
    destruct Hq as (t & n & _ & _ & _); [vm_compute; reflexivity|].
    vm_compute. reflexivity.
  - destruct Hv as [_ ->]; [vm_compute; reflexivity|discriminate|].
    vm_compute. reflexivity.
Defined.

(** ** Common table expressions (builder/cdp.ts) *)















(** The nested CTE [inner] is selected from and never defined. *)
Example nested_with_is_dropped :
  SelectQueryBuilder.compile
    (SelectQueryBuilder.selectAll
       (CdpQueryCreator.selectFrom
          (CdpQueryCreator.with_ cdp "outer" (λ qb,
             SelectQueryBuilder.selectAll
               (CdpQueryCreator.selectFrom
                  (CdpQueryCreator.with_ qb "inner" (λ qb',
                     SelectQueryBuilder.selectAll
                       (CdpQueryCreator.selectFrom qb' "base.blocks")))
                  "inner")))
          "outer"))
  = "WITH outer AS (SELECT * FROM inner) SELECT * FROM outer".
Proof. vm_compute. reflexivity. Qed.


(** ** The builder on the queries of tests/builder/compile.test.ts *)

Module BuilderExamples.
Import SelectQueryBuilder.

Local Notation "b |> f" := (f b) (at level 68, left associativity, only parsing).

Local Definition selectFrom := CdpQueryCreator.selectFrom cdp.
Local Definition flip_select arg b := select b arg.
Local Definition flip_where arg b := where_ b arg.
Local Definition flip_groupBy arg b := groupBy b arg.
Local Definition flip_having arg b := having b arg.
Local Definition flip_orderBy column direction b := orderBy b column direction.
Local Definition flip_limit n b := limit b n.
Local Definition flip_innerJoin t l op r b := innerJoin b t l op r.

Example select_with_alias_string :
  selectFrom "base.blocks" |> flip_select (SelectColumn "block_number as num")
    |> compile
  = "SELECT block_number AS num FROM base.blocks".
Proof. vm_compute. reflexivity. Qed.

Example select_distinct :
  selectFrom "base.events" |> flip_select (SelectColumn "address") |> distinct
    |> compile
  = "SELECT DISTINCT address FROM base.events".
Proof. vm_compute. reflexivity. Qed.

Example multiple_where :
  selectFrom "base.events" |> flip_select (SelectColumn "address")
    |> flip_where (ConditionColumn "event_signature" "="
                     (JsString "Transfer(address,address,uint256)"))
    |> flip_where (ConditionColumn "block_number" ">" (JsNumber 100))
    |> compile
  = "SELECT address FROM base.events WHERE event_signature = "
    +:+ "'Transfer(address,address,uint256)' AND block_number > 100".
Proof. vm_compute. reflexivity. Qed.

Example where_with_callback :
  selectFrom "base.events" |> flip_select (SelectColumn "address")
    |> flip_where (ConditionCallback
         (ExpressionBuilder.eq (ExpressionBuilder.col "address") (ArgString "0x1234")))
    |> compile
  = "SELECT address FROM base.events WHERE address = '0x1234'".
Proof. vm_compute. reflexivity. Qed.

Example having_clause :
  selectFrom "base.events"
    |> flip_select (SelectCallback
         [Expr_as (ExpressionBuilder.col "address") "addr";
          Expr_as (ExpressionBuilder.count None) "cnt"])
    |> flip_groupBy (GroupByColumn "address")
    |> flip_having (ConditionColumn "cnt" ">" (JsNumber 5))
    |> compile
  = "SELECT address AS addr, count(*) AS cnt FROM base.events "
    +:+ "GROUP BY address HAVING cnt > 5".
Proof. vm_compute. reflexivity. Qed.

Example inner_join_with_alias :
  selectFrom "base.blocks"
    |> flip_innerJoin "base.transactions as t" "base.blocks.block_number" "="
         "t.block_number"
    |> flip_select (SelectColumns ["block_number"; "t.transaction_hash"])
    |> compile
  = "SELECT block_number, t.transaction_hash FROM base.blocks "
    +:+ "INNER JOIN base.transactions AS t "
    +:+ "ON base.blocks.block_number = t.block_number".
Proof. vm_compute. reflexivity. Qed.

Example order_by_and_limit :
  selectFrom "base.blocks" |> flip_select (SelectColumn "block_number")
    |> flip_orderBy "block_number" (Some DESC) |> flip_limit 10 |> compile
  = "SELECT block_number FROM base.blocks ORDER BY block_number DESC LIMIT 10".
Proof. vm_compute. reflexivity. Qed.

Example double_colon_cast :
  selectFrom "base.events"
    |> flip_select (SelectCallback
         [Expr_as (ExpressionBuilder.castAs
                     (ExpressionBuilder.map "parameters" "totalClaimed") "UInt256")
            "claimed"])
    |> compile
  = "SELECT parameters['totalClaimed']::UInt256 AS claimed FROM base.events".
Proof. vm_compute. reflexivity. Qed.

Example simple_cte :
  CdpQueryCreator.selectFrom
    (CdpQueryCreator.with_ cdp "recent" (λ qb,
       CdpQueryCreator.selectFrom qb "base.blocks"
         |> flip_select (SelectColumn "block_number") |> flip_limit 10))
    "recent"
    |> flip_select (SelectColumn "block_number") |> compile
  = "WITH recent AS (SELECT block_number FROM base.blocks LIMIT 10) "
    +:+ "SELECT block_number FROM recent".
Proof. vm_compute. reflexivity. Qed.

End BuilderExamples.

(** * Further properties of the text path *)

(** ** Trimming (utils.ts) *)

Lemma TrimStart_split (s : string) :
  ∃ u, s = u +:+ TrimStart s ∧ all_chars WhitespaceChar u = true.
Proof.
  induction s as [|c s (u & Hu & Hws)]; [by exists ""|]. cbn [TrimStart].
  destruct (WhitespaceChar c) eqn:Hc; [|by exists ""].
  exists (String c u). cbn. by rewrite <-Hu, Hc, Hws.
Qed.

Lemma TrimEnd_split (s : string) :
  ∃ w, s = TrimEnd s +:+ w ∧ all_chars WhitespaceChar w = true.
Proof.
  funelim (TrimEnd s); drop_inspect.
  - exists "". by rewrite Str.app_nil_r.
  - destruct H as (w & Hw & Hws). apply unsnoc_Some in e as ->.
    exists (w +:+ String c ""). split.
    + rewrite Str.app_assoc. by rewrite <-Hw.
    + rewrite all_chars_app, Hws. cbn. by rewrite Heq.
  - exists "". by rewrite Str.app_nil_r.
Qed.

Lemma TrimStart_head (s : string) (c : ascii) (r : string) :
  TrimStart s = String c r → WhitespaceChar c = false.
Proof.
  induction s as [|x s IH]; cbn [TrimStart]; [done|].
  destruct (WhitespaceChar x) eqn:Hx; [done|]. by intros [= <- _].
Qed.

Lemma TrimStart_fixed (s : string) :
  TrimStart s = s ↔
  match s with String c _ => WhitespaceChar c = false | "" => True end.
Proof.
  destruct s as [|c r]; [done|]. split.
  - apply TrimStart_head.
  - cbn [TrimStart]. by intros ->.
Qed.

(** X1: [Trim] removes white space from the two ends and nothing else:
    the text is the trimmed text between two runs of white space, the
    trimmed text neither starts nor ends with a white-space character, and
    trimming again changes nothing. *)
Theorem Trim_strips_both_ends (s : string) :
  (∃ u w, s = u +:+ Trim s +:+ w ∧
          all_chars WhitespaceChar u = true ∧ all_chars WhitespaceChar w = true) ∧
  (∀ c r, Trim s = String c r → WhitespaceChar c = false) ∧
  (∀ r c, Trim s = r +:+ String c "" → WhitespaceChar c = false) ∧
  Trim (Trim s) = Trim s.
Proof.
  split; [|split; [|split]].
  - unfold Trim. destruct (TrimEnd_split s) as (w & Hw & Hws).
    destruct (TrimStart_split (TrimEnd s)) as (u & Hu & Hus).
    exists u, w. by rewrite Str.app_assoc, <-Hu.
  - intros c r. apply TrimStart_head.
  - intros r c Hr. destruct (trimmed_Trim s) as [_ He].
    apply TrimEnd_fixed in He. by rewrite Hr, unsnoc_app in He.
  - apply Trim_trimmed, trimmed_Trim.
Qed.

(** ** Collapsing white space (utils.ts) *)

(** Every maximal run of white-space characters becomes one space. *)
Fixpoint squeeze (s : string) : string :=
  match s with
  | "" => ""
  | String c r =>
      if WhitespaceChar c then
        match squeeze r with
        | String " " _ as r' => r'
        | r' => String " " r'
        end
      else String c (squeeze r)
  end.

Lemma squeeze_ws_head (c : ascii) (r : string) :
  WhitespaceChar c = true → ∃ t, squeeze (String c r) = String " " t.
Proof.
  intros Hc. cbn [squeeze]. rewrite Hc.
  destruct (squeeze r) as [|x t]; [by eexists|].
  destruct (Ascii.eqb_spec x " ") as [->|Hne]; [by eexists|].
  destruct x as [[] [] [] [] [] [] [] []]; by eexists.
Qed.

Lemma squeeze_ws_any (c d : ascii) (r : string) :
  WhitespaceChar c = true → WhitespaceChar d = true →
  squeeze (String c r) = squeeze (String d r).
Proof. intros Hc Hd. cbn [squeeze]. by rewrite Hc, Hd. Qed.

Lemma squeeze_ws_twice (c d : ascii) (r : string) :
  WhitespaceChar c = true → WhitespaceChar d = true →
  squeeze (String c (String d r)) = squeeze (String d r).
Proof.
  intros Hc Hd. destruct (squeeze_ws_head d r Hd) as [t Ht].
  change (squeeze (String c (String d r)))
    with (if WhitespaceChar c then
            match squeeze (String d r) with
            | String " " _ as r' => r'
            | r' => String " " r'
            end
          else String c (squeeze (String d r))).
  by rewrite Hc, Ht.
Qed.

Lemma squeeze_app_congr (a x y : string) :
  squeeze x = squeeze y → squeeze (a +:+ x) = squeeze (a +:+ y).
Proof. intros H. induction a as [|c a IH]; cbn [String.append squeeze]; by rewrite ?IH. Qed.

Lemma collapsed_cons (c : ascii) (r : string) :
  collapsed (String c r) →
  collapsed r ∧ (WhitespaceChar c = true → c = " "%char) ∧
  (c = " "%char → ∀ t, r ≠ String " " t).
Proof.
  intros Hc. split; [|split].
  - by apply (collapsed_app (String c "") r).
  - destruct Hc as (H1 & H2 & H3 & _). revert H1 H2 H3.
    cbn [cut strip_prefix]. unfold WhitespaceChar.
    destruct (Ascii.eqb_spec LF c) as [<-|?]; [done|].
    destruct (Ascii.eqb_spec CR c) as [<-|?]; [done|].
    destruct (Ascii.eqb_spec TAB c) as [<-|?]; [done|].
    intros _ _ _.
    destruct (Ascii.eqb_spec c " "); [done|].
    destruct (Ascii.eqb_spec c LF); [done|].
    destruct (Ascii.eqb_spec c TAB); [done|].
    destruct (Ascii.eqb_spec c CR); done.
  - intros -> t ->. by destruct Hc as (_ & _ & _ & H).
Qed.

Lemma squeeze_collapsed (s : string) : collapsed s → squeeze s = s.
Proof.
  induction s as [|c r IH]; [done|].
  intros (Hr & Hws & Hsp)%collapsed_cons. cbn [squeeze]. rewrite (IH Hr).
  destruct (WhitespaceChar c) eqn:Hc; [|done].
  specialize (Hws eq_refl) as ->. specialize (Hsp eq_refl).
  destruct r as [|x t]; [done|].
  destruct (Ascii.eqb_spec x " ") as [->|Hne]; [by destruct (Hsp t)|].
  by destruct x as [[] [] [] [] [] [] [] []].
Qed.

Lemma squeeze_CollapseWhitespace (s : string) :
  squeeze (CollapseWhitespace s) = squeeze s.
Proof.
  funelim (CollapseWhitespace s); [| | | |done].
  all: rewrite H.
  all: match goal with E : cut _ _ = Some _ |- _ =>
         rewrite (cut_Some _ _ _ _ E) end.
  all: apply squeeze_app_congr.
  1-3: by apply squeeze_ws_any.
  symmetry. by apply (squeeze_ws_twice " " " ").
Qed.

Lemma CollapseWhitespace_is_squeeze (s : string) : CollapseWhitespace s = squeeze s.
Proof.
  rewrite <-squeeze_CollapseWhitespace.
  symmetry. apply squeeze_collapsed, collapsed_CollapseWhitespace.
Qed.

(** X2: the ordered rewriting of [CollapseWhitespace] (line feeds first,
    then carriage returns, tabs, and pairs of spaces) computes the
    one-pass normal form: every maximal run of white space becomes a
    single space and every other character stays in place.  The result
    has no line feed, carriage return or tab and no two adjacent spaces,
    and collapsing it again changes nothing. *)
Theorem CollapseWhitespace_runs_to_single_space (s : string) :
  CollapseWhitespace s = squeeze s ∧
  cut (String LF "") (CollapseWhitespace s) = None ∧
  cut (String CR "") (CollapseWhitespace s) = None ∧
  cut (String TAB "") (CollapseWhitespace s) = None ∧
  cut "  " (CollapseWhitespace s) = None ∧
  CollapseWhitespace (CollapseWhitespace s) = CollapseWhitespace s.
Proof.
  pose proof (collapsed_CollapseWhitespace s) as Hc.
  split; [apply CollapseWhitespace_is_squeeze|].
  destruct Hc as (H1 & H2 & H3 & H4). repeat (split; [done|]).
  by apply CollapseWhitespace_collapsed.
Qed.

(** ** Splitting a select list (utils.ts) *)

(** The bracket depth reached after [s] from depth [d], as [SplitByComma]
    counts it (a closing bracket at depth 0 leaves the depth at 0);
    [None] when [s] has a comma at depth 0. *)
Fixpoint nested_commas (d : nat) (s : string) : option nat :=
  match s with
  | "" => Some d
  | String c r =>
      if Ascii.eqb c "(" || Ascii.eqb c "[" then nested_commas (S d) r
      else if Ascii.eqb c ")" || Ascii.eqb c "]" then nested_commas (Nat.pred d) r
      else if Ascii.eqb c "," then
        match d with
        | 0 => None
        | _ => nested_commas d r
        end
      else nested_commas d r
  end.

(** An item of a list: its brackets are closed at its end and its commas
    are inside brackets. *)
Definition list_item (s : string) : Prop := nested_commas 0 s = Some 0.

Lemma app_snoc_cons (a : string) (c : ascii) (b : string) :
  (a +:+ String c "") +:+ b = a +:+ String c b.
Proof. by rewrite <-Str.app_assoc. Qed.

Lemma SplitByComma_item (s rest current : string) (d d' : nat) (result : list string) :
  nested_commas d s = Some d' →
  SplitByComma (s +:+ rest) d current result
  = SplitByComma rest d' (current +:+ s) result.
Proof.
  revert d current. induction s as [|c s IH]; intros d current.
  - cbn. intros [= <-]. by rewrite Str.app_nil_r.
  - cbn [String.append SplitByComma nested_commas].
    destruct (Ascii.eqb c "(" || Ascii.eqb c "[").
    { intros H. by rewrite (IH _ _ H), app_snoc_cons. }
    destruct (Ascii.eqb c ")" || Ascii.eqb c "]").
    { intros H. by rewrite (IH _ _ H), app_snoc_cons. }
    destruct (Ascii.eqb c ",").
    + destruct d as [|d]; [done|].
      intros H. by rewrite (IH _ _ H), app_snoc_cons.
    + intros H. by rewrite (IH _ _ H), app_snoc_cons.
Qed.

(** The items that come out: the last item is dropped when it is empty. *)
Definition without_empty_last (items : list string) : list string :=
  if bool_decide (last items = Some "") then removelast items else items.

Lemma SplitByComma_joined (items result : list string) :
  Forall list_item items →
  SplitByComma (String.concat "," items) 0 "" result
  = result ++ (Trim <$> without_empty_last items).
Proof.
  intros Hitems. revert result.
  induction Hitems as [|i items Hi _ IH]; intros result.
  - cbn. by rewrite app_nil_r.
  - destruct items as [|j items].
    + cbn [String.concat]. rewrite <-(Str.app_nil_r i) at 1.
      rewrite (SplitByComma_item _ _ _ _ _ _ Hi). cbn [SplitByComma String.append].
      unfold without_empty_last. cbn [last].
      destruct (String.eqb_spec i "") as [->|Hne].
      * rewrite bool_decide_eq_true_2 by done. cbn. by rewrite app_nil_r.
      * rewrite bool_decide_eq_false_2 by congruence. done.
    + change (String.concat "," (i :: j :: items))
        with (i +:+ "," +:+ String.concat "," (j :: items)).
      rewrite (SplitByComma_item _ _ _ _ _ _ Hi).
      cbn [SplitByComma String.append Ascii.eqb Bool.eqb orb].
      rewrite IH, <-app_assoc. f_equal. cbn [app]. unfold without_empty_last.
      change (last (i :: j :: items)) with (last (j :: items)).
      destruct (bool_decide (last (j :: items) = Some "")); done.
Qed.

(** X3: splitting undoes joining.  When every item has its brackets
    closed and its commas inside brackets, the comma-joined text splits
    into the trimmed items, except that an empty last item (the text is
    empty or ends in a comma at depth 0) is dropped.  So a comma inside
    parentheses or square brackets never separates, an empty item in the
    middle is kept, and the empty text has no item. *)
Theorem SplitByComma_of_joined (items : list string) :
  Forall list_item items →
  SplitByComma (String.concat "," items) 0 "" []
  = Trim <$> without_empty_last items.
Proof. intros H. by rewrite SplitByComma_joined. Qed.

Lemma SplitByComma_of_joined_witness :
  SplitByComma
    (String.concat ","
       ["cast(x as y) as v"; " parameters['a,b'] "; ""; "f(a, (b, c))]"; ""])
    0 "" []
  = ["cast(x as y) as v"; "parameters['a,b']"; ""; "f(a, (b, c))]"].
Proof.
  rewrite SplitByComma_of_joined by (repeat constructor).
  vm_compute. reflexivity.
Defined.

(** ** Normalization (normalize.ts) *)

(** X4: what the parsers may rely on.  A normalized text has no capital
    letter, no line feed, carriage return or tab, no two adjacent spaces,
    and neither starts nor ends with a white-space character; it is the
    lower-cased text with its runs of white space squeezed and its ends
    trimmed, less one final semicolon. *)
Theorem Normalize_output_shape (s : string) :
  all_chars (λ c, Ascii.eqb (lower_char c) c) (Normalize s) = true ∧
  cut (String LF "") (Normalize s) = None ∧
  cut (String CR "") (Normalize s) = None ∧
  cut (String TAB "") (Normalize s) = None ∧
  cut "  " (Normalize s) = None ∧
  (∀ c r, Normalize s = String c r → WhitespaceChar c = false) ∧
  (∀ r c, Normalize s = r +:+ String c "" → WhitespaceChar c = false) ∧
  Normalize s = StripSemicolon (Trim (squeeze (Lowercase s))).
Proof.
  destruct (normal_Normalize s) as (Hl & (H1 & H2 & H3 & H4) & Hs & He).
  repeat (split; [done|]). split; [|split].
  - intros c r Hr. apply TrimStart_fixed in Hs. by rewrite Hr in Hs.
  - intros r c Hr. apply TrimEnd_fixed in He. by rewrite Hr, unsnoc_app in He.
  - unfold Normalize. by rewrite CollapseWhitespace_is_squeeze.
Qed.

(** X5: the text path does not see letter case, nor the kind and length
    of the runs of white space: two texts that agree after lower-casing
    and squeezing get the same normal form and the same result type. *)
Theorem TypedQuery_case_and_spacing (s t : string) :
  squeeze (Lowercase s) = squeeze (Lowercase t) →
  Normalize s = Normalize t ∧ TypedQuery s = TypedQuery t.
Proof.
  intros H.
  assert (Normalize s = Normalize t) as Hn.
  { unfold Normalize. by rewrite !CollapseWhitespace_is_squeeze, H. }
  split; [done|]. unfold TypedQuery. by rewrite Hn.
Qed.

Lemma TypedQuery_case_and_spacing_witness :
  TypedQuery ("Select" +:+ String TAB "" +:+ "MINER   From  base.blocks")
  = TypedQuery ("select miner" +:+ String LF "" +:+ "from base.blocks").
Proof.
  apply TypedQuery_case_and_spacing. vm_compute. reflexivity.
Defined.

(** ** Aliases of select items (parse-select.ts) *)

Lemma app_inv_head (a x y : string) : a +:+ x = a +:+ y → x = y.
Proof. induction a as [|c a IH]; cbn; [done|]. intros [= H]. by apply IH. Qed.

(** The match of [cut] is the leftmost one. *)
Lemma cut_first (d s A B e a : string) :
  cut d s = Some (A, B) → s = e +:+ d +:+ a → ∃ m, e = A +:+ m.
Proof.
  revert A e. induction s as [|c s IH]; intros A e; cbn [cut].
  - destruct (strip_prefix d "") as [r|] eqn:E; [|done].
    intros [= <- <-] _. by exists e.
  - destruct (strip_prefix d (String c s)) as [r|] eqn:E.
    { intros [= <- <-] _. by exists e. }
    destruct (cut d s) as [[x y]|] eqn:E'; [|done].
    intros [= <- <-] Hs. destruct e as [|c' e].
    + cbn in Hs. apply strip_prefix_Some in Hs. congruence.
    + cbn in Hs. injection Hs as <- Hs.
      destruct (IH x e eq_refl Hs) as [m ->]. by exists m.
Qed.

(** Where a second [ as ] can lie with respect to a first one: at the
    same place, three characters further (the two share a space), or
    after it. *)
Lemma as_overlap (B m a : string) :
  " as " +:+ B = m +:+ " as " +:+ a →
  (m = "" ∧ B = a) ∨ (m = " as" ∧ B = "as " +:+ a) ∨
  (∃ m', m = " as " +:+ m' ∧ B = m' +:+ " as " +:+ a).
Proof.
  destruct m as [|c1 [|c2 [|c3 [|c4 m']]]]; cbn; intros H; simplify_eq.
  - by left.
  - right; left. done.
  - right; right. by exists m'.
Qed.

Lemma strip_suffix_app_None (p x y : string) :
  strip_suffix p (x +:+ y) = None → strip_suffix p y = None.
Proof.
  intros H. destruct (strip_suffix p y) as [r|] eqn:E; [|done].
  apply strip_suffix_Some in E as ->.
  by rewrite Str.app_assoc, strip_suffix_app in H.
Qed.

Lemma FindLastAs_last (prefix rest : string) :
  ∀ e a, rest = e +:+ " as " +:+ a → contains " as " a = false →
         strip_suffix " as" e = None →
         FindLastAs prefix rest
         = {| expr := Trim (prefix +:+ " as " +:+ e); alias := Trim a |}.
Proof.
  funelim (FindLastAs prefix rest); intros e' a' Hrest Ha He; drop_inspect.
  - exfalso. by eapply cut_None.
  - (* the remainder has another [ as ] *)
    destruct (cut_first _ _ _ _ _ _ e Hrest) as [m ->].
    apply cut_Some in e. rewrite e, <-Str.app_assoc in Hrest.
    apply app_inv_head, as_overlap in Hrest as [[-> ->]|[[-> ->]|(m' & -> & ->)]].
    + congruence.
    + by rewrite strip_suffix_app in He.
    + rewrite (H m' a' eq_refl Ha).
      * by rewrite <-!Str.app_assoc.
      * rewrite Str.app_assoc in He. by eapply strip_suffix_app_None.
  - (* it has none *)
    destruct (cut_first _ _ _ _ _ _ e Hrest) as [m ->].
    apply cut_Some in e. rewrite e, <-Str.app_assoc in Hrest.
    apply app_inv_head, as_overlap in Hrest as [[-> ->]|[[-> ->]|(m' & -> & ->)]].
    + by rewrite Str.app_nil_r.
    + by rewrite strip_suffix_app in He.
    + assert (contains " as " (m' +:+ " as " +:+ a') = true)
        by (apply contains_true; eauto).
      congruence.
Qed.

(** The alias of an item is what follows its last [ as ]. *)
Lemma ParseSingleItem_last_as (s e a : string) :
  Trim s = e +:+ " as " +:+ a → contains " as " a = false →
  strip_suffix " as" e = None →
  alias (ParseSingleItem s) = Trim a ∧
  ∃ e1 e2, e = e1 +:+ e2 ∧ expr (ParseSingleItem s) = Trim (Trim e1 +:+ e2) ∧
           (e2 = "" ∨ ∃ r, e2 = " as " +:+ r).
Proof.
  intros Hs Ha He. unfold ParseSingleItem.
  destruct (cut " as " (Trim s)) as [[E Al]|] eqn:Ec;
    [|exfalso; by eapply cut_None].
  destruct (cut_first _ _ _ _ _ _ Ec Hs) as [m ->].
  apply cut_Some in Ec. rewrite Ec, <-Str.app_assoc in Hs.
  apply app_inv_head, as_overlap in Hs as [[-> ->]|[[-> ->]|(m' & -> & ->)]].
  - rewrite Ha. cbn [alias expr]. split; [done|].
    exists E, "". rewrite !Str.app_nil_r.
    split; [done|]. split; [|by left].
    symmetry. apply Trim_trimmed, trimmed_Trim.
  - by rewrite strip_suffix_app in He.
  - assert (contains " as " (m' +:+ " as " +:+ a) = true) as ->
      by (apply contains_true; eauto).
    rewrite (FindLastAs_last _ _ m' a eq_refl Ha).
    + cbn [alias expr]. split; [done|]. exists E, (" as " +:+ m'). eauto.
    + rewrite Str.app_assoc in He. by eapply strip_suffix_app_None.
Qed.

(** In a collapsed and trimmed text, what stands before and after an
    [ as ] is trimmed. *)
Lemma collapsed_before_space (x y : string) :
  collapsed (x +:+ String " " y) →
  match unsnoc x with Some (_, c) => WhitespaceChar c = false | None => True end.
Proof.
  destruct (unsnoc x) as [[r c]|] eqn:E; [|done].
  apply unsnoc_Some in E as ->. rewrite <-Str.app_assoc.
  intros [_ Hc]%collapsed_app. apply collapsed_cons in Hc as (_ & Hws & Hsp).
  destruct (WhitespaceChar c) eqn:Hc; [|done].
  specialize (Hws eq_refl). by destruct (Hsp Hws y).
Qed.

Lemma collapsed_after_space (x y : string) :
  collapsed (x +:+ String " " y) →
  match y with String c _ => WhitespaceChar c = false | "" => True end.
Proof.
  intros [_ Hc]%collapsed_app. apply collapsed_cons in Hc as (Hy & _ & Hsp).
  destruct y as [|c y]; [done|].
  apply collapsed_cons in Hy as (_ & Hws & _).
  destruct (WhitespaceChar c) eqn:Hc; [|done].
  specialize (Hws eq_refl) as ->. by destruct (Hsp eq_refl y).
Qed.

Lemma TrimStart_prefix_fixed (x y : string) :
  TrimStart (x +:+ y) = x +:+ y → TrimStart x = x.
Proof.
  rewrite !TrimStart_fixed. destruct x as [|c x]; [done|]. by cbn.
Qed.

Lemma TrimEnd_suffix_fixed (x y : string) :
  y ≠ "" → TrimEnd (x +:+ y) = x +:+ y → TrimEnd y = y.
Proof.
  rewrite !TrimEnd_fixed. intros Hy.
  destruct (unsnoc y) as [[r c]|] eqn:E; [|by apply unsnoc_None in E].
  apply unsnoc_Some in E as ->. by rewrite Str.app_assoc, unsnoc_app.
Qed.

(** X6: the alias boundary.  When the trimmed item is [e as a], the text
    [a] has no [ as ] and [e] does not end in [ as] (so that this [ as ]
    shares no space with one before it), the alias is [a], trimmed,
    whatever [ as ] the expression [e] has inside; when the item has no
    white space but single spaces, as after normalization, the result is
    exactly [e] and [a]. *)
Theorem ParseSingleItem_splits_at_last_as (s e a : string) :
  Trim s = e +:+ " as " +:+ a → contains " as " a = false →
  strip_suffix " as" e = None →
  alias (ParseSingleItem s) = Trim a ∧
  (collapsed (Trim s) → ParseSingleItem s = {| expr := e; alias := a |}).
Proof.
  intros Hs Ha He.
  destruct (ParseSingleItem_last_as s e a Hs Ha He)
    as (Hal & e1 & e2 & -> & Hex & He2).
  split; [done|]. intros Hc.
  destruct (trimmed_Trim s) as [Hstart Hend]. rewrite Hs in Hc, Hstart, Hend.
  assert (∀ x, TrimStart x = x → TrimEnd x = x → Trim x = x) as Htrim
    by (intros x ??; by apply Trim_trimmed).
  (* the alias *)
  assert (Trim a = a) as Ha'.
  { destruct a as [|c a]; [done|]. apply Htrim.
    - apply TrimStart_fixed.
      change ((e1 +:+ e2) +:+ " as " +:+ String c a)
        with ((e1 +:+ e2) +:+ " as" +:+ String " " (String c a)) in Hc.
      rewrite Str.app_assoc in Hc. by apply collapsed_after_space in Hc.
    - rewrite !Str.app_assoc in Hend. by apply TrimEnd_suffix_fixed in Hend. }
  (* the expression *)
  assert (∀ x y, collapsed (x +:+ " as " +:+ y) →
                 TrimStart (x +:+ " as " +:+ y) = x +:+ " as " +:+ y →
                 Trim x = x) as Hbefore.
  { intros x y Hxc Hxs. apply Htrim.
    - by apply TrimStart_prefix_fixed in Hxs.
    - apply TrimEnd_fixed. by apply (collapsed_before_space x ("as " +:+ y)). }
  assert (Trim e1 = e1) as He1.
  { destruct He2 as [->|[r ->]].
    - rewrite Str.app_nil_r in *. by apply (Hbefore e1 a).
    - rewrite <-!Str.app_assoc in Hc, Hstart.
      by apply (Hbefore e1 (r +:+ " as " +:+ a)). }
  destruct (ParseSingleItem s) as [ex al]. cbn [expr alias] in *.
  f_equal; [|congruence].
  rewrite Hex, He1. by apply (Hbefore (e1 +:+ e2) a).
Qed.

Lemma ParseSingleItem_splits_at_last_as_witness :
  ParseSingleItem " cast(a as uint64) as as_of as x "
  = {| expr := "cast(a as uint64) as as_of"; alias := "x" |}.
Proof.
  apply (ParseSingleItem_splits_at_last_as _ "cast(a as uint64) as as_of" "x");
    vm_compute; repeat split; reflexivity.
Defined.

(** ** The select list (parse-select.ts) *)

Lemma strip_suffix_nil (r : string) : strip_suffix "" r = Some r.
Proof. apply strip_suffix_Some. by rewrite Str.app_nil_r. Qed.

Lemma split_at_prefix (pre mid s : string) :
  split_at pre mid "" s = (r ← strip_prefix pre s; cut mid r).
Proof.
  unfold split_at, between. destruct (strip_prefix pre s) as [r|]; [|done].
  cbn. by rewrite strip_suffix_nil.
Qed.

(** X7: a select list is found exactly in a text of the form
    [select <cols> from <rest>]; a text with a select list has a table
    name; the list is the text up to the first [ from ], trimmed, and the
    word [distinct] after [select] is not part of it. *)
Theorem ExtractSelectList_shape (s : string) :
  (is_Some (ExtractSelectList s) ↔
     ∃ cols rest, s = "select " +:+ cols +:+ " from " +:+ rest) ∧
  (is_Some (ExtractSelectList s) → is_Some (ExtractTableName s)) ∧
  (∀ cols rest,
     cut " from " (cols +:+ " from " +:+ rest) = Some (cols, rest) →
     (s = "select distinct " +:+ cols +:+ " from " +:+ rest →
        ExtractSelectList s = Some (Trim cols)) ∧
     (s = "select " +:+ cols +:+ " from " +:+ rest →
      strip_prefix "distinct " (cols +:+ " from " +:+ rest) = None →
        ExtractSelectList s = Some (Trim cols))).
Proof.
  assert (is_Some (ExtractSelectList s) ↔
          ∃ cols rest, s = "select " +:+ cols +:+ " from " +:+ rest) as Hshape.
  { unfold ExtractSelectList. rewrite !split_at_prefix. split.
    - destruct (strip_prefix "select distinct " s) as [r|] eqn:E;
        cbn [mbind option_bind].
      + apply strip_prefix_Some in E as ->.
        destruct (cut " from " r) as [[c x]|] eqn:Ec.
        * intros _. apply cut_Some in Ec as ->. by exists ("distinct " +:+ c), x.
        * change (strip_prefix "select " ("select distinct " +:+ r))
            with (Some ("distinct " +:+ r)).
          cbn [mbind option_bind].
          destruct (cut " from " ("distinct " +:+ r)) as [[c x]|] eqn:Ec';
            [|by intros ?%is_Some_None].
          intros _. apply cut_Some in Ec'. exists c, x. by rewrite <-Ec'.
      + destruct (strip_prefix "select " s) as [r|] eqn:E'; cbn [mbind option_bind];
          [|by intros ?%is_Some_None].
        apply strip_prefix_Some in E' as ->.
        destruct (cut " from " r) as [[c x]|] eqn:Ec; [|by intros ?%is_Some_None].
        intros _. apply cut_Some in Ec as ->. by exists c, x.
    - intros (cols & rest & ->).
      destruct (_ ≫= _) as [[c x]|]; [done|].
      rewrite strip_prefix_app. cbn [mbind option_bind].
      destruct (cut " from " _) as [[c x]|] eqn:Ec; [done|].
      exfalso. by eapply cut_None. }
  split; [done|]. split; [|].
  - intros (cols & rest & ->)%Hshape. unfold ExtractTableName.
    destruct (cut " from " _) as [[c x]|] eqn:Ec; [done|].
    exfalso. eapply (cut_None _ _ Ec ("select " +:+ cols) rest).
    by rewrite <-!Str.app_assoc.
  - intros cols rest Hfirst. split.
    + intros ->. unfold ExtractSelectList. rewrite split_at_prefix.
      rewrite strip_prefix_app. cbn [mbind option_bind]. by rewrite Hfirst.
    + intros -> Hd. unfold ExtractSelectList. rewrite !split_at_prefix.
      change (strip_prefix "select distinct " ("select " +:+ ?x))
        with (strip_prefix "distinct " x).
      rewrite Hd. cbn [mbind option_bind].
      rewrite strip_prefix_app. cbn [mbind option_bind]. by rewrite Hfirst.
Qed.

Lemma ExtractSelectList_shape_witness :
  ExtractSelectList "select distinct a, b from t" = Some "a, b" ∧
  ExtractSelectList "select  miner  from base.blocks" = Some "miner" ∧
  is_Some (ExtractTableName "select a from t where x from y").
Proof.
  split; [|split].
  - destruct (ExtractSelectList_shape "select distinct a, b from t")
      as (_ & _ & H).
    destruct (H "a, b" "t") as [-> _]; vm_compute; reflexivity.
  - destruct (ExtractSelectList_shape "select  miner  from base.blocks")
      as (_ & _ & H).
    destruct (H " miner " "base.blocks") as [_ ->]; vm_compute; reflexivity.
  - destruct (ExtractSelectList_shape "select a from t where x from y")
      as (H1 & H2 & _).
    apply H2, H1. by exists "a", "t where x from y".
Defined.

(** ** The table names of a query (parse-from.ts) *)

(** A word: a non-empty text without white space. *)
Definition word (t : string) : Prop :=
  t ≠ "" ∧ all_chars (λ c, negb (WhitespaceChar c)) t = true.

Lemma all_chars_impl (P Q : ascii → bool) (s : string) :
  (∀ c, P c = true → Q c = true) → all_chars P s = true → all_chars Q s = true.
Proof.
  intros HPQ. induction s as [|c s IH]; cbn; [done|].
  intros [Hc Hs]%andb_true_iff. by rewrite (HPQ c Hc), IH.
Qed.

Lemma word_no_space (t : string) :
  word t → all_chars (λ x, negb (Ascii.eqb " " x)) t = true.
Proof.
  intros [_ H]. revert H. apply all_chars_impl. intros c. unfold WhitespaceChar.
  rewrite (Ascii.eqb_sym " " c). by destruct (Ascii.eqb c " ").
Qed.

(** A text without the first character of [d] has no [d], and is skipped
    by the search for [d]. *)
Lemma cut_skip (c : ascii) (d t x : string) :
  all_chars (λ y, negb (Ascii.eqb c y)) t = true →
  cut (String c d) (t +:+ x)
  = match cut (String c d) x with
    | Some (a, b) => Some (t +:+ a, b)
    | None => None
    end.
Proof.
  induction t as [|y t IH]; cbn [all_chars String.append].
  - intros _. by destruct (cut _ x) as [[??]|].
  - intros [Hy Ht]%andb_true_iff. apply negb_true_iff in Hy.
    cbn [cut strip_prefix]. rewrite Hy, (IH Ht).
    by destruct (cut _ x) as [[??]|].
Qed.

Lemma cut_absent (c : ascii) (d t : string) :
  all_chars (λ y, negb (Ascii.eqb c y)) t = true → cut (String c d) t = None.
Proof.
  intros H. rewrite <-(Str.app_nil_r t), (cut_skip c d t "" H). by cbn.
Qed.

Lemma all_chars_last (P : ascii → bool) (t r : string) (c : ascii) :
  all_chars P t = true → unsnoc t = Some (r, c) → P c = true.
Proof.
  intros H ->%unsnoc_Some. rewrite all_chars_app in H.
  apply andb_true_iff in H as [_ H]. cbn in H. by rewrite andb_true_r in H.
Qed.

Lemma TrimEnd_word (t : string) : word t → TrimEnd t = t.
Proof.
  intros [_ H]. apply TrimEnd_fixed.
  destruct (unsnoc t) as [[r c]|] eqn:E; [|done].
  apply negb_true_iff.
  by apply (all_chars_last (λ c, negb (WhitespaceChar c)) t r c).
Qed.

Lemma TrimEnd_word_app (t x : string) :
  word t → TrimEnd (t +:+ x) = t +:+ TrimEnd x.
Proof.
  intros Ht. funelim (TrimEnd x); drop_inspect.
  - apply unsnoc_None in e as ->. rewrite Str.app_nil_r. by apply TrimEnd_word.
  - apply unsnoc_Some in e as ->.
    rewrite (TrimEnd_eq (t +:+ _)), Str.app_assoc, unsnoc_app, Heq. by apply H.
  - apply unsnoc_Some in e as ->.
    by rewrite (TrimEnd_eq (t +:+ _)), Str.app_assoc, unsnoc_app, Heq.
Qed.

Lemma TrimStart_word_app (t x : string) : word t → TrimStart (t +:+ x) = t +:+ x.
Proof.
  intros [Hne H]. destruct t as [|c t]; [done|]. cbn in *.
  apply andb_true_iff in H as [Hc%negb_true_iff _]. by rewrite Hc.
Qed.

Lemma Trim_word_app (t x : string) : word t → Trim (t +:+ x) = t +:+ TrimEnd x.
Proof.
  intros Ht. unfold Trim. by rewrite TrimEnd_word_app, TrimStart_word_app.
Qed.

(** What follows a word: nothing, or a space and more. *)
Definition after_word (x : string) : Prop := x = "" ∨ ∃ r, x = String " " r.

Lemma after_word_prefix (x y : string) : after_word (x +:+ y) → after_word x.
Proof.
  intros [H|[r H]].
  - left. by apply Str.app_eq_nil in H as [-> _].
  - destruct x as [|c x]; [by left|]. right. cbn in H. injection H as -> _.
    by exists x.
Qed.

Lemma after_word_TrimEnd (x : string) : after_word x → after_word (TrimEnd x).
Proof.
  destruct (TrimEnd_prefix x) as [w Hw]. rewrite Hw at 1.
  apply after_word_prefix.
Qed.

Lemma StripAlias_word (t x : string) :
  word t → after_word x → StripAlias (Trim (t +:+ x)) = t.
Proof.
  intros Ht Hx. rewrite (Trim_word_app _ _ Ht). unfold StripAlias.
  destruct (after_word_TrimEnd x Hx) as [->|[r ->]].
  - rewrite Str.app_nil_r. by rewrite (cut_absent " " "" t (word_no_space t Ht)).
  - by rewrite (cut_single_first " " t r (cut_absent " " "" t (word_no_space t Ht))).
Qed.

Lemma cut_keyword_word (k t x T y : string) :
  word t → after_word x →
  cut (String " " k) (t +:+ x) = Some (T, y) →
  ∃ x', T = t +:+ x' ∧ after_word x'.
Proof.
  intros Ht Hx. rewrite (cut_skip " " k t x (word_no_space t Ht)).
  destruct (cut (String " " k) x) as [[a b]|] eqn:E; [|done].
  intros [= <- <-]. exists a. split; [done|].
  apply cut_Some in E. rewrite E in Hx. by apply after_word_prefix in Hx.
Qed.

Lemma StripAfterKeyword_go_word (kws : list string) (t x : string) :
  Forall (λ kw, ∃ k, kw = String " " k) kws → word t → after_word x →
  StripAfterKeyword_go kws (t +:+ x) = t.
Proof.
  intros Hkws Ht Hx. induction Hkws as [|kw kws [k ->] _ IH];
    cbn [StripAfterKeyword_go].
  - by apply StripAlias_word.
  - destruct (cut (String " " k) (t +:+ x)) as [[T y]|] eqn:E; [|done].
    destruct (cut_keyword_word _ _ _ _ _ Ht Hx E) as (x' & -> & Hx').
    by apply StripAlias_word.
Qed.

Lemma StripAfterKeyword_word (t x : string) :
  word t → after_word x → StripAfterKeyword (Trim (t +:+ x)) = t.
Proof.
  intros Ht Hx. rewrite (Trim_word_app _ _ Ht).
  apply StripAfterKeyword_go_word; [|done|by apply after_word_TrimEnd].
  unfold clause_keywords. repeat constructor; by eexists.
Qed.

Lemma ExtractTableName_word (s pre t x : string) :
  cut " from " s = Some (pre, t +:+ x) → word t → after_word x →
  ExtractTableName s = Some t.
Proof.
  intros Hs Ht Hx. unfold ExtractTableName. rewrite Hs.
  by rewrite StripAfterKeyword_word.
Qed.

Lemma ExtractJoinedTableName_word (s pre t x : string) :
  cut " join " s = Some (pre, t +:+ x) → word t → after_word x →
  ExtractJoinedTableName s = Some t ∧ HasJoin s = true.
Proof.
  intros Hs Ht Hx. split.
  - unfold ExtractJoinedTableName. rewrite Hs.
    destruct (cut " on " (t +:+ x)) as [[T y]|] eqn:E.
    + destruct (cut_keyword_word _ _ _ _ _ Ht Hx E) as (x' & -> & Hx').
      by rewrite StripAlias_word.
    + by rewrite StripAfterKeyword_word.
  - unfold HasJoin, contains. rewrite Hs. by apply bool_decide_eq_true_2.
Qed.

(** X8: the table of a query is the first word after the first [ from ],
    whatever follows it: an alias, a clause of any kind, or nothing.  The
    keywords of [StripAfterKeyword] never cut into that word. *)
Theorem ExtractTableName_first_word (s pre t x : string) :
  cut " from " s = Some (pre, t +:+ x) → word t → after_word x →
  ExtractTableName s = Some t.
Proof. apply ExtractTableName_word. Qed.

Lemma ExtractTableName_first_word_witness :
  ExtractTableName "select a from base.blocks b left join base.events e on x where y"
  = Some "base.blocks" ∧
  ExtractTableName "select a from (select b from base.blocks)" = Some "(select".
Proof.
  split.
  - apply (ExtractTableName_first_word _ "select a" "base.blocks"
             " b left join base.events e on x where y");
      [vm_compute; reflexivity|by split|right; by eexists].
  - apply (ExtractTableName_first_word _ "select a" "(select" " b from base.blocks)");
      [vm_compute; reflexivity|by split|right; by eexists].
Defined.

(** X9: the joined table is the first word after the first [ join ],
    with or without an [ on ] condition, and a text in which a joined
    table is found is a text that [HasJoin] accepts: tables of later joins
    are not looked at. *)
Theorem ExtractJoinedTableName_first_word (s pre t x : string) :
  cut " join " s = Some (pre, t +:+ x) → word t → after_word x →
  ExtractJoinedTableName s = Some t ∧ HasJoin s = true.
Proof. apply ExtractJoinedTableName_word. Qed.

Lemma ExtractJoinedTableName_first_word_witness :
  ExtractJoinedTableName
    "select * from blocks b join events e on b.x = e.x join transfers t on t.x = e.x"
  = Some "events" ∧
  HasJoin
    "select * from blocks b join events e on b.x = e.x join transfers t on t.x = e.x"
  = true.
Proof.
  apply (ExtractJoinedTableName_first_word _ "select * from blocks b" "events"
           " e on b.x = e.x join transfers t on t.x = e.x");
    [vm_compute; reflexivity|by split|right; by eexists].
Defined.

(** ** Rows of joins (index.ts) *)

(** X10: the row of a query with a join.  When the first word after
    [ from ] names the table [A] and the first word after [ join ] names
    the table [B], the select list is resolved against the merge of the
    two schemas, and [select *] has the columns of both; when the joined
    word names no table of the catalog, against [A] alone; and so it is
    when the text has no [ join ]. *)
Theorem InferRow_join (s pre a x list : string) (A : Schema) :
  cut " from " s = Some (pre, a +:+ x) → word a → after_word x →
  TableSchemas !! a = Some A → ExtractSelectList s = Some list →
  let row schema :=
    if IsSelectStar list then FullRow schema
    else ResolveRow (ParseSelectItems list) schema in
  (HasJoin s = false → InferRow s = row A) ∧
  (∀ pre' b y,
     cut " join " s = Some (pre', b +:+ y) → word b → after_word y →
     InferRow s = row (match TableSchemas !! b with
                       | Some B => MergeSchemas A B
                       | None => A
                       end)).
Proof.
  intros Hs Ha Hx HA Hlist row.
  pose proof (ExtractTableName_word _ _ _ _ Hs Ha Hx) as Ht.
  unfold InferRow. rewrite Ht, HA, Hlist. split.
  - intros Hj. unfold ResolveSchema. by rewrite Hj.
  - intros pre' b y Hb Hbw Hy.
    destruct (ExtractJoinedTableName_word _ _ _ _ Hb Hbw Hy) as [Hjt Hj].
    unfold ResolveSchema. rewrite Hj, Hjt. cbn [mbind option_bind].
    by destruct (TableSchemas !! b).
Qed.

Lemma InferRow_join_witness :
  InferRow "select * from blocks b join events e on b.block_number = e.block_number"
  = FullRow (MergeSchemas BlocksSchema EventsSchema) ∧
  InferRow "select miner from blocks b join recent r on b.block_number = r.n"
  = Intersection [("miner", THexString)].
Proof.
  split.
  - destruct (InferRow_join
                "select * from blocks b join events e on b.block_number = e.block_number"
                "select *" "blocks" " b join events e on b.block_number = e.block_number"
                "*" BlocksSchema) as [_ H];
      [vm_compute; reflexivity|by split|right; by eexists
      |reflexivity|vm_compute; reflexivity|].
    rewrite (H "select * from blocks b" "events"
               " e on b.block_number = e.block_number");
      [|vm_compute; reflexivity|by split|right; by eexists].
    reflexivity.
  - destruct (InferRow_join
                "select miner from blocks b join recent r on b.block_number = r.n"
                "select miner" "blocks" " b join recent r on b.block_number = r.n"
                "miner" BlocksSchema) as [_ H];
      [vm_compute; reflexivity|by split|right; by eexists
      |reflexivity|vm_compute; reflexivity|].
    rewrite (H "select miner from blocks b" "recent" " r on b.block_number = r.n");
      [vm_compute; reflexivity|vm_compute; reflexivity|by split|right; by eexists].
Defined.

(** ** Container types (sql-types.ts) *)

Lemma MapSqlType_eq (t : string) :
  MapSqlType t =
    match MapSqlType_case t with
    | IsType ty => ty
    | IsNullable inner => ts_union (MapSqlType (Trim inner)) TNull
    | IsArray inner => TArray (MapSqlType (Trim inner))
    | IsMap rest =>
        match ParseMapType_value (Trim rest) with
        | Some v => TRecord (MapSqlType (Trim v))
        | None => TRecord TUnknown
        end
    end.
Proof.
  funelim (MapSqlType t);
    match goal with E : MapSqlType_case _ = _ |- _ => rewrite E end;
    try done.
  all: match goal with E : ParseMapType_value _ = _ |- _ => by rewrite E end.
Qed.

Lemma between_app (pre post x : string) :
  between pre post (pre +:+ x +:+ post) = Some x.
Proof.
  unfold between. rewrite strip_prefix_app. cbn [mbind option_bind].
  apply strip_suffix_app.
Qed.

(** X11: the container types.  [nullable(X)] is the type of [X] or
    [null], [array(X)] an array of the type of [X], [map(K, V)] a record
    of the type of [V] whatever [K] is, and white space around [X] and
    [V] is ignored.  The key and the value of a map are separated at the
    first comma followed by a space: a map written without that space is
    a record of [unknown].  [variant(...)] is the variant whatever its
    members, and every text that starts with [datetime64] or [enum8] is a
    string or a number. *)
Theorem MapSqlType_containers :
  (∀ x, MapSqlType ("nullable(" +:+ x +:+ ")") = ts_union (MapSqlType (Trim x)) TNull) ∧
  (∀ x, MapSqlType ("array(" +:+ x +:+ ")") = TArray (MapSqlType (Trim x))) ∧
  (∀ k v, contains "," k = false →
          Trim (k +:+ ", " +:+ v) = k +:+ ", " +:+ v →
          MapSqlType ("map(" +:+ k +:+ ", " +:+ v +:+ ")")
          = TRecord (MapSqlType (Trim v))) ∧
  (∀ x, contains ", " (Trim x) = false →
        MapSqlType ("map(" +:+ x +:+ ")") = TRecord TUnknown) ∧
  (∀ x, MapSqlType ("variant(" +:+ x +:+ ")") = TVariant) ∧
  (∀ x, MapSqlType ("datetime64" +:+ x) = TString) ∧
  (∀ x, MapSqlType ("enum8" +:+ x) = TNumber).
Proof.
  assert (∀ x, MapSqlType_case ("map(" +:+ x +:+ ")") = IsMap x) as Hmap.
  { intros x. unfold MapSqlType_case.
    rewrite (between_app "map(" ")" x). done. }
  split; [|split; [|split; [|split; [|split; [|split]]]]].
  - intros x. rewrite MapSqlType_eq. unfold MapSqlType_case.
    by rewrite (between_app "nullable(" ")" x).
  - intros x. rewrite MapSqlType_eq. unfold MapSqlType_case.
    by rewrite (between_app "array(" ")" x).
  - intros k v Hk%contains_false Htrim. rewrite MapSqlType_eq.
    replace ("map(" +:+ k +:+ ", " +:+ v +:+ ")")
      with ("map(" +:+ (k +:+ ", " +:+ v) +:+ ")")
      by by rewrite <-!Str.app_assoc.
    rewrite Hmap, Htrim. unfold ParseMapType_value.
    change (k +:+ ", " +:+ v) with (k +:+ String "," (" " +:+ v)).
    by rewrite (cut_after_clean_prefix "," " " k v Hk).
  - intros x Hx%contains_false. rewrite MapSqlType_eq, Hmap.
    unfold ParseMapType_value. by rewrite Hx.
  - intros x. rewrite MapSqlType_eq. unfold MapSqlType_case.
    by rewrite (between_app "variant(" ")" x).
  - intros x. rewrite MapSqlType_eq. unfold MapSqlType_case.
    by rewrite (strip_prefix_app "datetime64" x).
  - intros x. rewrite MapSqlType_eq. unfold MapSqlType_case.
    by rewrite (strip_prefix_app "enum8" x).
Qed.

Lemma MapSqlType_containers_witness :
  MapSqlType ("map(" +:+ "string" +:+ ", " +:+ "array(nullable( hex ))" +:+ ")")
  = TRecord (TArray (TUnion THexString TNull)) ∧
  MapSqlType ("map(" +:+ "string,string" +:+ ")") = TRecord TUnknown.
Proof.
  destruct MapSqlType_containers as (_ & _ & Hm & Hn & _).
  split.
  - rewrite Hm; vm_compute; reflexivity.
  - rewrite Hn; vm_compute; reflexivity.
Defined.

(** ** Expressions (parse-expressions.ts) *)

(** Two texts that differ at the same distance from their ends. *)
Lemma strip_suffix_other (c1 c2 : ascii) (p q y : string) :
  c1 ≠ c2 → strip_suffix (p +:+ String c1 q) (y +:+ String c2 q) = None.
Proof.
  intros Hne. destruct (strip_suffix _ _) as [r|] eqn:E; [|done].
  apply strip_suffix_Some in E.
  assert ((y +:+ String c2 "") +:+ q = ((r +:+ p) +:+ String c1 "") +:+ q) as E'
    by by rewrite <-!Str.app_assoc.
  apply Str.app_inv_tail, (f_equal unsnoc) in E'.
  rewrite !unsnoc_app in E'. congruence.
Qed.

(** The rules that remain for a text that is no column and has no dot. *)
Definition ResolveExpression_plain (e : string) (schema : Schema) : ResolveCase :=
  match split_at "" "['" "']" e with
  | Some (col, _) => Resolved (MapValueOf schema col)
  | None =>
  match split_at "" (String "[" (String DQ "")) (String DQ "]") e with
  | Some (col, _) => Resolved (MapValueOf schema col)
  | None =>
  match between "cast(" ")" e with
  | Some inner =>
      match cut " as " inner with
      | Some (_, target) => Resolved (MapSqlType (Trim target))
      | None => Resolved TUnknown
      end
  | None =>
  if bool_decide (is_Some (between "count(" ")" e)) then Resolved TNumericString
  else if bool_decide (is_Some (between "sum(" ")" e)) then Resolved TNumericString
  else if bool_decide (is_Some (between "avg(" ")" e)) then Resolved TNumber
  else match between "min(" ")" e with
  | Some inner => Recurse (Trim inner)
  | None =>
  match between "max(" ")" e with
  | Some inner => Recurse (Trim inner)
  | None => Resolved TUnknown
  end end end end end.

Lemma ResolveExpression_case_plain (e : string) (schema : Schema) :
  schema !! e = None → contains "." e = false →
  ResolveExpression_case e schema = ResolveExpression_plain e schema.
Proof.
  intros Hcol Hdot%contains_false. unfold ResolveExpression_case.
  by rewrite Hcol, Hdot.
Qed.

(** A text that ends in a parenthesis is no map access. *)
Lemma split_at_bracket_paren (mid p x : string) :
  split_at "" mid (p +:+ "]") (x +:+ ")") = None.
Proof.
  unfold split_at, between. cbn [strip_prefix mbind option_bind].
  by rewrite (strip_suffix_other_last "]" ")" p x).
Qed.

Lemma ResolveExpression_plain_paren (e y : string) (schema : Schema) :
  e = y +:+ ")" →
  ResolveExpression_plain e schema =
    match between "cast(" ")" e with
    | Some inner =>
        match cut " as " inner with
        | Some (_, target) => Resolved (MapSqlType (Trim target))
        | None => Resolved TUnknown
        end
    | None =>
    if bool_decide (is_Some (between "count(" ")" e)) then Resolved TNumericString
    else if bool_decide (is_Some (between "sum(" ")" e)) then Resolved TNumericString
    else if bool_decide (is_Some (between "avg(" ")" e)) then Resolved TNumber
    else match between "min(" ")" e with
    | Some inner => Recurse (Trim inner)
    | None =>
    match between "max(" ")" e with
    | Some inner => Recurse (Trim inner)
    | None => Resolved TUnknown
    end end end.
Proof.
  intros ->. unfold ResolveExpression_plain.
  rewrite (split_at_bracket_paren "['" "'").
  by rewrite (split_at_bracket_paren (String "[" (String DQ "")) (String DQ "")).
Qed.

Lemma ResolveExpression_plain_eq (e : string) (schema : Schema) :
  schema !! e = None → contains "." e = false →
  ResolveExpression e schema =
    match ResolveExpression_plain e schema with
    | Resolved ty => ty
    | Recurse next => ResolveExpression next schema
    end.
Proof.
  intros Hcol Hdot. by rewrite ResolveExpression_eq, ResolveExpression_case_plain.
Qed.

Lemma call_paren (pre x : string) : pre +:+ x +:+ ")" = (pre +:+ x) +:+ ")".
Proof. by rewrite Str.app_assoc. Qed.

(** X12: the aggregates.  For a call that is not itself a column name and
    has no dot anywhere, [count] and [sum] give a numeric string and
    [avg] a number whatever the argument is, and [min] and [max] give the
    type of their trimmed argument. *)
Theorem ResolveExpression_aggregates (x : string) (schema : Schema) :
  let plain e := schema !! e = None ∧ contains "." e = false in
  (plain ("count(" +:+ x +:+ ")") →
     ResolveExpression ("count(" +:+ x +:+ ")") schema = TNumericString) ∧
  (plain ("sum(" +:+ x +:+ ")") →
     ResolveExpression ("sum(" +:+ x +:+ ")") schema = TNumericString) ∧
  (plain ("avg(" +:+ x +:+ ")") →
     ResolveExpression ("avg(" +:+ x +:+ ")") schema = TNumber) ∧
  (plain ("min(" +:+ x +:+ ")") →
     ResolveExpression ("min(" +:+ x +:+ ")") schema
     = ResolveExpression (Trim x) schema) ∧
  (plain ("max(" +:+ x +:+ ")") →
     ResolveExpression ("max(" +:+ x +:+ ")") schema
     = ResolveExpression (Trim x) schema).
Proof.
  cbn zeta. split; [|split; [|split; [|split]]]; intros [Hcol Hdot].
  all: rewrite (ResolveExpression_plain_eq _ _ Hcol Hdot).
  all: rewrite (ResolveExpression_plain_paren _ _ schema (call_paren _ x)).
  - change (between "cast(" ")" ("count(" +:+ x +:+ ")")) with (@None string).
    by rewrite (between_app "count(" ")" x).
  - change (between "cast(" ")" ("sum(" +:+ x +:+ ")")) with (@None string).
    change (between "count(" ")" ("sum(" +:+ x +:+ ")")) with (@None string).
    by rewrite (between_app "sum(" ")" x).
  - change (between "cast(" ")" ("avg(" +:+ x +:+ ")")) with (@None string).
    change (between "count(" ")" ("avg(" +:+ x +:+ ")")) with (@None string).
    change (between "sum(" ")" ("avg(" +:+ x +:+ ")")) with (@None string).
    by rewrite (between_app "avg(" ")" x).
  - change (between "cast(" ")" ("min(" +:+ x +:+ ")")) with (@None string).
    change (between "count(" ")" ("min(" +:+ x +:+ ")")) with (@None string).
    change (between "sum(" ")" ("min(" +:+ x +:+ ")")) with (@None string).
    change (between "avg(" ")" ("min(" +:+ x +:+ ")")) with (@None string).
    by rewrite (between_app "min(" ")" x).
  - change (between "cast(" ")" ("max(" +:+ x +:+ ")")) with (@None string).
    change (between "count(" ")" ("max(" +:+ x +:+ ")")) with (@None string).
    change (between "sum(" ")" ("max(" +:+ x +:+ ")")) with (@None string).
    change (between "avg(" ")" ("max(" +:+ x +:+ ")")) with (@None string).
    change (between "min(" ")" ("max(" +:+ x +:+ ")")) with (@None string).
    by rewrite (between_app "max(" ")" x).
Qed.

Lemma ResolveExpression_aggregates_witness :
  ResolveExpression ("sum(" +:+ "gas_used + 1" +:+ ")") BlocksSchema
    = TNumericString ∧
  ResolveExpression ("max(" +:+ " miner " +:+ ")") BlocksSchema = THexString.
Proof.
  destruct (ResolveExpression_aggregates "gas_used + 1" BlocksSchema)
    as (_ & Hsum & _).
  destruct (ResolveExpression_aggregates " miner " BlocksSchema)
    as (_ & _ & _ & _ & Hmax).
  split.
  - apply Hsum. split; vm_compute; reflexivity.
  - rewrite Hmax; [|split; vm_compute; reflexivity]. vm_compute. reflexivity.
Defined.

Lemma cut_char_app_None (c : ascii) (x y : string) :
  cut (String c "") x = None → cut (String c "") y = None →
  cut (String c "") (x +:+ y) = None.
Proof.
  intros Hx Hy. induction x as [|a x IH]; [done|].
  cbn [cut strip_prefix String.append] in *.
  destruct (Ascii.eqb c a); [done|].
  destruct (cut (String c "") x) as [[??]|]; [done|]. by rewrite IH.
Qed.

(** A pattern with a character that the text does not have does not
    match. *)
Lemma between_needs_char (c : ascii) (a b post s : string) :
  cut (String c "") s = None → between (a +:+ String c b) post s = None.
Proof.
  intros Hs. destruct (between _ post s) as [x|] eqn:E; [|done].
  apply between_Some in E. exfalso.
  apply (cut_None _ _ Hs a (b +:+ x +:+ post)). by rewrite E, <-!Str.app_assoc.
Qed.

Lemma between_suffix_None (pre post s : string) :
  strip_suffix post s = None → between pre post s = None.
Proof.
  intros Hs. destruct (between pre post s) as [x|] eqn:E; [|done].
  apply between_Some in E. rewrite Str.app_assoc in E.
  by rewrite E, strip_suffix_app in Hs.
Qed.

(** The value type of a map column; [unknown] for a column that the
    schema does not have or that is no map. *)
Lemma MapValueOf_cases (schema : Schema) (col : string) :
  (schema !! col = None → MapValueOf schema col = TUnknown) ∧
  (∀ u v, schema !! col = Some u → MapColumnType u = TRecord v →
          MapValueOf schema col = v) ∧
  (∀ u, schema !! col = Some u → record_value (MapColumnType u) = None →
        MapValueOf schema col = TUnknown).
Proof.
  unfold MapValueOf. split; [by intros ->|]. split.
  - by intros u v -> ->.
  - by intros u -> ->.
Qed.

(** X13: map access.  For a column name without a bracket, [col['key']]
    and [col["key"]] (not column names themselves, and without a dot)
    have the value type of the map column [col], whatever the key is:
    [unknown] when the schema has no such column or the column is no
    map. *)
Theorem ResolveExpression_map_access (col key : string) (schema : Schema) :
  contains "[" col = false →
  let single := col +:+ "['" +:+ key +:+ "']" in
  let double := col +:+ String "[" (String DQ "") +:+ key +:+ String DQ "]" in
  (schema !! single = None → contains "." single = false →
     ResolveExpression single schema = MapValueOf schema col) ∧
  (schema !! double = None → contains "." double = false →
     ResolveExpression double schema = MapValueOf schema col) ∧
  (schema !! col = None → MapValueOf schema col = TUnknown) ∧
  (∀ u v, schema !! col = Some u → MapColumnType u = TRecord v →
          MapValueOf schema col = v) ∧
  (∀ u, schema !! col = Some u → record_value (MapColumnType u) = None →
        MapValueOf schema col = TUnknown).
Proof.
  intros Hcol%contains_false. cbn zeta. split; [|split; [|apply MapValueOf_cases]].
  - intros Hk Hdot. rewrite (ResolveExpression_plain_eq _ _ Hk Hdot).
    unfold ResolveExpression_plain, split_at, between.
    cbn [strip_prefix mbind option_bind].
    replace (col +:+ "['" +:+ key +:+ "']") with ((col +:+ "['" +:+ key) +:+ "']")
      by by rewrite <-!Str.app_assoc.
    rewrite strip_suffix_app. cbn [mbind option_bind].
    change (col +:+ "['" +:+ key) with (col +:+ String "[" ("'" +:+ key)).
    by rewrite (cut_after_clean_prefix "[" "'" col key Hcol).
  - intros Hk Hdot. rewrite (ResolveExpression_plain_eq _ _ Hk Hdot).
    unfold ResolveExpression_plain, split_at, between.
    cbn [strip_prefix mbind option_bind].
    replace (col +:+ String "[" (String DQ "") +:+ key +:+ String DQ "]")
      with ((col +:+ String "[" (String DQ "") +:+ key) +:+ String DQ "]")
      by by rewrite <-!Str.app_assoc.
    rewrite (strip_suffix_other "'" DQ "" "]") by done.
    rewrite strip_suffix_app. cbn [mbind option_bind].
    change (col +:+ String "[" (String DQ "") +:+ key)
      with (col +:+ String "[" (String DQ "" +:+ key)).
    by rewrite (cut_after_clean_prefix "[" (String DQ "") col key Hcol).
Qed.

Lemma ResolveExpression_map_access_witness :
  ResolveExpression ("parameter_types" +:+ "['" +:+ "from" +:+ "']") EventsSchema
    = TString ∧
  ResolveExpression ("topics" +:+ String "[" (String DQ "") +:+ "1" +:+ String DQ "]")
    EventsSchema = TUnknown.
Proof.
  destruct (ResolveExpression_map_access "parameter_types" "from" EventsSchema)
    as (H1 & _ & _ & Hv & _); [vm_compute; reflexivity|].
  destruct (ResolveExpression_map_access "topics" "1" EventsSchema)
    as (_ & H2 & _ & _ & Hu); [vm_compute; reflexivity|].
  split.
  - rewrite H1 by (vm_compute; reflexivity).
    apply (Hv {[ "Map(String, String)" ]}); vm_compute; reflexivity.
  - rewrite H2 by (vm_compute; reflexivity).
    apply (Hu {[ "Array(Hex)" ]}); vm_compute; reflexivity.
Defined.

Lemma ResolveExpression_dot (q rest : string) (schema : Schema) :
  schema !! (q +:+ "." +:+ rest) = None → contains "." q = false →
  ResolveExpression (q +:+ "." +:+ rest) schema = ResolveExpression rest schema.
Proof.
  intros Hcol Hq%contains_false.
  rewrite ResolveExpression_eq. unfold ResolveExpression_case. rewrite Hcol.
  change (q +:+ "." +:+ rest) with (q +:+ String "." rest).
  by rewrite (cut_single_first "." q rest Hq).
Qed.

Lemma ResolveExpression_unknown (e : string) (schema : Schema) :
  schema !! e = None → contains "." e = false →
  strip_suffix "]" e = None → strip_suffix ")" e = None →
  ResolveExpression e schema = TUnknown.
Proof.
  intros Hcol Hdot Hbr Hpar. rewrite (ResolveExpression_plain_eq _ _ Hcol Hdot).
  unfold ResolveExpression_plain, split_at.
  rewrite (between_last_None "]" _ "" "']" Hbr) by by exists "'".
  rewrite (between_last_None "]" _ "" (String DQ "]") Hbr)
    by by exists (String DQ "").
  rewrite !(between_last_None ")" _ _ ")" Hpar) by by exists "".
  done.
Qed.

(** X14: a qualifier is dropped, wherever the first dot is.  A text that
    is no column name is resolved as what follows its first dot, whatever
    precedes the dot: an alias of a table in scope or any other text.  So
    an aggregate over a qualified column ([count(t.gas)]) and a map key
    with a dot ([parameters['a.b']]) lose their heads and are
    [unknown]. *)
Theorem ResolveExpression_qualifier_dropped (schema : Schema) :
  (∀ q rest,
     schema !! (q +:+ "." +:+ rest) = None → contains "." q = false →
     ResolveExpression (q +:+ "." +:+ rest) schema = ResolveExpression rest schema) ∧
  (∀ hd col,
     schema !! (hd +:+ "." +:+ col +:+ ")") = None → contains "." hd = false →
     schema !! (col +:+ ")") = None → contains "." col = false →
     contains "(" col = false →
     ResolveExpression (hd +:+ "." +:+ col +:+ ")") schema = TUnknown) ∧
  (∀ hd key,
     schema !! (hd +:+ "." +:+ key +:+ "']") = None → contains "." hd = false →
     schema !! (key +:+ "']") = None → contains "." key = false →
     contains "[" key = false →
     ResolveExpression (hd +:+ "." +:+ key +:+ "']") schema = TUnknown).
Proof.
  split; [intros q rest; apply ResolveExpression_dot|]. split.
  - intros hd col Hk Hhd Hk' Hdot%contains_false Hpar%contains_false.
    rewrite (ResolveExpression_dot _ _ _ Hk Hhd).
    assert (contains "." (col +:+ ")") = false) as Hdot'
      by by apply contains_false, cut_char_app_None.
    rewrite (ResolveExpression_plain_eq _ _ Hk' Hdot').
    rewrite (ResolveExpression_plain_paren _ col schema eq_refl).
    assert (cut "(" (col +:+ ")") = None) as Hp by by apply cut_char_app_None.
    assert (∀ f, between (f +:+ "(") ")" (col +:+ ")") = None) as Hf
      by (intros f; apply (between_needs_char "(" f "" ")" _ Hp)).
    pose proof (Hf "cast") as H1. pose proof (Hf "count") as H2.
    pose proof (Hf "sum") as H3. pose proof (Hf "avg") as H4.
    pose proof (Hf "min") as H5. pose proof (Hf "max") as H6.
    cbn [String.append] in H1, H2, H3, H4, H5, H6.
    by rewrite H1, H2, H3, H4, H5, H6.
  - intros hd key Hk Hhd Hk' Hdot%contains_false Hbr%contains_false.
    rewrite (ResolveExpression_dot _ _ _ Hk Hhd).
    assert (contains "." (key +:+ "']") = false) as Hdot'
      by by apply contains_false, cut_char_app_None.
    rewrite (ResolveExpression_plain_eq _ _ Hk' Hdot').
    unfold ResolveExpression_plain, split_at.
    pose proof (between_app "" "']" key) as Hb. cbn [String.append] in Hb.
    rewrite Hb. cbn [mbind option_bind].
    assert (cut "['" key = None) as ->.
    { destruct (cut "['" key) as [[a b]|] eqn:E; [|done].
      apply cut_Some in E. exfalso. by apply (cut_None _ _ Hbr a ("'" +:+ b)). }
    pose proof (strip_suffix_other DQ "'" "" "]" key) as Hq.
    cbn [String.append] in Hq.
    rewrite (between_suffix_None "" _ _ (Hq ltac:(done))).
    cbn [mbind option_bind].
    assert (strip_suffix ")" (key +:+ "']") = None) as Hp.
    { pose proof (strip_suffix_other_last ")" "]" "" (key +:+ "'")) as Hp.
      rewrite <-Str.app_assoc in Hp. by apply Hp. }
    by rewrite !(between_last_None ")" _ _ ")" Hp) by by exists "".
Qed.

Lemma ResolveExpression_qualifier_dropped_witness :
  ResolveExpression ("nobody" +:+ "." +:+ "gas") TransactionsSchema
    = TNumericString ∧
  ResolveExpression ("count(t" +:+ "." +:+ "gas" +:+ ")") TransactionsSchema
    = TUnknown ∧
  ResolveExpression ("parameters['a" +:+ "." +:+ "b" +:+ "']") EventsSchema
    = TUnknown.
Proof.
  split; [|split].
  - rewrite (proj1 (ResolveExpression_qualifier_dropped TransactionsSchema));
      vm_compute; reflexivity.
  - apply ResolveExpression_qualifier_dropped; vm_compute; reflexivity.
  - apply ResolveExpression_qualifier_dropped; vm_compute; reflexivity.
Defined.

(** X15: the fallback.  A text that is no column name, has no dot and
    ends neither in a square bracket nor in a parenthesis matches no rule
    and is [unknown]: a literal, an arithmetic expression, a column that
    the table does not have. *)
Theorem ResolveExpression_fallback (e : string) (schema : Schema) :
  schema !! e = None → contains "." e = false →
  strip_suffix "]" e = None → strip_suffix ")" e = None →
  ResolveExpression e schema = TUnknown.
Proof. apply ResolveExpression_unknown. Qed.

Lemma ResolveExpression_fallback_witness :
  ResolveExpression "gas_used + 1" BlocksSchema = TUnknown ∧
  ResolveExpression "no_such_column" BlocksSchema = TUnknown.
Proof. split; apply ResolveExpression_fallback; vm_compute; reflexivity. Defined.

(** ** Schemas of joins (resolve.ts) *)

Lemma MergeSchemas_idemp (A : Schema) : MergeSchemas A A = A.
Proof.
  apply map_eq. intros k. rewrite MergeSchemas_lookup.
  destruct (A !! k); [|done]. f_equal. apply union_idemp_L.
Qed.

(** X16: merging is idempotent and associative, and the empty schema is
    its unit: a table joined with itself has its own schema. *)
Theorem MergeSchemas_idempotent_associative (A B C : Schema) :
  MergeSchemas A A = A ∧
  MergeSchemas A ∅ = A ∧ MergeSchemas ∅ A = A ∧
  MergeSchemas (MergeSchemas A B) C = MergeSchemas A (MergeSchemas B C).
Proof.
  split; [apply MergeSchemas_idemp|].
  split; [|split]; apply map_eq; intros k;
    rewrite !MergeSchemas_lookup, ?lookup_empty.
  - by destruct (A !! k).
  - by destruct (A !! k).
  - destruct (A !! k), (B !! k), (C !! k); try done.
    f_equal. symmetry. apply (assoc_L (∪)).
Qed.

(** ** The catalog (schema.ts, builder/schema.ts) *)

(** A type without [unknown] and without [never] in it. *)
Fixpoint known (t : TsType) : bool :=
  match t with
  | TUnknown | TNever => false
  | TArray e => known e
  | TRecord v => known v
  | TUnion l r => known l && known r
  | _ => true
  end.

Definition all_known (schema : Schema) : Prop :=
  map_Forall (λ _ u, known (MapColumnType u) = true) schema.

Lemma catalog_pairs_known :
  map_Forall (λ _ A, map_Forall (λ _ B, all_known (MergeSchemas A B)) TableSchemas)
    TableSchemas.
Proof. apply (bool_decide_eq_true_1 _). vm_compute. reflexivity. Qed.

(** X17: every descriptor of the catalog is understood.  Every column of
    every table has a type without [unknown], and so has every column of
    the merge of two tables, where a column of both has the union of its
    two types. *)
Theorem catalog_types_known (n1 n2 col : string) (A B : Schema) (u : gset string) :
  TableSchemas !! n1 = Some A → TableSchemas !! n2 = Some B →
  (A !! col = Some u → known (MapColumnType u) = true) ∧
  (MergeSchemas A B !! col = Some u → known (MapColumnType u) = true).
Proof.
  intros HA HB.
  pose proof (catalog_pairs_known n1 A HA) as H. split.
  - intros Hu. apply (H n1 A HA col u).
    by rewrite MergeSchemas_idemp.
  - apply (H n2 B HB col u).
Qed.

Lemma catalog_types_known_witness :
  known (MapColumnType ({[ "uint64" ]} ∪ {[ "uint32" ]})) = true.
Proof.
  apply (catalog_types_known "events" "encoded_logs" "log_index"
           EventsSchema EncodedLogsSchema); [reflexivity..|].
  rewrite MergeSchemas_lookup. reflexivity.
Defined.

Lemma cdpSchemas_mirror :
  CdpDatabase = (λ A : Schema, MapColumnType <$> A) <$> TableSchemas.
Proof. apply (bool_decide_eq_true_1 _). vm_compute. reflexivity. Qed.

Lemma TableSchemas_names (name : string) :
  is_Some (TableSchemas !! name) →
  name ∈ [ "base.blocks"; "base.events"; "base.transactions"; "base.encoded_logs";
           "base.transfers"; "blocks"; "events"; "transactions"; "encoded_logs";
           "transfers" ].
Proof.
  intros H%elem_of_dom.
  assert (dom TableSchemas =
          list_to_set [ "base.blocks"; "base.events"; "base.transactions";
                        "base.encoded_logs"; "base.transfers"; "blocks";
                        "events"; "transactions"; "encoded_logs"; "transfers" ])
    as Hdom by (apply (bool_decide_eq_true_1 _); vm_compute; reflexivity).
  rewrite Hdom in H. by apply elem_of_list_to_set in H.
Qed.

(** The schema of a table of the catalog, from its lookup. *)
Ltac table_schema H :=
  match type of H with
  | TableSchemas !! ?name = Some ?A =>
      first [ change (TableSchemas !! name) with (Some BlocksSchema) in H
            | change (TableSchemas !! name) with (Some EventsSchema) in H
            | change (TableSchemas !! name) with (Some TransactionsSchema) in H
            | change (TableSchemas !! name) with (Some EncodedLogsSchema) in H
            | change (TableSchemas !! name) with (Some TransfersSchema) in H ];
      injection H as <-
  end.

(** X18: the two catalogs agree on names and types.  The schema objects
    of the builder mirror the interfaces of the text path: the two
    catalogs have the same tables, and for every table the same columns,
    each column having in the builder's database type the type that it
    has in the row that [TypedQuery] gives to [SELECT * FROM <table>],
    the type mapped from its descriptor.  Names and property types are
    what is compared: the properties of the builder's rows are
    [readonly], those of the text path are not. *)
Theorem catalogs_agree_on_column_types (name : string) :
  dom CdpDatabase = dom TableSchemas ∧
  (∀ A, TableSchemas !! name = Some A →
     ∃ R props,
       CdpDatabase !! name = Some R ∧
       result (TypedQuery ("SELECT * FROM " +:+ name)) = Mapped props ∧
       dom R = dom A ∧ dom props = dom A ∧
       ∀ col, R !! col = MapColumnType <$> A !! col ∧
              props !! col = R !! col).
Proof.
  split; [by rewrite cdpSchemas_mirror, dom_fmap_L|].
  intros A HA. exists (MapColumnType <$> A), (MapColumnType <$> A).
  split; [by rewrite cdpSchemas_mirror, lookup_fmap, HA|].
  split.
  { pose proof (TableSchemas_names name (mk_is_Some _ _ HA)) as Hname.
    repeat (apply elem_of_cons in Hname as [->|Hname];
            [by table_schema HA|]).
    by apply elem_of_nil in Hname. }
  split; [apply dom_fmap_L|]. split; [apply dom_fmap_L|].
  intros col. split; [apply lookup_fmap|done].
Qed.

Lemma catalogs_agree_on_column_types_witness :
  ∃ R props,
    CdpDatabase !! "transfers" = Some R ∧
    result (TypedQuery ("SELECT * FROM " +:+ "transfers")) = Mapped props ∧
    dom R = dom TransfersSchema ∧ dom props = dom TransfersSchema ∧
    ∀ col, R !! col = MapColumnType <$> TransfersSchema !! col ∧
           props !! col = R !! col.
Proof. apply catalogs_agree_on_column_types. reflexivity. Defined.

(** * Further properties of the builder *)

(** ** Parameters and signatures (builder/abi-types.ts) *)

(** X19: [FindParamByName] returns the first parameter of that name:
    the parameters before it have another name or none, and nothing is
    found exactly when no parameter has the name. *)
Theorem FindParamByName_first_match (params : list AbiParameter) (key : string) :
  (FindParamByName params key = None ↔
     Forall (λ p, param_name p ≠ Some key) params) ∧
  (∀ p, FindParamByName params key = Some p ↔
     ∃ before after,
       params = before ++ p :: after ∧ param_name p = Some key ∧
       Forall (λ q, param_name q ≠ Some key) before).
Proof.
  induction params as [|h t [IHn IHs]]; cbn [FindParamByName].
  - split; [by split|]. intros p. split; [done|].
    by intros ([|??] & after & ? & _).
  - destruct (decide (param_name h = Some key)) as [Hh|Hh].
    + rewrite bool_decide_eq_true_2 by done. split.
      * split; [done|]. by intros [? _]%Forall_cons.
      * intros p. split.
        -- intros [= <-]. by exists [], t.
        -- intros ([|q before] & after & Heq & Hp & Hb).
           ++ by injection Heq as ->.
           ++ injection Heq as -> _. by apply Forall_cons in Hb as [? _].
    + rewrite bool_decide_eq_false_2 by done. split.
      * rewrite IHn. split; [by constructor|]. by intros [_ ?]%Forall_cons.
      * intros p. rewrite IHs. split.
        -- intros (before & after & -> & Hp & Hb).
           exists (h :: before), after. by repeat split; [|constructor].
        -- intros ([|q before] & after & Heq & Hp & Hb).
           ++ injection Heq as -> _. done.
           ++ injection Heq as -> ->. apply Forall_cons in Hb as [_ Hb].
              by exists before, after.
Qed.

(** The type of a parameter as a signature writes it: a tuple is the
    parenthesised list of the types of its components, followed by what
    follows [tuple] in its type. *)
Fixpoint signature_type (p : AbiParameter) : string :=
  match p with
  | AbiParam ty _ comps =>
      match strip_prefix "tuple" ty, comps with
      | Some arr, Some c =>
          "(" +:+ String.concat "," (signature_type <$> c) +:+ ")" +:+ arr
      | _, _ => ty
      end
  end.

(** No type text is empty, in the parameter or in its components. *)
Fixpoint typed (p : AbiParameter) : bool :=
  match p with
  | AbiParam ty _ comps =>
      negb (String.eqb ty "") &&
      match comps with
      | Some c => forallb typed c
      | None => true
      end
  end.

Lemma typed_FormatParamType (p : AbiParameter) :
  typed p = true → FormatParamType p ≠ "".
Proof.
  rewrite FormatParamType_eq. destruct p as [ty n comps]. cbn [typed param_type param_components].
  intros [Hty%negb_true_iff%String.eqb_neq _]%andb_true_iff.
  by destruct (strip_prefix "tuple" ty), comps.
Qed.

Lemma JoinParamTypes_concat (params : list AbiParameter) :
  Forall (λ p, FormatParamType p ≠ "") params →
  JoinParamTypes params "" = String.concat "," (FormatParamType <$> params).
Proof.
  unfold JoinParamTypes. intros [|h t Hh Ht]; [done|].
  cbn [JoinWith fmap list_fmap String.eqb]. by apply JoinWith_concat.
Qed.

Section AbiParameter_induction.
Variable P : AbiParameter → Prop.
Hypothesis step : ∀ ty n comps,
  match comps with Some c => Forall P c | None => True end →
  P (AbiParam ty n comps).

Fixpoint AbiParameter_nested_ind (p : AbiParameter) : P p :=
  match p with
  | AbiParam ty n comps =>
      step ty n comps
        match comps with
        | Some c =>
            (fix all (l : list AbiParameter) : Forall P l :=
               match l with
               | [] => Forall_nil_2 P
               | x :: l' => Forall_cons_2 P x l' (AbiParameter_nested_ind x) (all l')
               end) c
        | None => I
        end
  end.
End AbiParameter_induction.

Lemma FormatParamType_signature_type (p : AbiParameter) :
  typed p = true → FormatParamType p = signature_type p.
Proof.
  induction p as [ty n comps IH] using AbiParameter_nested_ind.
  rewrite FormatParamType_eq. cbn [typed signature_type param_type param_components].
  intros [_ Hc]%andb_true_iff.
  destruct (strip_prefix "tuple" ty) as [arr|]; [|done].
  destruct comps as [c|]; [|done].
  do 2 f_equal.
  assert (Forall (λ p, typed p = true) c) as Htyped.
  { clear IH. induction c as [|x l IHl]; [constructor|].
    cbn [forallb] in Hc. apply andb_true_iff in Hc as [Hx Hl].
    constructor; auto. }
  rewrite JoinParamTypes_concat.
  - f_equal. apply Forall_fmap_ext_1. clear Hc.
    induction IH as [|x l Hx _ IHl]; [constructor|].
    apply Forall_cons in Htyped as [Htx Htl]. constructor; auto.
  - eapply Forall_impl; [exact Htyped|]. apply typed_FormatParamType.
Qed.

(** X20: the canonical signature.  When no type text is empty, the
    signature of an event is its name and the comma-separated types of its
    parameters in parentheses, a tuple being written, at any depth, as the
    parenthesised types of its components followed by its array suffix:
    no name, no [indexed], no space.  A parameter with an empty type text
    at the front of a list leaves no trace, not even a comma. *)
Theorem CdpEventSignature_canonical (e : AbiEvent) :
  (Forall (λ p, typed p = true) (event_inputs e) →
   CdpEventSignature e =
     event_name e +:+ "(" +:+
       String.concat "," (signature_type <$> event_inputs e) +:+ ")") ∧
  (∀ n c params,
     JoinParamTypes (AbiParam "" n c :: params) "" = JoinParamTypes params "").
Proof.
  split; [|done]. intros Htyped.
  rewrite CdpEventSignature_format.
  - do 4 f_equal. apply Forall_fmap_ext_1.
    eapply Forall_impl; [exact Htyped|]. apply FormatParamType_signature_type.
  - eapply Forall_impl; [exact Htyped|]. apply typed_FormatParamType.
Qed.

Lemma CdpEventSignature_canonical_witness :
  CdpEventSignature
    {| event_name := "Swap";
       event_inputs :=
         [ AbiParam "address" (Some "sender") None;
           AbiParam "tuple[2]" (Some "legs")
             (Some [ AbiParam "uint256" (Some "amount") None;
                     AbiParam "tuple" (Some "route")
                       (Some [ AbiParam "bytes32" None None;
                               AbiParam "bool" None None ]) ]) ] |}
  = "Swap(address,(uint256,(bytes32,bool))[2])".
Proof.
  rewrite (proj1 (CdpEventSignature_canonical _)) by (repeat constructor).
  vm_compute. reflexivity.
Defined.

Lemma elem_of_ExtractEvents (abi : Abi) (e : AbiEvent) :
  e ∈ ExtractEvents abi ↔ AbiItemEvent e ∈ abi.
Proof.
  unfold ExtractEvents. rewrite list_elem_of_omap. split.
  - intros (item & Hin & Hitem). destruct item; by simplify_eq.
  - intros Hin. by exists (AbiItemEvent e).
Qed.

Lemma elem_of_AllCdpEventSignatures (abi : Abi) (sig : string) :
  sig ∈ AllCdpEventSignatures abi ↔
  ∃ e1 e2, AbiItemEvent e1 ∈ abi ∧ AbiItemEvent e2 ∈ abi ∧
           sig = event_name e1 +:+ "(" +:+
                   JoinParamTypes (event_inputs e2) "" +:+ ")".
Proof.
  unfold AllCdpEventSignatures. rewrite list_elem_of_bind. split.
  - intros (n & (j & Hsig%list_elem_of_singleton & Hj)%list_elem_of_bind & Hn).
    apply list_elem_of_fmap in Hn as (e1 & -> & He1%elem_of_ExtractEvents).
    apply list_elem_of_fmap in Hj as (e2 & -> & He2%elem_of_ExtractEvents).
    by exists e1, e2.
  - intros (e1 & e2 & He1%elem_of_ExtractEvents & He2%elem_of_ExtractEvents & ->).
    exists (event_name e1). split; [|by apply list_elem_of_fmap_2].
    apply list_elem_of_bind.
    exists (JoinParamTypes (event_inputs e2) ""). split; [by apply list_elem_of_singleton|].
    by apply (list_elem_of_fmap_2 (λ e, JoinParamTypes (event_inputs e) "")).
Qed.

(** X21: the signatures offered for completion.  [AllCdpEventSignatures]
    has the signature of every event of the interface description, and
    so every signature that narrows to an event; but it pairs the name of
    any event with the parameter list of any event, so with two events of
    different parameter lists it also has signatures of no event. *)
Theorem AllCdpEventSignatures_covers_events (abi : Abi) :
  (∀ e, AbiItemEvent e ∈ abi → CdpEventSignature e ∈ AllCdpEventSignatures abi) ∧
  (∀ sig, FindEventBySignature abi sig ≠ [] → sig ∈ AllCdpEventSignatures abi) ∧
  (∀ sig, sig ∈ AllCdpEventSignatures abi ↔
     ∃ e1 e2, AbiItemEvent e1 ∈ abi ∧ AbiItemEvent e2 ∈ abi ∧
              sig = event_name e1 +:+ "(" +:+
                      JoinParamTypes (event_inputs e2) "" +:+ ")") ∧
  (ExtractEvents abi = [] → AllCdpEventSignatures abi = []).
Proof.
  assert (∀ e, AbiItemEvent e ∈ abi →
               CdpEventSignature e ∈ AllCdpEventSignatures abi) as Hev.
  { intros e He. apply elem_of_AllCdpEventSignatures. by exists e, e. }
  split; [done|]. split; [|split; [apply elem_of_AllCdpEventSignatures|]].
  - intros sig Hsig.
    destruct (FindEventBySignature abi sig) as [|e l] eqn:E; [done|].
    assert (e ∈ FindEventBySignature abi sig) as He
      by (rewrite E; apply list_elem_of_here).
    apply elem_of_FindEventBySignature in He as [He <-]. by apply Hev.
  - unfold AllCdpEventSignatures. by intros ->.
Qed.

(** Two events with different parameter lists: the union has four
    signatures, and two of them belong to no event. *)
Example AllCdpEventSignatures_cross :
  let abi := [ AbiItemEvent erc20_Transfer;
               AbiItemEvent {| event_name := "Paused";
                               event_inputs := [AbiParam "address" (Some "by") None] |} ] in
  AllCdpEventSignatures abi
    = [ "Transfer(address,address,uint256)"; "Transfer(address)";
        "Paused(address,address,uint256)"; "Paused(address)" ] ∧
  FindEventBySignature abi "Transfer(address)" = [].
Proof. vm_compute. split; reflexivity. Qed.

(** ** Column and table references (builder/select-query-builder.ts) *)

(** A word for the regular expressions: a non-empty text without [\s]. *)
Definition js_word (s : string) : Prop :=
  s ≠ "" ∧ all_chars (λ c, negb (js_space c)) s = true.

(** A non-empty run of [\s]. *)
Definition js_spaces (s : string) : Prop :=
  s ≠ "" ∧ all_chars js_space s = true.

(** A quantifier over [P] cannot go on into [r]. *)
Definition stops (P : ascii → bool) (r : string) : Prop :=
  match r with
  | String c _ => P c = false
  | "" => True
  end.

Lemma re_plus_greedy_stuck {R} P s (k : string → string → option R) :
  stops P s → re_plus_greedy P s k = None.
Proof. destruct s as [|c r]; cbn; [done|]. by intros ->. Qed.

Lemma re_star_greedy_all {R} P w r acc (k : string → string → option R) x :
  all_chars P w = true → stops P r → k (acc +:+ w) r = Some x →
  re_star_greedy P (w +:+ r) acc k = Some x.
Proof.
  revert acc. induction w as [|c w IH]; intros acc; cbn [all_chars String.append].
  - intros _ Hr. rewrite Str.app_nil_r. intros Hk.
    destruct r as [|d r]; cbn [re_star_greedy]; [done|].
    cbn in Hr. by rewrite Hr.
  - intros [Hc Hw]%andb_true_iff Hr Hk. cbn [re_star_greedy]. rewrite Hc.
    rewrite (IH (acc +:+ String c "")); [done..|].
    by rewrite <-Str.app_assoc.
Qed.

Lemma re_plus_greedy_all {R} P w r (k : string → string → option R) x :
  w ≠ "" → all_chars P w = true → stops P r → k w r = Some x →
  re_plus_greedy P (w +:+ r) k = Some x.
Proof.
  destruct w as [|c w]; [done|]. intros _ [Hc Hw]%andb_true_iff Hr Hk.
  cbn [re_plus_greedy String.append]. rewrite Hc.
  by apply re_star_greedy_all.
Qed.

Lemma re_star_lazy_here {R} P s acc (k : string → string → option R) x :
  k acc s = Some x → re_star_lazy P s acc k = Some x.
Proof. intros Hk. destruct s; cbn [re_star_lazy]; by rewrite Hk. Qed.

Lemma re_star_lazy_skip {R} P w rest acc (k : string → string → option R) :
  all_chars P w = true →
  (∀ p q, w = p +:+ q → q ≠ "" → k (acc +:+ p) (q +:+ rest) = None) →
  re_star_lazy P (w +:+ rest) acc k = re_star_lazy P rest (acc +:+ w) k.
Proof.
  revert acc. induction w as [|c w IH]; intros acc; cbn [all_chars String.append].
  - intros _ _. by rewrite Str.app_nil_r.
  - intros [Hc Hw]%andb_true_iff Hk. cbn [re_star_lazy].
    pose proof (Hk "" (String c w) eq_refl) as H0.
    rewrite Str.app_nil_r in H0. cbn [String.append] in H0.
    rewrite H0 by done. rewrite Hc, (IH (acc +:+ String c "") Hw).
    + by rewrite <-Str.app_assoc.
    + intros p q -> Hq. rewrite <-Str.app_assoc. by apply (Hk (String c p) q).
Qed.

Lemma re_star_lazy_None {R} P s acc (k : string → string → option R) :
  (∀ p q, s = p +:+ q → k (acc +:+ p) q = None) →
  re_star_lazy P s acc k = None.
Proof.
  revert acc. induction s as [|c s IH]; intros acc Hk; cbn [re_star_lazy].
  - pose proof (Hk "" "" eq_refl) as H0. rewrite Str.app_nil_r in H0.
    by rewrite H0.
  - pose proof (Hk "" (String c s) eq_refl) as H0. rewrite Str.app_nil_r in H0.
    rewrite H0. destruct (P c); [|done]. apply IH.
    intros p q ->. rewrite <-Str.app_assoc. by apply (Hk (String c p) q).
Qed.

Lemma js_dot_not_space (c : ascii) : js_space c = false → js_dot c = true.
Proof. by destruct c as [[] [] [] [] [] [] [] []]. Qed.

Lemma js_word_dots (s : string) : js_word s → all_chars js_dot s = true.
Proof.
  intros [_ H]. revert H. apply all_chars_impl.
  intros c Hc%negb_true_iff. by apply js_dot_not_space.
Qed.

Lemma js_word_suffix_stops (p q rest : string) :
  all_chars (λ c, negb (js_space c)) (p +:+ q) = true → q ≠ "" →
  stops js_space (q +:+ rest).
Proof.
  rewrite all_chars_app. intros [_ Hq]%andb_true_iff Hne.
  destruct q as [|c q]; [done|]. cbn in *.
  apply andb_true_iff in Hq as [Hc _]. by apply negb_true_iff.
Qed.

Lemma js_word_stops (s : string) : js_word s → stops js_space s.
Proof.
  intros [Hne H]. destruct s as [|c s]; [done|]. cbn in *.
  apply andb_true_iff in H as [Hc _]. by apply negb_true_iff.
Qed.

(** A word has no [as] between white space. *)
Lemma match_as_word (s : string) : js_word s → match_as s = None.
Proof.
  intros Hs. pose proof Hs as [Hne Hall]. unfold match_as.
  destruct s as [|c s]; [done|]. cbn [re_plus_lazy].
  destruct (js_dot c); [|done]. apply re_star_lazy_None.
  intros p q ->. apply re_plus_greedy_stuck.
  destruct q as [|d q]; [done|].
  rewrite <-(Str.app_nil_r (String d q)).
  by apply (js_word_suffix_stops (String c p) (String d q) "").
Qed.

Lemma re_literal_as {R} (kw r : string) (k : string → option R) :
  kw ∈ ["as"; "AS"; "As"; "aS"] →
  re_literal_i "as" (kw +:+ r) k = k r ∧ stops js_space (kw +:+ r).
Proof.
  intros H. repeat (apply elem_of_cons in H as [->|H]; [done|]).
  by apply elem_of_nil in H.
Qed.

(** Two words around [as], in any case and with any white space about
    it, are the two groups. *)
Lemma match_as_words (c a ws1 ws2 kw : string) :
  js_word c → js_word a → js_spaces ws1 → js_spaces ws2 →
  kw ∈ ["as"; "AS"; "As"; "aS"] →
  match_as (c +:+ ws1 +:+ kw +:+ ws2 +:+ a) = Some (c, a).
Proof.
  intros Hc Ha [Hn1 Hw1] [Hn2 Hw2] Hkw. unfold match_as.
  pose proof (js_word_dots c Hc) as Hdc. pose proof Hc as [Hnc Hallc].
  destruct c as [|c0 c]; [done|].
  cbn [all_chars] in Hdc. apply andb_true_iff in Hdc as [Hd0 Hdc].
  cbn [re_plus_lazy String.append]. rewrite Hd0.
  rewrite re_star_lazy_skip; [|done|].
  2:{ intros p q -> Hq. apply re_plus_greedy_stuck.
      by apply (js_word_suffix_stops (String c0 p) q). }
  apply re_star_lazy_here. cbn [String.append].
  destruct (re_literal_as kw (ws2 +:+ a)
              (λ r3, re_plus_greedy js_space r3 (λ _ r4,
                 re_plus_greedy js_dot r4 (λ g2 r5,
                   if String.eqb r5 "" then Some (String c0 c, g2) else None)))
              Hkw) as [Hlit Hstop].
  apply re_plus_greedy_all; [done..|]. rewrite Hlit.
  apply re_plus_greedy_all; [done|done|by apply js_word_stops|].
  rewrite <-(Str.app_nil_r a) at 1.
  apply re_plus_greedy_all; [apply Ha|by apply js_word_dots|done|done].
Qed.

Lemma drop_end_while_none (P : ascii → bool) (s : string) :
  all_chars (λ c, negb (P c)) s = true → drop_end_while P s = s.
Proof.
  induction s as [|c s IH]; cbn [all_chars drop_end_while]; [done|].
  intros [Hc Hs]%andb_true_iff. rewrite (IH Hs).
  apply negb_true_iff in Hc. rewrite Hc. by destruct s.
Qed.

Lemma js_trim_word (s : string) : js_word s → js_trim s = s.
Proof.
  intros Hs. unfold js_trim. rewrite drop_end_while_none by apply Hs.
  apply js_word_stops in Hs. destruct s as [|c s]; [done|].
  cbn in *. by rewrite Hs.
Qed.

Lemma parseColumnRef_eq (str : string) :
  parseColumnRef str =
    match match_as str with
    | Some (g1, g2) => AliasNode (parseColumnRef (js_trim g1)) (js_trim g2)
    | None =>
        match cut "." str with
        | Some (String c t, name) => ColumnNode (Some (String c t)) name
        | _ => ColumnNode None str
        end
    end.
Proof.
  funelim (parseColumnRef str);
    match goal with E : match_as _ = _ |- _ => rewrite E end;
    try match goal with E : cut _ _ = _ |- _ => rewrite E end; done.
Qed.

Lemma parseColumnRef_word (c : string) :
  js_word c →
  parseColumnRef c =
    match cut "." c with
    | Some (String x t, name) => ColumnNode (Some (String x t)) name
    | _ => ColumnNode None c
    end ∧
  compileNode (parseColumnRef c) = c.
Proof.
  intros Hc. rewrite parseColumnRef_eq, (match_as_word c Hc).
  split; [done|].
  destruct (cut "." c) as [[[|x t] name]|] eqn:E; try done.
  apply cut_Some in E as ->. done.
Qed.

(** X22: a column reference compiles back to its text.  A reference
    without white space is a column, qualified by what stands before its
    first dot when that is not empty, and compiles to itself.  With an
    alias after [as], in either case and after any white space, it is
    the aliased column, and compiles with the one spelling [ AS ]. *)
Theorem parseColumnRef_compiles_back (c a ws1 ws2 kw : string) :
  js_word c → js_word a → js_spaces ws1 → js_spaces ws2 →
  kw ∈ ["as"; "AS"; "As"; "aS"] →
  parseColumnRef c =
    match cut "." c with
    | Some (String x t, name) => ColumnNode (Some (String x t)) name
    | _ => ColumnNode None c
    end ∧
  compileNode (parseColumnRef c) = c ∧
  parseColumnRef (c +:+ ws1 +:+ kw +:+ ws2 +:+ a) = AliasNode (parseColumnRef c) a ∧
  compileNode (parseColumnRef (c +:+ ws1 +:+ kw +:+ ws2 +:+ a))
    = c +:+ " AS " +:+ a.
Proof.
  intros Hc Ha H1 H2 Hkw.
  destruct (parseColumnRef_word c Hc) as [Hnode Htext].
  assert (parseColumnRef (c +:+ ws1 +:+ kw +:+ ws2 +:+ a)
          = AliasNode (parseColumnRef c) a) as Halias.
  { rewrite (parseColumnRef_eq (c +:+ _)), (match_as_words c a ws1 ws2 kw) by done.
    by rewrite !js_trim_word. }
  repeat split; [done..|].
  rewrite Halias. cbn [compileNode]. by rewrite Htext.
Qed.

Lemma parseColumnRef_compiles_back_witness :
  parseColumnRef "e.address" = ColumnNode (Some "e") "address" ∧
  compileNode (parseColumnRef "e.address") = "e.address" ∧
  parseColumnRef ("e.address" +:+ "  " +:+ "as" +:+ " " +:+ "addr")
    = AliasNode (parseColumnRef "e.address") "addr" ∧
  compileNode (parseColumnRef ("e.address" +:+ "  " +:+ "as" +:+ " " +:+ "addr"))
    = "e.address" +:+ " AS " +:+ "addr".
Proof.
  apply (parseColumnRef_compiles_back "e.address" "addr" "  " " " "as");
    try (split; [done|reflexivity]).
  apply list_elem_of_here.
Defined.

(** X23: a condition on a column.  [where(column, op, value)] and
    [having(column, op, value)] compile to the column, the operator and
    the value between single spaces.  A string value is always a quoted
    literal, written between the quotes as it is; [null] is the word
    [NULL] after the operator that was given. *)
Theorem condition_column_text (column op : string) (value : JsValue) :
  js_word column →
  compileNode (SelectQueryBuilder.condition_node (ConditionColumn column op value))
    = column +:+ " " +:+ op +:+ " " +:+ compileValue value ∧
  (∀ s, value = JsString s →
        compileNode (SelectQueryBuilder.condition_node (ConditionColumn column op value))
          = column +:+ " " +:+ op +:+ " '" +:+ s +:+ "'") ∧
  (value = JsNull →
   compileNode (SelectQueryBuilder.condition_node (ConditionColumn column op value))
     = column +:+ " " +:+ op +:+ " NULL").
Proof.
  intros Hc. destruct (parseColumnRef_word column Hc) as [_ Htext].
  cbn [SelectQueryBuilder.condition_node compileNode]. rewrite Htext.
  split; [done|]. split; [intros s ->|intros ->]; done.
Qed.

Lemma condition_column_text_witness :
  compileNode (SelectQueryBuilder.condition_node
                 (ConditionColumn "event_name" "=" (JsString "Transfer")))
    = "event_name" +:+ " " +:+ "=" +:+ " '" +:+ "Transfer" +:+ "'".
Proof.
  apply (condition_column_text "event_name" "=" (JsString "Transfer"));
    [split; [done|reflexivity]|reflexivity].
Defined.

Lemma cut_as_words (t a : string) :
  js_word t → cut " as " (t +:+ " as " +:+ a) = Some (t, a).
Proof.
  intros [_ Ht]. rewrite cut_skip.
  - cbn. by rewrite Str.app_nil_r.
  - revert Ht. apply all_chars_impl. intros c Hc%negb_true_iff.
    apply negb_true_iff. by destruct c as [[] [] [] [] [] [] [] []].
Qed.

Lemma cut_as_word (t : string) : js_word t → cut " as " t = None.
Proof.
  intros [_ Ht]. apply cut_absent.
  revert Ht. apply all_chars_impl. intros c Hc%negb_true_iff.
  apply negb_true_iff. by destruct c as [[] [] [] [] [] [] [] []].
Qed.

(** X24: a table reference.  A name without white space stands for
    itself, without alias; [<name> as <alias>], in either case and after
    any white space, gives the name and the alias, the alias being
    dropped when it is the name; the table compiles with [ AS ].  On the
    lower-case form with single spaces the type [ParseTableAlias] finds
    the same pair. *)
Theorem parseTableRef_alias (t a ws1 ws2 kw : string) :
  js_word t → js_word a → js_spaces ws1 → js_spaces ws2 →
  kw ∈ ["as"; "AS"; "As"; "aS"] →
  parseTableRef t = (t, t) ∧
  q_from (createSelectNode t) = {| table_name := t; table_alias := None |} ∧
  parseTableRef (t +:+ ws1 +:+ kw +:+ ws2 +:+ a) = (t, a) ∧
  q_from (createSelectNode (t +:+ ws1 +:+ kw +:+ ws2 +:+ a))
    = {| table_name := t;
         table_alias := if String.eqb a t then None else Some a |} ∧
  compileTable (q_from (createSelectNode (t +:+ ws1 +:+ kw +:+ ws2 +:+ a)))
    = (if String.eqb a t then t else t +:+ " AS " +:+ a) ∧
  ParseTableAlias t = (t, t) ∧
  ParseTableAlias (t +:+ " as " +:+ a) = parseTableRef (t +:+ " as " +:+ a).
Proof.
  intros Ht Ha H1 H2 Hkw.
  assert (parseTableRef t = (t, t)) as Hplain.
  { unfold parseTableRef. by rewrite (match_as_word t Ht), js_trim_word. }
  assert (∀ ws1 ws2 kw, js_spaces ws1 → js_spaces ws2 →
            kw ∈ ["as"; "AS"; "As"; "aS"] →
            parseTableRef (t +:+ ws1 +:+ kw +:+ ws2 +:+ a) = (t, a)) as Hpair.
  { intros w1 w2 k Hw1 Hw2 Hk. unfold parseTableRef.
    by rewrite (match_as_words t a w1 w2 k), !js_trim_word. }
  split; [done|]. split.
  { unfold createSelectNode. rewrite Hplain. cbn [q_from].
    by rewrite String.eqb_refl. }
  split; [by apply Hpair|].
  assert (q_from (createSelectNode (t +:+ ws1 +:+ kw +:+ ws2 +:+ a))
          = {| table_name := t;
               table_alias := if String.eqb a t then None else Some a |}) as Hfrom.
  { unfold createSelectNode. by rewrite Hpair. }
  split; [done|]. split.
  { rewrite Hfrom. unfold compileTable. cbn [table_alias table_name].
    destruct (String.eqb a t); [done|]. cbn [truthy].
    destruct Ha as [Hne _]. apply String.eqb_neq in Hne. by rewrite Hne. }
  split.
  - unfold ParseTableAlias. by rewrite cut_as_word.
  - unfold ParseTableAlias. rewrite cut_as_words by done.
    symmetry. apply (Hpair " " " " "as"); [done|done|apply list_elem_of_here].
Qed.

Lemma parseTableRef_alias_witness :
  compileTable (q_from (createSelectNode
                          ("base.events" +:+ " " +:+ "AS" +:+ " " +:+ "e")))
  = "base.events AS e".
Proof.
  apply (parseTableRef_alias "base.events" "e" " " " " "AS");
    try (split; [done|reflexivity]).
  apply list_elem_of_further, list_elem_of_here.
Defined.

(** ** The types of selections (builder/types.ts) *)

Lemma elem_of_AnyColumn (DB : Database) (TB : list string) (K : string) :
  K ∈ AnyColumn DB TB ↔ ∃ T R, T ∈ TB ∧ DB !! T = Some R ∧ is_Some (R !! K).
Proof.
  unfold AnyColumn. rewrite elem_of_union_list. split.
  - intros (X & (T & -> & HT)%list_elem_of_fmap & HK).
    destruct (DB !! T) as [R|] eqn:E; cbn in HK.
    + exists T, R. by apply elem_of_dom in HK.
    + by apply elem_of_empty in HK.
  - intros (T & R & HT & HR & HK). exists (dom R). split.
    + apply list_elem_of_fmap. exists T. by rewrite HR.
    + by apply elem_of_dom.
Qed.

Lemma MergedColumns_lookup (DB : Database) (TB : list string) (K : string) :
  MergedColumns DB TB !! K =
    if bool_decide (K ∈ AnyColumn DB TB) then Some (MergedColumn DB TB K) else None.
Proof.
  unfold MergedColumns. case_bool_decide as HK.
  - apply elem_of_list_to_map_1.
    + rewrite <-list_fmap_compose.
      rewrite (list_fmap_ext _ id (elements (AnyColumn DB TB))) by done.
      rewrite list_fmap_id. apply NoDup_elements.
    + apply list_elem_of_fmap. exists K. split; [done|]. by apply elem_of_elements.
  - apply not_elem_of_list_to_map_1. rewrite <-list_fmap_compose.
    intros (K' & -> & Hin%elem_of_elements)%list_elem_of_fmap. done.
Qed.

(** A name without space and without dot. *)
Definition plain (s : string) : Prop :=
  all_chars (λ c, negb (Ascii.eqb " " c) && negb (Ascii.eqb "." c)) s = true.

Lemma plain_no_space (s : string) :
  plain s → all_chars (λ c, negb (Ascii.eqb " " c)) s = true.
Proof. apply all_chars_impl. by intros c [? _]%andb_true_iff. Qed.

Lemma plain_no_dot (s : string) :
  plain s → all_chars (λ c, negb (Ascii.eqb "." c)) s = true.
Proof. apply all_chars_impl. by intros c [_ ?]%andb_true_iff. Qed.

Lemma qualified_no_space (T K : string) :
  plain T → plain K →
  all_chars (λ c, negb (Ascii.eqb " " c)) (T +:+ "." +:+ K) = true.
Proof.
  intros HT HK. rewrite !all_chars_app.
  by rewrite (plain_no_space T HT), (plain_no_space K HK).
Qed.

Lemma cut_step (d r : string) (c : ascii) :
  strip_prefix d (String c r) = None →
  cut d (String c r)
  = match cut d r with
    | Some (a, b) => Some (String c a, b)
    | None => None
    end.
Proof. intros H. cbn [cut]. by rewrite H. Qed.

Lemma cut_here (d r : string) : cut d (d +:+ r) = Some ("", r).
Proof.
  pose proof (strip_prefix_app d r) as H.
  destruct (d +:+ r); cbn [cut]; by rewrite H.
Qed.

Lemma cut_found (c : ascii) (d t r : string) :
  all_chars (λ y, negb (Ascii.eqb c y)) t = true →
  cut (String c d) (t +:+ String c d +:+ r) = Some (t, r).
Proof.
  intros Ht. rewrite (cut_skip c d t _ Ht), cut_here.
  by rewrite Str.app_nil_r.
Qed.

Lemma cut_as_upper (K a : string) :
  plain K → plain a → cut " as " (K +:+ " AS " +:+ a) = None.
Proof.
  intros HK Ha. rewrite cut_skip by by apply plain_no_space.
  change (" AS " +:+ a) with (String " " (String "A" (String "S" (String " " a)))).
  rewrite !cut_step; try reflexivity.
  - by rewrite (cut_absent " " "as " a (plain_no_space a Ha)).
  - destruct (strip_prefix " as " (String " " a)) as [b|] eqn:E; [|done].
    apply strip_prefix_Some in E. injection E as ->. done.
Qed.

(** X25: the type of a selected column.  For a column [K] of a table
    [T] in scope, both names without space and dot: [K] and [K as a]
    give the type that [K] has over the tables in scope, under the name
    [K] and under the alias; [T.K] gives the type that [K] has in [T].
    But [T.K as a], when no column is named [T.K], gives the alias the
    type [unknown]; and [K AS a], with the keyword in upper case, gives
    no property at all, although the builder compiles both as aliased
    columns. *)
Theorem SelectionResult_forms
    (DB : Database) (TB : list string) (T K a : string) (R : Row) (ty : TsType) :
  T ∈ TB → DB !! T = Some R → R !! K = Some ty →
  plain T → plain K →
  T +:+ "." +:+ K ∉ AnyColumn DB TB →
  SelectionResult DB TB K = [(K, MergedColumn DB TB K)] ∧
  SelectionResult DB TB (K +:+ " as " +:+ a) = [(a, MergedColumn DB TB K)] ∧
  SelectionResult DB TB (T +:+ "." +:+ K) = [(K, ty)] ∧
  SelectionResult DB TB (T +:+ "." +:+ K +:+ " as " +:+ a) = [(a, TUnknown)] ∧
  (plain a → K +:+ " AS " +:+ a ∉ AnyColumn DB TB →
   SelectionResult DB TB (K +:+ " AS " +:+ a) = []).
Proof.
  intros HT HR HK HpT HpK Hnone.
  assert (K ∈ AnyColumn DB TB) as Hin.
  { apply elem_of_AnyColumn. by exists T, R. }
  unfold SelectionResult. repeat split.
  - rewrite (cut_absent " " "as " K (plain_no_space K HpK)).
    rewrite (cut_absent "." "" K (plain_no_dot K HpK)).
    by rewrite MergedColumns_lookup, bool_decide_eq_true_2.
  - rewrite (cut_found " " "as " K a (plain_no_space K HpK)).
    by rewrite MergedColumns_lookup, bool_decide_eq_true_2.
  - rewrite (cut_absent " " "as " _ (qualified_no_space T K HpT HpK)).
    rewrite (cut_found "." "" T K (plain_no_dot T HpT)).
    rewrite bool_decide_eq_true_2 by done.
    by rewrite HR; cbn; rewrite HK.
  - replace (T +:+ "." +:+ K +:+ " as " +:+ a)
      with ((T +:+ "." +:+ K) +:+ " as " +:+ a)
      by by rewrite <-!Str.app_assoc.
    rewrite (cut_found " " "as " _ a (qualified_no_space T K HpT HpK)).
    by rewrite MergedColumns_lookup, bool_decide_eq_false_2.
  - intros Hpa Hupper.
    rewrite (cut_as_upper K a HpK Hpa).
    assert (cut "." (K +:+ " AS " +:+ a) = None) as ->.
    { apply cut_absent. rewrite !all_chars_app.
      by rewrite (plain_no_dot K HpK), (plain_no_dot a Hpa). }
    by rewrite MergedColumns_lookup, bool_decide_eq_false_2.
Qed.

Lemma SelectionResult_forms_witness :
  SelectionResult CdpDatabase ["events"] ("events" +:+ "." +:+ "address" +:+ " as " +:+ "addr")
  = [("addr", TUnknown)].
Proof.
  apply (SelectionResult_forms CdpDatabase ["events"] "events" "address" "addr"
           (MapSchema eventsSchema) THexString).
  - apply list_elem_of_here.
  - reflexivity.
  - vm_compute. reflexivity.
  - reflexivity.
  - reflexivity.
  - apply (bool_decide_eq_true_1 _). vm_compute. reflexivity.
Defined.

(** ** Chains of builder calls (builder/select-query-builder.ts) *)

Lemma concat_cons_cons (sep h h' : string) (t : list string) :
  String.concat sep (h :: h' :: t) = h +:+ sep +:+ String.concat sep (h' :: t).
Proof. reflexivity. Qed.

Lemma concat_snoc_pair (sep : string) (l : list string) (x y : string) :
  String.concat sep (l ++ [x; y]) = String.concat sep (l ++ [x +:+ sep +:+ y]).
Proof.
  induction l as [|h l IH]; [done|].
  destruct l as [|h' l]; [done|].
  cbn [app] in *. rewrite !concat_cons_cons. by rewrite IH.
Qed.

Lemma clause_and_pair (kw : string) (l : list AstNode) (n1 n2 : AstNode) :
  clause kw " AND " (List.map compileNode ((l ++ [n1]) ++ [n2]))
  = clause kw " AND " (List.map compileNode (l ++ [AndNode [n1; n2]])).
Proof.
  rewrite <-app_assoc, !List.map_app. cbn [app List.map].
  assert (∀ (a : list string) z, clause kw " AND " (a ++ [z])
                                 = [kw +:+ String.concat " AND " (a ++ [z])]) as Hc
    by (by intros [|??] ?).
  rewrite (Hc _ (compileNode (AndNode [n1; n2]))).
  change (List.map compileNode l ++ [compileNode n1; compileNode n2])
    with (List.map compileNode l ++ [compileNode n1] ++ [compileNode n2]).
  rewrite app_assoc, Hc, <-app_assoc. cbn [app].
  by rewrite concat_snoc_pair.
Qed.

(** X26: conditions accumulate by conjunction.  Two calls of [where] in
    a row compile to the text that one call with the [and] of the two
    expressions compiles to, whatever the builder had before; and so do
    two calls of [having]. *)
Theorem where_chain_is_and (b : SelectQueryBuilder) (c1 c2 : Expr) :
  SelectQueryBuilder.compile
    (SelectQueryBuilder.where_
       (SelectQueryBuilder.where_ b (ConditionCallback c1)) (ConditionCallback c2))
  = SelectQueryBuilder.compile
      (SelectQueryBuilder.where_ b
         (ConditionCallback (ExpressionBuilder.and [c1; c2]))) ∧
  SelectQueryBuilder.compile
    (SelectQueryBuilder.having
       (SelectQueryBuilder.having b (ConditionCallback c1)) (ConditionCallback c2))
  = SelectQueryBuilder.compile
      (SelectQueryBuilder.having b
         (ConditionCallback (ExpressionBuilder.and [c1; c2]))).
Proof.
  destruct b as [[c d s f j w g h o l]].
  unfold SelectQueryBuilder.compile, SelectQueryBuilder.where_,
    SelectQueryBuilder.having.
  cbn [node SelectQueryBuilder.condition_node ExpressionBuilder.and expr_node
       fmap list_fmap].
  rewrite !compileQuery_parts.
  cbn [q_ctes q_distinct q_selections q_from q_joins q_where q_groupBy
       q_having q_orderBy q_limit].
  by rewrite !clause_and_pair.
Qed.

(** The calls of the builder that change one clause of the query. *)
Inductive Call : Type :=
  | CallSelect (arg : SelectArg)
  | CallSelectAll
  | CallDistinct
  | CallWhere (arg : ConditionArg)
  | CallJoin (type : JoinType) (tableStr leftCol op rightCol : string)
  | CallGroupBy (arg : GroupByArg)
  | CallHaving (arg : ConditionArg)
  | CallOrderBy (column : string) (direction : option Direction)
  | CallLimit (count : Z).

Definition call (c : Call) (b : SelectQueryBuilder) : SelectQueryBuilder :=
  match c with
  | CallSelect arg => SelectQueryBuilder.select b arg
  | CallSelectAll => SelectQueryBuilder.selectAll b
  | CallDistinct => SelectQueryBuilder.distinct b
  | CallWhere arg => SelectQueryBuilder.where_ b arg
  | CallJoin type tableStr leftCol op rightCol =>
      SelectQueryBuilder.addJoin b type tableStr leftCol op rightCol
  | CallGroupBy arg => SelectQueryBuilder.groupBy b arg
  | CallHaving arg => SelectQueryBuilder.having b arg
  | CallOrderBy column direction => SelectQueryBuilder.orderBy b column direction
  | CallLimit count => SelectQueryBuilder.limit b count
  end.

(** The field of the query that a call changes. *)
Inductive QueryField : Type :=
  | FSelections | FDistinct | FWhere | FJoins | FGroupBy | FHaving | FOrderBy
  | FLimit.

Definition field_of (c : Call) : QueryField :=
  match c with
  | CallSelect _ | CallSelectAll => FSelections
  | CallDistinct => FDistinct
  | CallWhere _ => FWhere
  | CallJoin _ _ _ _ _ => FJoins
  | CallGroupBy _ => FGroupBy
  | CallHaving _ => FHaving
  | CallOrderBy _ _ => FOrderBy
  | CallLimit _ => FLimit
  end.

(** X27: the order of calls.  Two calls that change different clauses
    can be made in either order: the builder that results is the same.
    On one clause the order counts: the last [limit] is the one kept,
    [selectAll] discards what was selected before it, and [select] after
    [selectAll] adds its columns after the star. *)
Theorem calls_on_different_clauses_commute (c1 c2 : Call) (b : SelectQueryBuilder) :
  field_of c1 ≠ field_of c2 →
  call c1 (call c2 b) = call c2 (call c1 b) ∧
  (∀ n m, SelectQueryBuilder.limit (SelectQueryBuilder.limit b n) m
          = SelectQueryBuilder.limit b m) ∧
  (∀ arg, SelectQueryBuilder.selectAll (SelectQueryBuilder.select b arg)
          = SelectQueryBuilder.selectAll b) ∧
  (∀ column, q_selections
               (node (SelectQueryBuilder.select (SelectQueryBuilder.selectAll b)
                        (SelectColumn column)))
             = [StarNode None; parseColumnRef column]).
Proof.
  intros Hne. destruct b as [[c d s f j w g h o l]].
  split; [|by repeat split].
  destruct c1, c2; try done;
    cbn [call SelectQueryBuilder.select SelectQueryBuilder.selectAll
         SelectQueryBuilder.distinct SelectQueryBuilder.where_
         SelectQueryBuilder.addJoin SelectQueryBuilder.groupBy
         SelectQueryBuilder.having SelectQueryBuilder.orderBy
         SelectQueryBuilder.limit node];
    try done;
    unfold SelectQueryBuilder.addJoin; by destruct (parseTableRef tableStr).
Qed.

Lemma calls_on_different_clauses_commute_witness :
  call (CallLimit 10) (call (CallWhere (ConditionColumn "miner" "=" (JsString "0x1")))
                         (CdpQueryCreator.selectFrom cdp "base.blocks"))
  = call (CallWhere (ConditionColumn "miner" "=" (JsString "0x1")))
      (call (CallLimit 10) (CdpQueryCreator.selectFrom cdp "base.blocks")).
Proof.
  apply (calls_on_different_clauses_commute (CallLimit 10)
           (CallWhere (ConditionColumn "miner" "=" (JsString "0x1")))).
  discriminate.
Defined.

(** ** Aggregates over a name (builder/expression-builder.ts) *)

(** X28: a string given to an aggregate.  When it has the shape of an
    identifier it is the column of that name: [sum], [avg], [count] and
    [countDistinct] compile to [sum(s)], [avg(s)], [count(s)] and
    [count(DISTINCT s)].  Any other string but the star is a quoted
    literal.  [count] without argument, of the empty string and of the
    star all compile to the count of the star. *)
Theorem aggregate_string_arguments (s : string) :
  let text := λ e : Expr, compileNode (expr_node e) in
  (test_identifier s = true →
   text (ExpressionBuilder.sum (ArgString s)) = "sum(" +:+ s +:+ ")" ∧
   text (ExpressionBuilder.avg (ArgString s)) = "avg(" +:+ s +:+ ")" ∧
   text (ExpressionBuilder.count (Some (ArgString s))) = "count(" +:+ s +:+ ")" ∧
   text (ExpressionBuilder.countDistinct (ArgString s))
     = "count(DISTINCT " +:+ s +:+ ")") ∧
  (test_identifier s = false → s ≠ "*" → s ≠ "" →
   text (ExpressionBuilder.sum (ArgString s)) = "sum('" +:+ s +:+ "')" ∧
   text (ExpressionBuilder.count (Some (ArgString s))) = "count('" +:+ s +:+ "')" ∧
   text (ExpressionBuilder.countDistinct (ArgString s))
     = "count(DISTINCT '" +:+ s +:+ "')") ∧
  text (ExpressionBuilder.count None) = "count(*)" ∧
  text (ExpressionBuilder.count (Some (ArgString ""))) = "count(*)" ∧
  text (ExpressionBuilder.count (Some (ArgString "*"))) = "count(*)".
Proof.
  intros text. split; [|split; [|done]].
  - intros Hid. destruct (toNode_identifier s Hid) as (_ & _ & Htext).
    unfold text.
    cbn [ExpressionBuilder.sum ExpressionBuilder.avg ExpressionBuilder.count
         ExpressionBuilder.countDistinct expr_node].
    assert (s ≠ "") as Hne by (by intros ->).
    assert (match s with "" => StarNode None | _ => toNode (ArgString s) end
            = toNode (ArgString s)) as Hcount by (by destruct s).
    repeat split.
    + cbn [compileNode List.map String.eqb Ascii.eqb Bool.eqb String.concat].
      by rewrite Htext.
    + cbn [compileNode List.map String.eqb Ascii.eqb Bool.eqb String.concat].
      by rewrite Htext.
    + destruct s as [|x r]; [done|].
      cbn [compileNode List.map String.eqb Ascii.eqb Bool.eqb String.concat].
      by rewrite Htext.
    + cbn [compileNode List.map String.eqb Ascii.eqb Bool.eqb String.concat].
      by rewrite Htext.
  - intros Hid Hstar Hne. unfold text.
    cbn [ExpressionBuilder.sum ExpressionBuilder.count
         ExpressionBuilder.countDistinct expr_node].
    assert (toNode (ArgString s) = ValueNode (JsString s)) as Hnode.
    { cbn [toNode]. rewrite Hid. apply String.eqb_neq in Hstar. by rewrite Hstar. }
    repeat split.
    + cbn [compileNode List.map String.eqb Ascii.eqb Bool.eqb String.concat].
      rewrite Hnode. cbn [compileNode compileValue]. by rewrite <-!Str.app_assoc.
    + destruct s as [|x r]; [done|].
      cbn [compileNode List.map String.eqb Ascii.eqb Bool.eqb String.concat].
      rewrite Hnode. cbn [compileNode compileValue]. by rewrite <-!Str.app_assoc.
    + cbn [compileNode List.map String.eqb Ascii.eqb Bool.eqb String.concat].
      rewrite Hnode. cbn [compileNode compileValue]. by rewrite <-!Str.app_assoc.
Qed.

Lemma aggregate_string_arguments_witness :
  compileNode (expr_node (ExpressionBuilder.countDistinct (ArgString "e.address")))
  = "count(DISTINCT " +:+ "e.address" +:+ ")".
Proof.
  apply (aggregate_string_arguments "e.address"). reflexivity.
Defined.
